(** * vmrestore: the restore action of lib/backup

    A shallow embedding of [actions.Restore.Run] (lib/backup/actions/restore.go)
    and of the local file system backend [fslocal.FS]
    (lib/backup/fslocal/fslocal.go), together with the properties of the
    restore engine that are stated about them.

    Go's [uint64] is modelled as [Z] with the wrap-around written out, Go
    strings as [string], Go maps as [gmap] and [gset], and a function that
    returns [(T, error)] as a value of [result T]. *)

From stdpp Require Import gmap strings list fin_maps sorting.
From Stdlib Require Import ZArith Lia.
From Stdlib.Strings Require Import Byte Ascii.
From Stdlib Require Import DecimalString.

Local Open Scope Z_scope.

(** ** Machine integers *)

Module U64.

Definition modulus : Z := 2 ^ 64.

(** [uint64] values are the integers of [0, 2^64). *)
Definition inRange (x : Z) : Prop := 0 <= x < modulus.

Definition wrap (x : Z) : Z := x mod modulus.

(** [a + b] and [a - b] on [uint64]. *)
Definition add (a b : Z) : Z := wrap (a + b).
Definition sub (a b : Z) : Z := wrap (a - b).

End U64.

(** ** Results of fallible calls *)

(** A Go call that returns [(T, error)]: either a value or an error. *)
Inductive result (E A : Type) : Type :=
| Ok (a : A)
| Err (e : E).
Arguments Ok {E A} a.
Arguments Err {E A} e.

Definition bind {E A B} (r : result E A) (k : A -> result E B) : result E B :=
  match r with
  | Ok a => k a
  | Err e => Err e
  end.

Notation "'doR' x <- r ; k" := (bind r (fun x => k))
  (at level 10, x pattern, r at level 100, k at level 200).

Definition isOk {E A} (r : result E A) : bool :=
  match r with Ok _ => true | Err _ => false end.

(** ** Parts (lib/backup/common) *)

(** [common.Part]: a byte range of one file of the backup. *)
Record Part : Type := mkPart {
  Path : string;
  FileSize : Z;
  Offset : Z;
  Size : Z;
  ActualSize : Z
}.

(** The zero value of [common.Part], as in [var pOld common.Part]. *)
Definition zeroPart : Part := mkPart EmptyString 0 0 0 0.

#[global] Instance Part_eq_dec : EqDecision Part.
Proof. solve_decision. Defined.

(** ** The operating system, as far as fslocal uses it *)

Module OS.

Inductive errno : Type :=
  ENOENT | EACCES | ENOTEMPTY | ENOTDIR | EISDIR | EINVAL.

(** [os.IsNotExist(err)]. *)
Definition IsNotExist (e : errno) : bool :=
  match e with ENOENT => true | _ => false end.

(** What a name of the file system denotes: a regular file with its bytes,
    or a directory. *)
Inductive node : Type :=
| File (data : list byte)
| Directory.

Definition isFile (n : node) : bool :=
  match n with File _ => true | Directory => false end.

Definition isDir (n : node) : bool := negb (isFile n).

(** The file system: the nodes by their full name, and the names the process
    has no permission on (every call on them fails with [EACCES]). *)
Record state : Type := mkState {
  nodes : gmap string node;
  denied : gset string
}.

(** [os.FileInfo], as far as it is read. *)
Record FileInfo : Type := mkInfo {
  fi_size : Z;
  fi_isDir : bool
}.

Definition info (n : node) : FileInfo :=
  match n with
  | File data => mkInfo (Z.of_nat (length data)) false
  | Directory => mkInfo 4096 true
  end.

(** The size [os.Stat] reports for [name]; 0 when nothing has that name. *)
Definition sizeOf (o : state) (name : string) : Z :=
  match nodes o !! name with
  | Some n => fi_size (info n)
  | None => 0
  end.

(** [os.Stat(name)]. *)
Definition Stat (o : state) (name : string) : result errno FileInfo :=
  if decide (name ∈ denied o) then Err EACCES
  else match nodes o !! name with
       | Some n => Ok (info n)
       | None => Err ENOENT
       end.

(** [os.Open(name)]: the open file is represented by its name. *)
Definition Open (o : state) (name : string) : result errno string :=
  if decide (name ∈ denied o) then Err EACCES
  else match nodes o !! name with
       | Some _ => Ok name
       | None => Err ENOENT
       end.

(** [f.Stat()] on an open file. *)
Definition FStat (o : state) (f : string) : result errno FileInfo :=
  match nodes o !! f with
  | Some n => Ok (info n)
  | None => Err ENOENT
  end.

(** Does some node live below the directory [d]? *)
Definition hasChild (o : state) (d : string) : bool :=
  bool_decide (set_Exists (λ name, String.prefix (d +:+ "/") name = true)
                          (dom (nodes o))).

(** [os.Remove(name)]: removes a file or an empty directory. *)
Definition Remove (o : state) (name : string) : result errno state :=
  if decide (name ∈ denied o) then Err EACCES
  else match nodes o !! name with
       | Some (File _) => Ok (mkState (delete name (nodes o)) (denied o))
       | Some Directory =>
           if hasChild o name then Err ENOTEMPTY
           else Ok (mkState (delete name (nodes o)) (denied o))
       | None => Err ENOENT
       end.

(** Does [s] contain a slash? *)
Fixpoint hasSlash (s : string) : bool :=
  match s with
  | EmptyString => false
  | String c r => if Ascii.eqb c "/"%char then true else hasSlash r
  end.

(** [filepath.Dir(name)] for a clean name: what precedes its last slash.
    The empty result stands for the root or the working directory, which
    always exist. *)
Fixpoint dirname (s : string) : string :=
  match s with
  | EmptyString => EmptyString
  | String c r => if hasSlash r then String c (dirname r) else EmptyString
  end.

(** The prefixes of [s] that a slash follows, outermost first, each
    prepended with [acc]. *)
Fixpoint slashPrefixes (acc s : string) : list string :=
  match s with
  | EmptyString => []
  | String c r =>
      (if Ascii.eqb c "/"%char then [acc] else [])
        ++ slashPrefixes (acc +:+ String c EmptyString) r
  end.

(** The directories on the way to [d], outermost first, and [d] itself. *)
Definition chain (d : string) : list string :=
  filter (λ x, x ≠ EmptyString) (slashPrefixes EmptyString d ++ [d]).

Definition mkdir (o : state) (d : string) : result errno state :=
  match nodes o !! d with
  | Some Directory => Ok o
  | Some (File _) => Err ENOTDIR
  | None =>
      if decide (d ∈ denied o) then Err EACCES
      else Ok (mkState (<[d := Directory]> (nodes o)) (denied o))
  end.

Fixpoint mkdirs (o : state) (ds : list string) : result errno state :=
  match ds with
  | [] => Ok o
  | d :: ds' => doR o' <- mkdir o d; mkdirs o' ds'
  end.

(** [os.MkdirAll(d, 0700)]: creates [d] and the missing directories on the
    way to it. *)
Definition MkdirAll (o : state) (d : string) : result errno state :=
  mkdirs o (chain d).

(** The bytes of a file after [bs] is written at position [pos]: the file
    grows when the write ends behind its end, and a hole before [pos] reads
    as zeros; writing nothing changes nothing. *)
Definition writeAt (data : list byte) (pos : nat) (bs : list byte) : list byte :=
  match bs with
  | [] => data
  | _ => take pos (data ++ replicate (pos - length data) x00)
           ++ bs ++ drop (pos + length bs) data
  end.

End OS.

(** ** lib/backup/fscommon and lib/filestream *)

Module Fscommon.

(** The regular files below [dir], by their full names. *)
Definition filesBelow (o : OS.state) (dir : string) : list string :=
  filter (λ name, String.prefix (dir +:+ "/") name = true
                  ∧ OS.isFile <$> (OS.nodes o !! name) = Some true)
         (map_to_list (OS.nodes o)).*1.

(** Modelled from the spec: [fscommon.AppendFiles] is not part of the given
    sources. "Recursively walk [dir] collecting regular files": the regular
    files whose name starts with [dir/], appended to [dst]; the walk fails
    when a directory below [dir] cannot be read. *)
Definition AppendFiles (dst : list string) (o : OS.state) (dir : string)
  : result OS.errno (list string) :=
  if bool_decide (set_Exists (λ d, String.prefix (dir +:+ "/") d = true
                                   ∧ OS.isDir <$> (OS.nodes o !! d) = Some true)
                             (OS.denied o))
  then Err OS.EACCES
  else Ok (dst ++ filesBelow o dir).

(** Is the directory [d] to be pruned below [dir]: it lies below [dir] and
    no regular file lies below it. *)
Definition prunable (o : OS.state) (dir : string) (d : string) (n : OS.node) : Prop :=
  OS.isDir n = true ∧ String.prefix (dir +:+ "/") d = true ∧ filesBelow o d = [].

#[global] Instance prunable_dec o dir d n : Decision (prunable o dir d n).
Proof. unfold prunable. solve_decision. Defined.

(** Modelled from the spec: [fscommon.RemoveEmptyDirs] is not part of the
    given sources. "Recursively remove any directory under [dir] that
    transitively contains no regular files, except [dir] itself." *)
Definition RemoveEmptyDirs (o : OS.state) (dir : string) : result OS.errno OS.state :=
  Ok (OS.mkState
        (filter (λ kv, ¬ prunable o dir kv.1 kv.2) (OS.nodes o))
        (OS.denied o)).

(** Modelled from the spec: [fscommon.FsyncFile] is not part of the given
    sources. It makes the file and its directory durable; durability is not
    part of the state, so that it changes nothing. *)
Definition FsyncFile (o : OS.state) (path : string) : result OS.errno OS.state :=
  Ok o.

End Fscommon.

Module Filestream.

(** A [filestream.Writer]: the file it writes to and its position. *)
Record Writer : Type := mkWriter {
  w_name : string;
  w_pos : Z
}.

(** [int64(x)] for a [uint64] [x]. *)
Definition toInt64 (x : Z) : Z := if decide (x < 2 ^ 63) then x else x - 2 ^ 64.

(** Modelled from the spec: [filestream.OpenWriterAt] is not part of the
    given sources. "Open the file for write at byte position [part.offset],
    extending the file if necessary": the file is created when it is
    missing, it is not truncated, and the writer starts at [offset]. *)
Definition OpenWriterAt (o : OS.state) (path : string) (offset : Z)
  : result OS.errno (Writer * OS.state) :=
  if decide (path ∈ OS.denied o) then Err OS.EACCES
  else if decide (offset < 0) then Err OS.EINVAL
  else match OS.nodes o !! path with
       | Some OS.Directory => Err OS.EISDIR
       | Some (OS.File _) => Ok (mkWriter path offset, o)
       | None =>
           if decide (OS.dirname path = EmptyString
                      ∨ OS.isDir <$> (OS.nodes o !! OS.dirname path) = Some true)
           then Ok (mkWriter path offset,
                    OS.mkState (<[path := OS.File []]> (OS.nodes o)) (OS.denied o))
           else Err OS.ENOENT
       end.

(** [w.Write(bs)]: the bytes go to the file at the writer's position, which
    advances by their number. *)
Definition Write (w : Writer) (bs : list byte) (o : OS.state)
  : (Z * option OS.errno) * (Writer * OS.state) :=
  match OS.nodes o !! w_name w with
  | Some (OS.File data) =>
      let data' := OS.writeAt data (Z.to_nat (w_pos w)) bs in
      ((Z.of_nat (length bs), None),
       (mkWriter (w_name w) (w_pos w + Z.of_nat (length bs)),
        OS.mkState (<[w_name w := OS.File data']> (OS.nodes o)) (OS.denied o)))
  | _ => ((0, Some OS.ENOENT), (w, o))
  end.

End Filestream.

(** ** lib/backup/common: the functions on parts *)

Module Common.

(** The identity of a part: [actual_size] is not part of it. *)
Definition key (p : Part) : string * Z * Z * Z :=
  (Path p, FileSize p, Offset p, Size p).

(** Modelled from the spec: [common.PartsDifference] is not part of the
    given sources. "[diff(A, B)] returns the elements of [A] not present in
    [B], by [(path, file_size, offset, size)] identity"; the order of [A] is
    kept. *)
Definition PartsDifference (a b : list Part) : list Part :=
  filter (λ p, key p ∉ key <$> b) a.

(** The elements of [A] that are present in [B], by the same identity. *)
Definition PartsIntersection (a b : list Part) : list Part :=
  filter (λ p, key p ∈ key <$> b) a.

(** The canonical ordering: by path, then by offset. *)
Definition partLe (p q : Part) : Prop :=
  String.ltb (Path p) (Path q) = true ∨ (Path p = Path q ∧ Offset p <= Offset q).

#[global] Instance partLe_dec : RelDecision partLe.
Proof. intros p q. unfold partLe. solve_decision. Defined.

(** Modelled from the spec: [common.SortParts] is not part of the given
    sources. "Parts sort by [(path ascending, offset ascending)]." *)
Definition SortParts (parts : list Part) : list Part :=
  merge_sort partLe parts.

End Common.

(** ** lib/backup/fslocal *)

Module Fslocal.

(** [fslocal.FS]: the local directory to work with. *)
Record FS : Type := mkFS { Dir : string }.

(** The errors of fslocal, one constructor per [fmt.Errorf]; [ErrOS] is an
    error of the operating system returned as it is, and the last two are
    not errors but ways not to return: [logger.Panicf], and a loop that
    never ends. *)
Inductive Error : Type :=
| ErrOS (e : OS.errno)
| ErrCannotStat (file : string) (e : OS.errno)
    (* "cannot stat %q: %s" *)
| ErrCannotOpen (path fullPath : string) (e : OS.errno)
    (* "cannot open %q at %q: %s" *)
| ErrCannotStatOpened (path fullPath : string) (e : OS.errno)
    (* "cannot stat %q at %q: %s" *)
| ErrCannotRemove (fullPath : string) (e : OS.errno)
    (* "cannot remove %q: %s" *)
| ErrCannotCreateDir (dir : string) (e : OS.errno)
    (* "cannot create directory %q: %s" *)
| ErrCannotOpenWriter (path : string) (offset : Z) (e : OS.errno)
    (* "cannot open writer for %q at offset %d: %s" *)
| PanicUnexpectedPrefix (file dir : string)
    (* "BUG: unexpected prefix for file %q; want %q" *)
| Diverges.

(** [for strings.HasSuffix(dir, "/") { dir = dir[:len(dir)-1] }]. *)
Fixpoint trimSlashes (dir : string) : string :=
  match dir with
  | EmptyString => EmptyString
  | String c r =>
      match trimSlashes r with
      | EmptyString => if Ascii.eqb c "/"%char then EmptyString else String c EmptyString
      | r' => String c r'
      end
  end.

(** [fs.path(p)]. The directory without its trailing slashes is computed
    and not used: the result starts with [fs.Dir] as it is. *)
Definition path (fs : FS) (p : Part) : string :=
  let dir := trimSlashes (Dir fs) in
  Dir fs +:+ "/" +:+ Path p.

(** [file[len(dir):]]. *)
Definition trimPrefix (dir file : string) : string :=
  String.substring (String.length dir)
                   (String.length file - String.length dir) file.

Section WithMaxPartSize.

(** [common.MaxPartSize]: the constant is not part of the given sources. *)
Variable MaxPartSize : Z.

(** The loop [for offset < size { ... }] of [ListParts], which appends the
    parts of one file to [parts]. [fuel] bounds the number of iterations;
    [None] when it does not suffice. *)
Fixpoint sliceLoop (fuel : nat) (path : string) (size offset : Z)
    (parts : list Part) : option (list Part) :=
  if decide (offset < size) then
    match fuel with
    | O => None
    | S fuel' =>
        let n := U64.sub size offset in
        let n := if decide (n > MaxPartSize) then MaxPartSize else n in
        sliceLoop fuel' path size (U64.add offset n)
                  (parts ++ [mkPart path size offset n n])
    end
  else Some parts.

(** As many iterations as a file of [size] bytes has parts. *)
Definition sliceFuel (size : Z) : nat := S (Z.to_nat (size / MaxPartSize)).

(** The body of [for _, file := range files] in [ListParts], for one file. *)
Definition listFile (o : OS.state) (dir : string) (parts : list Part)
    (file : string) : result Error (list Part) :=
  if negb (String.prefix dir file) then Err (PanicUnexpectedPrefix file dir)
  else
    match OS.Stat o file with
    | Err e => Err (ErrCannotStat file e)
    | Ok fi =>
        let path := trimPrefix dir file in
        let size := U64.wrap (OS.fi_size fi) in
        if decide (size = 0) then
          Ok (parts ++ [mkPart path 0 0 0 0])
        else
          match sliceLoop (sliceFuel size) path size 0 parts with
          | Some parts' => Ok parts'
          | None => Err Diverges
          end
    end.

Fixpoint listFiles (o : OS.state) (dir : string) (parts : list Part)
    (files : list string) : result Error (list Part) :=
  match files with
  | [] => Ok parts
  | file :: files' =>
      doR parts' <- listFile o dir parts file; listFiles o dir parts' files'
  end.

(** [fs.ListParts()]. *)
Definition ListParts (fs : FS) (o : OS.state) : result Error (list Part) :=
  let dir := Dir fs in
  match OS.Stat o dir with
  | Err e => if OS.IsNotExist e then Ok [] else Err (ErrOS e)
  | Ok _ =>
      match Fscommon.AppendFiles [] o dir with
      | Err e => Err (ErrOS e)
      | Ok files => listFiles o (dir +:+ "/") [] files
      end
  end.

End WithMaxPartSize.

(** [fs.mkdirAll(filePath)]. *)
Definition mkdirAll (fs : FS) (o : OS.state) (filePath : string)
  : result Error OS.state :=
  let dir := OS.dirname filePath in
  match OS.MkdirAll o dir with
  | Err e => Err (ErrCannotCreateDir dir e)
  | Ok o' => Ok o'
  end.

(** [fslocal.writeCloser]. *)
Record writeCloser : Type := mkWriteCloser {
  wc_w : Filestream.Writer;
  wc_path : string
}.

(** [fs.NewWriteCloser(p)]. *)
Definition NewWriteCloser (fs : FS) (p : Part) (o : OS.state)
  : result Error (writeCloser * OS.state) :=
  let path := path fs p in
  doR o1 <- mkdirAll fs o path;
  match Filestream.OpenWriterAt o1 path (Filestream.toInt64 (Offset p)) with
  | Err e => Err (ErrCannotOpenWriter path (Offset p) e)
  | Ok (w, o2) => Ok (mkWriteCloser w path, o2)
  end.

(** [wc.Write(p)]. *)
Definition wcWrite (wc : writeCloser) (bs : list byte) (o : OS.state)
  : (Z * option OS.errno) * (writeCloser * OS.state) :=
  let '(r, (w', o')) := Filestream.Write (wc_w wc) bs o in
  (r, (mkWriteCloser w' (wc_path wc), o')).

(** [wc.Close()]. *)
Definition wcClose (wc : writeCloser) (o : OS.state) : result OS.errno OS.state :=
  Fscommon.FsyncFile o (wc_path wc).

(** [fs.DeletePath(path)]: the size of the deleted file and the new state. *)
Definition DeletePath (fs : FS) (path0 : string) (o : OS.state)
  : result Error (Z * OS.state) :=
  let p := mkPart path0 0 0 0 0 in
  let fullPath := path fs p in
  match OS.Open o fullPath with
  | Err e =>
      if OS.IsNotExist e then Ok (0, o)
      else Err (ErrCannotOpen path0 fullPath e)
  | Ok f =>
      match OS.FStat o f with
      | Err e => Err (ErrCannotStatOpened path0 fullPath e)
      | Ok fi =>
          let size := U64.wrap (OS.fi_size fi) in
          match OS.Remove o fullPath with
          | Err e => Err (ErrCannotRemove fullPath e)
          | Ok o' => Ok (size, o')
          end
      end
  end.

(** [fs.RemoveEmptyDirs()]. *)
Definition RemoveEmptyDirs (fs : FS) (o : OS.state) : result OS.errno OS.state :=
  Fscommon.RemoveEmptyDirs o (Dir fs).

(** The errors of a [Read]: [io.EOF], the error of the reader below, and
    "too much data read; got %d bytes; want %d bytes". *)
Inductive ReadError : Type :=
| EOF
| ErrReader (e : OS.errno)
| ErrTooMuchData (got want : Z).

(** [r.Read(p)] for a reader of type [R], given [len(p)]: the number of
    bytes read and the error, the bytes stored into [p], and the reader
    afterwards. The reader of [limitedReadCloser] is a
    [*filestream.Reader], which is not part of the given sources: it is any
    reader here. *)
Class Reader (R : Type) : Type :=
  readR : R → Z → (Z * option ReadError) * list byte * R.

(** [fslocal.limitedReadCloser]. *)
Record limitedReadCloser (R : Type) : Type := mkLimitedReadCloser {
  lrc_r : R;
  lrc_n : Z
}.
Arguments mkLimitedReadCloser {R} lrc_r lrc_n.
Arguments lrc_r {R} l.
Arguments lrc_n {R} l.

(** [lrc.Read(p)], given [len(p)]. *)
Definition lrcRead {R} `{!Reader R} (lrc : limitedReadCloser R) (len : Z)
  : (Z * option ReadError) * list byte * limitedReadCloser R :=
  if decide (lrc_n lrc = 0) then ((0, Some EOF), [], lrc)
  else
    let len := if decide (len > lrc_n lrc) then lrc_n lrc else len in
    let '((n, err), bs, r') := readR (lrc_r lrc) len in
    if decide (n > len) then
      ((n, Some (ErrTooMuchData n len)), bs, mkLimitedReadCloser r' (lrc_n lrc))
    else
      ((n, err), bs, mkLimitedReadCloser r' (U64.sub (lrc_n lrc) (U64.wrap n))).

(** Successive calls of [lrc.Read] with buffers of the lengths [lens],
    whatever they return: the numbers of bytes of the calls, and the reader
    after the last. *)
Fixpoint lrcReads {R} `{!Reader R} (lrc : limitedReadCloser R) (lens : list Z)
  : list Z * limitedReadCloser R :=
  match lens with
  | [] => ([], lrc)
  | len :: rest =>
      let '((n, _), _, lrc') := lrcRead lrc len in
      let '(ns, lrc'') := lrcReads lrc' rest in
      (n :: ns, lrc'')
  end.

End Fslocal.

(** ** Errors returned by [Restore.Run]

    One constructor per [fmt.Errorf] of restore.go; the arguments are the
    values formatted into the message. *)
Inductive Cause : Type :=
| CauseRemote (msg : string)
| CauseFs (e : Fslocal.Error)
| CauseOS (e : OS.errno)
| CauseShortWrite
| CauseWrongSize (got want : Z).

Inductive RestoreError : Type :=
| ErrListSrc (cause : Cause)
    (* "cannot list src parts: %s" *)
| ErrListDst (cause : Cause)
    (* "cannot list dst parts: %s" *)
| ErrInvalidFileSize (path : string) (got want : Z)
    (* "invalid size for %q; got %d; want %d" *)
| ErrOverlap (n : Z) (pOld p : Part)
    (* "there is an overlap in %d bytes between %s and %s" *)
| ErrGapFromStart (n : Z) (p : Part)
    (* "there is a gap in %d bytes from file start to %s" *)
| ErrGap (n : Z) (pOld p : Part)
    (* "there is a gap in %d bytes between %s and %s" *)
| ErrInvalidPartSize (p : Part) (got want : Z)
    (* "invalid size for %s; got %d; want %d" *)
| ErrDelete (path : string) (cause : Cause)
    (* "cannot delete %s from %s: %s" *)
| ErrRemoveEmptyDirs (cause : Cause)
    (* "cannot remove empty directories at %s: %s" *)
| ErrListDstAfter (cause : Cause)
    (* "cannot list dst parts after the deletion: %s" *)
| ErrCreateWriter (p : Part) (cause : Cause)
    (* "cannot create writer for %q to %s: %s" *)
| ErrDownload (p : Part) (cause : Cause)
    (* "cannot download %s to %s: %s" *)
| ErrCloseWriter (p : Part) (cause : Cause)
    (* "cannot close reader fro %s from %s: %s" *)
| NoReturn (e : Fslocal.Error).
    (* a panic, or a loop that never ends, in fslocal *)

(** ** Validation of the source parts (restore.go, lines 56-82) *)

Module Validate.

(** The three variables the loop carries: [offset], [pOld] and [path]. *)
Record state : Type := mkState {
  offset : Z;
  pOld : Part;
  path : string
}.

(** [offset := uint64(0); var pOld common.Part; var path string]. *)
Definition init : state := mkState 0 zeroPart EmptyString.

(** The [if p.Path != path { ... }] block at the head of the loop body. *)
Definition enterFile (st : state) (p : Part) : result RestoreError state :=
  if decide (Path p ≠ path st) then
    if decide (offset st ≠ FileSize (pOld st)) then
      Err (ErrInvalidFileSize (path st) (offset st) (FileSize (pOld st)))
    else
      Ok (mkState 0 p (Path p))
  else Ok st.

(** The rest of the loop body: the checks of [p] against the expected offset
    and the advance of the offset. *)
Definition checkPart (st : state) (p : Part) : result RestoreError state :=
  if decide (Offset p < offset st) then
    Err (ErrOverlap (U64.sub (offset st) (Offset p)) (pOld st) p)
  else if decide (Offset p > offset st) then
    if decide (offset st = 0) then
      Err (ErrGapFromStart (Offset p) p)
    else
      Err (ErrGap (U64.sub (Offset p) (offset st)) (pOld st) p)
  else if decide (Size p ≠ ActualSize p) then
    Err (ErrInvalidPartSize p (ActualSize p) (Size p))
  else
    Ok (mkState (U64.add (offset st) (Size p)) (pOld st) (path st)).

(** One iteration of [for _, p := range srcParts]. *)
Definition step (st : state) (p : Part) : result RestoreError state :=
  doR st1 <- enterFile st p; checkPart st1 p.

(** The whole loop, from the given state. *)
Fixpoint loop (st : state) (parts : list Part) : result RestoreError state :=
  match parts with
  | [] => Ok st
  | p :: ps => doR st' <- step st p; loop st' ps
  end.

(** The validation of restore.go: the loop from the initial state; nothing
    follows the loop. *)
Definition validate (parts : list Part) : result RestoreError unit :=
  doR _ <- loop init parts; Ok tt.

End Validate.

(** ** lib/backup/actions: restore *)

Module Actions.

(** [io.Writer]: what [w.Write(p)] does for a writer of type [W] in a world
    of type [S]: the number of bytes written and the error, and the writer
    and the world afterwards. *)
Class Writer (W S : Type) : Type :=
  write : W → list byte → S → (Z * option Cause) * (W * S).

(** [fslocal.writeCloser] is a writer on the file system. *)
#[global] Instance writeCloser_Writer : Writer Fslocal.writeCloser OS.state :=
  λ wc bs o,
    let '((n, err), st) := Fslocal.wcWrite wc bs o in
    ((n, CauseOS <$> err), st).

(** [statWriter]: [bytesWritten] points to a counter, which is the second
    component of the world here. *)
Record statWriter (W : Type) : Type := mkStatWriter { sw_w : W }.
Arguments mkStatWriter {W} sw_w.
Arguments sw_w {W} s.

(** [sw.Write(p)]. *)
Definition statWrite {W S} `{!Writer W S} (sw : statWriter W) (p : list byte)
    (st : S * Z) : (Z * option Cause) * (statWriter W * (S * Z)) :=
  let '((n, err), (w', s')) := write (sw_w sw) p st.1 in
  let counter' := U64.add st.2 (U64.wrap n) in
  ((n, err), (mkStatWriter w', (s', counter'))).

#[global] Instance statWriter_Writer {W S} `{!Writer W S}
  : Writer (statWriter W) (S * Z) := statWrite.

(** [io.Copy] to [w] from a reader that delivers [chunks]: it stops at the
    first error and at the first short write; [written] counts the bytes. *)
Fixpoint ioCopy {W S} `{!Writer W S} (w : W) (chunks : list (list byte))
    (s : S) (written : Z) : (Z * option Cause) * (W * S) :=
  match chunks with
  | [] => ((written, None), (w, s))
  | c :: cs =>
      let '((n, err), (w', s')) := write w c s in
      let written' := written + n in
      match err with
      | Some e => ((written', Some e), (w', s'))
      | None =>
          if decide (n ≠ Z.of_nat (length c))
          then ((written', Some CauseShortWrite), (w', s'))
          else ioCopy w' cs s' written'
      end
  end.

(** [common.RemoteFS], as far as restore uses it: the listing of the parts,
    and for each part the bytes of its object, in the groups in which they
    are delivered. *)
Record RemoteFS : Type := mkRemoteFS {
  rListParts : result string (list Part);
  rObject : Part → result string (list (list byte))
}.

(** Modelled from the spec: the implementations of [common.RemoteFS] are not
    part of the given sources. "[download(part, sink_writer)]: stream exactly
    [part.size] bytes of the named object into the sink. Must fail if the
    transferred byte count differs from [part.size]." *)
Definition DownloadPart {W S} `{!Writer W S} (src : RemoteFS) (p : Part)
    (w : W) (s : S) : option Cause * (W * S) :=
  match rObject src p with
  | Err msg => (Some (CauseRemote msg), (w, s))
  | Ok chunks =>
      let '((n, err), ws) := ioCopy w chunks s 0 in
      match err with
      | Some e => (Some e, ws)
      | None =>
          if decide (n ≠ Size p) then (Some (CauseWrongSize n (Size p)), ws)
          else (None, ws)
      end
  end.

(** Modelled from the spec: [getPartsSize] is not part of the given sources.
    "[total_size(S) = Σ p.size] over [S]", in [uint64]. *)
Definition getPartsSize (parts : list Part) : Z :=
  foldl (λ n p, U64.add n (Size p)) 0 parts.

(** What the run does to the destination, in the order it does it. *)
Inductive event : Type :=
| EvDelete (path : string)      (* dst.DeletePath(path) *)
| EvOpen (p : Part)             (* dst.NewWriteCloser(p) *)
| EvDownload (p : Part)         (* src.DownloadPart(p, sw) *)
| EvClose (p : Part).           (* wc.Close() *)

(** The world of a run: the file system, the counter [bytesDownloaded] and
    the events so far. *)
Record world : Type := mkWorld {
  os : OS.state;
  bytesDownloaded : Z;
  log : list event
}.

(** A step of the run: it returns a value or an error, and changes the
    world in both cases. *)
Definition io (A : Type) : Type := world → result RestoreError A * world.

Definition ret {A} (a : A) : io A := λ w, (Ok a, w).

Definition fail {A} (e : RestoreError) : io A := λ w, (Err e, w).

Definition iobind {A B} (c : io A) (k : A → io B) : io B :=
  λ w, match c w with
       | (Ok a, w') => k a w'
       | (Err e, w') => (Err e, w')
       end.

Notation "'doIO' x <- c ; k" := (iobind c (λ x, k))
  (at level 10, x pattern, c at level 100, k at level 200).

Definition lift {A} (r : result RestoreError A) : io A := λ w, (r, w).

Definition emit (e : event) : io unit :=
  λ w, (Ok tt, mkWorld (os w) (bytesDownloaded w) (log w ++ [e])).

(** An error of fslocal as [Run] returns it: wrapped by [mk], unless fslocal
    does not return. *)
Definition wrapFs (mk : Cause → RestoreError) (e : Fslocal.Error) : RestoreError :=
  match e with
  | Fslocal.PanicUnexpectedPrefix _ _ | Fslocal.Diverges => NoReturn e
  | _ => mk (CauseFs e)
  end.

(** [restore.Restore]. *)
Record Restore : Type := mkRestore {
  Concurrency : Z;
  Src : RemoteFS;
  Dst : Fslocal.FS
}.

(** The three numbers of the final log line. *)
Record Report : Type := mkReport {
  backupSize : Z;
  deleteSize : Z;
  downloadSize : Z
}.

Section WithMaxPartSize.

Variable MaxPartSize : Z.

(** [dst.ListParts()], with its error wrapped by [mk]. *)
Definition listDst (dst : Fslocal.FS) (mk : Cause → RestoreError) : io (list Part) :=
  λ w, match Fslocal.ListParts MaxPartSize dst (os w) with
       | Ok parts => (Ok parts, w)
       | Err e => (Err (wrapFs mk e), w)
       end.

(** [size, err := dst.DeletePath(path)] with the error handling after it. *)
Definition deletePath (dst : Fslocal.FS) (path : string) : io Z :=
  doIO _ <- emit (EvDelete path);
  λ w, match Fslocal.DeletePath dst path (os w) with
       | Ok (size, o') => (Ok size, mkWorld o' (bytesDownloaded w) (log w))
       | Err e => (Err (wrapFs (ErrDelete path) e), w)
       end.

(** [for path := range pathsToDelete { ... }], over the paths in the order
    in which the map yields them. *)
Fixpoint deletePaths (dst : Fslocal.FS) (paths : list string) (deleteSize : Z)
  : io Z :=
  match paths with
  | [] => ret deleteSize
  | path :: rest =>
      doIO size <- deletePath dst path;
      deletePaths dst rest (U64.add deleteSize size)
  end.

(** [pathsToDelete]: the keys of the map filled by
    [pathsToDelete[p.Path] = true]. *)
Definition pathsToDelete (partsToDelete : list Part) : gset string :=
  list_to_set (Path <$> partsToDelete).

Definition removeEmptyDirs (dst : Fslocal.FS) : io unit :=
  λ w, match Fslocal.RemoveEmptyDirs dst (os w) with
       | Ok o' => (Ok tt, mkWorld o' (bytesDownloaded w) (log w))
       | Err e => (Err (ErrRemoveEmptyDirs (CauseOS e)), w)
       end.

(** The block [if len(partsToDelete) > 0 { ... }]. *)
Definition deletePhase (dst : Fslocal.FS) (partsToDelete : list Part) : io Z :=
  if decide (0 < length partsToDelete)%nat then
    doIO deleteSize <- deletePaths dst (elements (pathsToDelete partsToDelete)) 0;
    doIO _ <- removeEmptyDirs dst;
    ret deleteSize
  else ret 0.

(** [perPath]: the map filled by
    [perPath[p.Path] = append(perPath[p.Path], p)]. *)
Definition groupByPath (partsToCopy : list Part) : gmap string (list Part) :=
  foldl (λ m p, <[Path p := default [] (m !! Path p) ++ [p]]> m) ∅ partsToCopy.

(** [wc, err := dst.NewWriteCloser(p)]. *)
Definition openPart (dst : Fslocal.FS) (p : Part) : io Fslocal.writeCloser :=
  doIO _ <- emit (EvOpen p);
  λ w, match Fslocal.NewWriteCloser dst p (os w) with
       | Ok (wc, o') => (Ok wc, mkWorld o' (bytesDownloaded w) (log w))
       | Err e => (Err (wrapFs (ErrCreateWriter p) e), w)
       end.

(** [sw := &statWriter{w: wc, bytesWritten: &bytesDownloaded}] and
    [src.DownloadPart(p, sw)]; the writer is returned as the download left
    it. *)
Definition downloadPart (src : RemoteFS) (p : Part) (wc : Fslocal.writeCloser)
  : io Fslocal.writeCloser :=
  doIO _ <- emit (EvDownload p);
  λ w, let sw := mkStatWriter wc in
       let '(err, (sw', (o', n'))) :=
         DownloadPart src p sw (os w, bytesDownloaded w) in
       let w' := mkWorld o' n' (log w) in
       match err with
       | Some e => (Err (ErrDownload p e), w')
       | None => (Ok (sw_w sw'), w')
       end.

(** [wc.Close()]. *)
Definition closePart (p : Part) (wc : Fslocal.writeCloser) : io unit :=
  doIO _ <- emit (EvClose p);
  λ w, match Fslocal.wcClose wc (os w) with
       | Ok o' => (Ok tt, mkWorld o' (bytesDownloaded w) (log w))
       | Err e => (Err (ErrCloseWriter p (CauseOS e)), w)
       end.

(** The body of [for _, p := range parts] in the function given to
    [runParallelPerPath]. *)
Definition copyPart (src : RemoteFS) (dst : Fslocal.FS) (p : Part) : io unit :=
  doIO wc <- openPart dst p;
  doIO wc' <- downloadPart src p wc;
  closePart p wc'.

Fixpoint copyParts (src : RemoteFS) (dst : Fslocal.FS) (parts : list Part)
  : io unit :=
  match parts with
  | [] => ret tt
  | p :: rest => doIO _ <- copyPart src dst p; copyParts src dst rest
  end.

(** The function given to [runParallelPerPath]: the work on the parts of one
    path. *)
Definition copyGroup (src : RemoteFS) (dst : Fslocal.FS) (parts : list Part)
  : io unit :=
  copyParts src dst (Common.SortParts parts).

(** Modelled from the spec: [runParallelPerPath] is not part of the given
    sources. "Submit one task per group"; "first error from any worker aborts
    the pool". Here the tasks run one after the other, in the order in which
    the map yields its groups; [Pool] below lets them run interleaved. *)
Fixpoint runParallelPerPath (f : list Part → io unit)
    (groups : list (string * list Part)) : io unit :=
  match groups with
  | [] => ret tt
  | (_, parts) :: rest => doIO _ <- f parts; runParallelPerPath f rest
  end.

(** The block [if len(partsToCopy) > 0 { ... }]. *)
Definition downloadPhase (src : RemoteFS) (dst : Fslocal.FS)
    (partsToCopy : list Part) : io unit :=
  if decide (0 < length partsToCopy)%nat then
    let perPath := groupByPath partsToCopy in
    doIO _ <- (λ w, (Ok tt, mkWorld (os w) 0 (log w)));
    runParallelPerPath (copyGroup src dst) (map_to_list perPath)
  else ret tt.

(** [r.Run()]. *)
Definition Run (r : Restore) : io Report :=
  let src := Src r in
  let dst := Dst r in
  doIO srcParts <- lift (match rListParts src with
                   | Ok parts => Ok parts
                   | Err msg => Err (ErrListSrc (CauseRemote msg))
                   end);
  doIO dstParts <- listDst dst ErrListDst;
  let backupSize := getPartsSize srcParts in
  let srcParts := Common.SortParts srcParts in
  doIO _ <- lift (Validate.validate srcParts);
  let partsToDelete := Common.PartsDifference dstParts srcParts in
  doIO deleteSize <- deletePhase dst partsToDelete;
  doIO dstParts <- listDst dst ErrListDstAfter;
  let partsToCopy := Common.PartsDifference srcParts dstParts in
  let downloadSize := getPartsSize partsToCopy in
  doIO _ <- downloadPhase src dst partsToCopy;
  ret (mkReport backupSize deleteSize downloadSize).

End WithMaxPartSize.

(** *** The pool of workers

    The tasks of [runParallelPerPath] run on concurrent workers. A task is
    the work on one group; it proceeds by the calls of [copyPart], and the
    calls of different tasks interleave in any order. *)

(** How far a task has got: about to open the first of [parts]; about to
    download [p] to the writer [wc]; about to close it; or returned. *)
Inductive task : Type :=
| ToOpen (parts : list Part)
| ToDownload (p : Part) (wc : Fslocal.writeCloser) (rest : list Part)
| ToClose (p : Part) (wc : Fslocal.writeCloser) (rest : list Part)
| Stopped.

(** The next call of a task. A task whose call fails returns. *)
Definition taskStep (src : RemoteFS) (dst : Fslocal.FS) (t : task) (w : world)
  : task * world :=
  match t with
  | ToOpen [] => (Stopped, w)
  | ToOpen (p :: rest) =>
      match openPart dst p w with
      | (Ok wc, w') => (ToDownload p wc rest, w')
      | (Err _, w') => (Stopped, w')
      end
  | ToDownload p wc rest =>
      match downloadPart src p wc w with
      | (Ok wc', w') => (ToClose p wc' rest, w')
      | (Err _, w') => (Stopped, w')
      end
  | ToClose p wc rest =>
      match closePart p wc w with
      | (Ok _, w') => (ToOpen rest, w')
      | (Err _, w') => (Stopped, w')
      end
  | Stopped => (Stopped, w)
  end.

(** The tasks at the start: one per group, on the sorted parts of the group,
    as [copyGroup] starts. *)
Definition poolInit (groups : list (string * list Part)) : list task :=
  (λ g, ToOpen (Common.SortParts g.2)) <$> groups.

(** A step of the pool: some task makes its next call, or a task that is
    between two parts is dropped, as the tasks are after an error. *)
Inductive poolStep (src : RemoteFS) (dst : Fslocal.FS)
  : list task * world → list task * world → Prop :=
| PoolCall (i : nat) (t t' : task) (ts : list task) (w w' : world) :
    ts !! i = Some t →
    taskStep src dst t w = (t', w') →
    poolStep src dst (ts, w) (<[i := t']> ts, w')
| PoolDrop (i : nat) (parts : list Part) (ts : list task) (w : world) :
    ts !! i = Some (ToOpen parts) →
    poolStep src dst (ts, w) (<[i := Stopped]> ts, w).

(** The part a task has in flight: opened and not yet closed. *)
Definition inFlight (t : task) : option Part :=
  match t with
  | ToDownload p _ _ | ToClose p _ _ => Some p
  | _ => None
  end.

(** The path an event is about. *)
Definition eventPath (e : event) : string :=
  match e with
  | EvDelete path => path
  | EvOpen p | EvDownload p | EvClose p => Path p
  end.

(** The events of the work on [parts] when nothing fails. *)
Definition traceOf (parts : list Part) : list event :=
  parts ≫= λ p, [EvOpen p; EvDownload p; EvClose p].

(** The events a task has caused when it has got to [t], for the sorted
    parts [full] of its group: those of the parts it is done with, and of
    the calls made for the part in flight; a task that has returned has
    caused a prefix of the events of its group. *)
Definition taskTrace (full : list Part) (t : task) (done : list event) : Prop :=
  match t with
  | ToOpen rest => ∃ pre, full = pre ++ rest ∧ done = traceOf pre
  | ToDownload p _ rest =>
      ∃ pre, full = pre ++ p :: rest ∧ done = traceOf pre ++ [EvOpen p]
  | ToClose p _ rest =>
      ∃ pre, full = pre ++ p :: rest
             ∧ done = traceOf pre ++ [EvOpen p; EvDownload p]
  | Stopped => done `prefix_of` traceOf full
  end.

(** The invariant of the pool for the groups [groups], after the events
    [l]: task [i] works on group [i], and the events of the path of the
    group are those the task has caused. *)
Definition poolInv (groups : list (string * list Part)) (l : list event)
    (ts : list task) : Prop :=
  length ts = length groups
  ∧ ∀ i k g t,
      groups !! i = Some (k, g) →
      ts !! i = Some t →
      taskTrace (Common.SortParts g) t (filter (λ e, eventPath e = k) l).

End Actions.

(** ** The enumeration of a file, in the words of the spec *)

Module Spec.

(** "If [L == 0]: emit one part with [(path, file_size=0, offset=0, size=0)].
    Else slice into consecutive parts of length [MAX_PART_SIZE] except the
    last, which is the remainder. For each slice, emit [(path, file_size=L,
    offset, size, actual_size=size)]." The number of slices is [L / M]
    rounded up, and slice [k] starts at [k * M]. *)
Definition slice (M : Z) (path : string) (L : Z) (k : nat) : Part :=
  let offset := Z.of_nat k * M in
  let size := Z.min M (L - offset) in
  mkPart path L offset size size.

Definition sliceCount (M L : Z) : nat := Z.to_nat ((L + M - 1) / M).

Definition slices (M : Z) (path : string) (L : Z) : list Part :=
  if decide (L = 0) then [mkPart path 0 0 0 0]
  else slice M path L <$> seq 0 (sliceCount M L).

(** "[total_size(S) = Σ p.size] over [S]", as an integer. *)
Definition totalSize (parts : list Part) : Z :=
  foldr (λ p n, Size p + n) 0 parts.

(** The tiling invariants of the parts [ps] of one path [q], for a file of
    [L] bytes and the maximum part size [M]: "the intervals
    [[offset, offset+size)] partition [[0, file_size)] exactly", in the
    order of the offsets; "all parts with the same path share the same
    [file_size]"; no part exceeds [M]; "[size > 0] for every part except
    the distinguished empty-file part", which "is the sole part for its
    path"; and [actual_size = size]. *)
Definition tiled (M : Z) (q : string) (L : Z) (ps : list Part) : Prop :=
  ps ≠ []
  ∧ totalSize ps = L
  ∧ ∀ k p, ps !! k = Some p →
      Path p = q ∧ FileSize p = L
      ∧ Offset p = totalSize (take k ps)
      ∧ 0 <= Size p <= M
      ∧ ActualSize p = Size p
      ∧ (0 < Size p ∨ ps = [mkPart q 0 0 0 0]).

(** The sizes of the files of the given names, added up. *)
Definition sizesOf (o : OS.state) (names : list string) : Z :=
  foldr (λ name n, OS.sizeOf o name + n) 0 names.

(** "[dir/path]": the full name of the file of a path. *)
Definition fullName (fs : Fslocal.FS) (path : string) : string :=
  Fslocal.Dir fs +:+ "/" +:+ path.

(** What deleting needs of a path: the process may access the name, which
    is that of a regular file or of nothing, and the size fits [int64]. *)
Definition deletable (fs : Fslocal.FS) (o : OS.state) (path : string) : Prop :=
  (fullName fs path ∉ OS.denied o)
  ∧ (OS.isDir <$> (OS.nodes o !! fullName fs path)) ≠ Some true
  ∧ OS.sizeOf o (fullName fs path) < 2 ^ 63.

(** The file system [o'] is [o] with new directories that the process may
    access, and with changes at the names [names] only. *)
Definition extends (names : list string) (o o' : OS.state) : Prop :=
  OS.denied o' = OS.denied o
  ∧ (∀ name n, name ∉ names →
       OS.nodes o !! name = Some n → OS.nodes o' !! name = Some n)
  ∧ (∀ name n, name ∉ names →
       OS.nodes o' !! name = Some n →
       OS.nodes o !! name = Some n
       ∨ (OS.nodes o !! name = None ∧ OS.isDir n = true ∧ name ∉ OS.denied o)).

(** The parts of the file [file] below [dir], as the spec says. *)
Definition partsOfFile (M : Z) (o : OS.state) (dir file : string) : list Part :=
  slices M (Fslocal.trimPrefix dir file) (OS.sizeOf o file).

(** The order of the files below [dir] by their relative names. *)
Definition fileLe (dir f f' : string) : Prop :=
  String.leb (Fslocal.trimPrefix dir f) (Fslocal.trimPrefix dir f') = true.

#[global] Instance fileLe_dec dir : RelDecision (fileLe dir).
Proof. intros f f'. unfold fileLe. solve_decision. Defined.

(** What the enumeration needs of a file: the file is below the directory,
    it can be accessed, and its size fits [int64]. *)
Definition listable (o : OS.state) (dir file : string) : Prop :=
  String.prefix dir file = true
  ∧ (file ∉ OS.denied o)
  ∧ is_Some (OS.nodes o !! file)
  ∧ OS.sizeOf o file < 2 ^ 63.

(** The size of the regular file [name]; 0 when no regular file has that
    name. *)
Definition fileSize (o : OS.state) (name : string) : Z :=
  match OS.nodes o !! name with
  | Some (OS.File data) => Z.of_nat (length data)
  | _ => 0
  end.

(** What a restore needs of the file system around its destination: nothing
    lies below a directory that does not exist, and the sizes below the
    directory fit [int64]. *)
Definition wellFormed (fs : Fslocal.FS) (o : OS.state) : Prop :=
  (OS.nodes o !! Fslocal.Dir fs = None →
   ∀ name, String.prefix (Fslocal.Dir fs +:+ "/") name = true →
           OS.nodes o !! name = None)
  ∧ ∀ name, String.prefix (Fslocal.Dir fs +:+ "/") name = true →
            OS.sizeOf o name < 2 ^ 63.

(** The parts at the end of [pre] whose path is [q]: the parts of the file
    of [q] that a walk has just passed when it has passed [pre]. *)
Fixpoint before (pre : list Part) (q : string) : list Part :=
  match pre with
  | [] => []
  | p :: rest =>
      if decide (Forall (λ x, Path x = q) (p :: rest)) then p :: rest
      else before rest q
  end.

(** The file system [o'] is [o] outside the directory: what does not lie
    below the directory is kept as it is, and what is new there is a
    directory. *)
Definition keepsOutside (fs : Fslocal.FS) (o o' : OS.state) : Prop :=
  OS.denied o' = OS.denied o
  ∧ ∀ name, String.prefix (Fslocal.Dir fs +:+ "/") name = false →
      (∀ n, OS.nodes o !! name = Some n → OS.nodes o' !! name = Some n)
      ∧ (∀ n, OS.nodes o' !! name = Some n →
              OS.nodes o !! name = Some n
              ∨ (OS.nodes o !! name = None ∧ OS.isDir n = true)).

(** The process may access whatever lies below the directory. *)
Definition accessible (fs : Fslocal.FS) (o : OS.state) : Prop :=
  ∀ name, String.prefix (Fslocal.Dir fs +:+ "/") name = true →
          is_Some (OS.nodes o !! name) → name ∉ OS.denied o.

(** The parts of a backup of the files [files], given by their paths and
    sizes, when each file is sliced as the enumeration of a local directory
    slices it. *)
Definition canonical (M : Z) (files : list (string * Z)) : list Part :=
  files ≫= λ f, slices M f.1 f.2.

End Spec.

(** ** lib/fs: the names of temporary files *)

Module Regexp.

(** Regular expressions, as far as the pattern of the program needs them
    and their derivatives: no string, the empty string, a character, the
    class [\d] of the digits [0] to [9], concatenation, alternation and
    repetition. *)
Inductive regexp : Type :=
| Void
| Eps
| Chr (c : ascii)
| Digit
| Cat (r1 r2 : regexp)
| Alt (r1 r2 : regexp)
| Star (r : regexp).

(** [r+]. *)
Definition Plus (r : regexp) : regexp := Cat r (Star r).

Definition isDigit (c : ascii) : bool :=
  (48 <=? nat_of_ascii c)%nat && (nat_of_ascii c <=? 57)%nat.

(** The strings that a regular expression matches. *)
Inductive matches : regexp → string → Prop :=
| MEps : matches Eps EmptyString
| MChr (c : ascii) : matches (Chr c) (String c EmptyString)
| MDigit (c : ascii) : isDigit c = true → matches Digit (String c EmptyString)
| MCat (r1 r2 : regexp) (s1 s2 : string) :
    matches r1 s1 → matches r2 s2 → matches (Cat r1 r2) (s1 +:+ s2)
| MAltL (r1 r2 : regexp) (s : string) : matches r1 s → matches (Alt r1 r2) s
| MAltR (r1 r2 : regexp) (s : string) : matches r2 s → matches (Alt r1 r2) s
| MStar0 (r : regexp) : matches (Star r) EmptyString
| MStarS (r : regexp) (s1 s2 : string) :
    matches r s1 → matches (Star r) s2 → matches (Star r) (s1 +:+ s2).

(** Does [r] match the empty string? *)
Fixpoint nullable (r : regexp) : bool :=
  match r with
  | Void | Chr _ | Digit => false
  | Eps | Star _ => true
  | Cat r1 r2 => nullable r1 && nullable r2
  | Alt r1 r2 => nullable r1 || nullable r2
  end.

(** What [r] matches after the character [c]. *)
Fixpoint deriv (c : ascii) (r : regexp) : regexp :=
  match r with
  | Void | Eps => Void
  | Chr c' => if Ascii.eqb c c' then Eps else Void
  | Digit => if isDigit c then Eps else Void
  | Cat r1 r2 =>
      if nullable r1 then Alt (Cat (deriv c r1) r2) (deriv c r2)
      else Cat (deriv c r1) r2
  | Alt r1 r2 => Alt (deriv c r1) (deriv c r2)
  | Star r1 => Cat (deriv c r1) (Star r1)
  end.

(** Does [r] match the whole of [s]? *)
Fixpoint fullMatch (r : regexp) (s : string) : bool :=
  match s with
  | EmptyString => nullable r
  | String c s' => fullMatch (deriv c r) s'
  end.

(** [re.MatchString(s)] for the pattern [r$]: does [s] contain a match of
    [r] that ends where [s] ends? *)
Fixpoint matchAtEnd (r : regexp) (s : string) : bool :=
  fullMatch r s
  || match s with
     | EmptyString => false
     | String _ s' => matchAtEnd r s'
     end.

(** Is [s] made of digits only? *)
Fixpoint digits (s : string) : bool :=
  match s with
  | EmptyString => true
  | String c s' => isDigit c && digits s'
  end.

End Regexp.

Module Fs.

(** [tmpFileNameRe = regexp.MustCompile(`\.tmp\.\d+$`)], without its [$]. *)
Definition tmpFileNameRe : Regexp.regexp :=
  Regexp.Cat (Regexp.Chr ".")
    (Regexp.Cat (Regexp.Chr "t")
       (Regexp.Cat (Regexp.Chr "m")
          (Regexp.Cat (Regexp.Chr "p")
             (Regexp.Cat (Regexp.Chr ".") (Regexp.Plus Regexp.Digit))))).

(** [IsTemporaryFileName(fn)]. *)
Definition IsTemporaryFileName (fn : string) : bool :=
  Regexp.matchAtEnd tmpFileNameRe fn.

(** [fmt.Sprintf("%d", n)] for a [uint64] [n]. *)
Definition decimal (n : Z) : string :=
  NilZero.string_of_uint (N.to_uint (Z.to_N n)).

(** [tmpPath := fmt.Sprintf("%s.tmp.%d", path, n)] of [WriteFileAtomically],
    where [n] is the new value of the counter [tmpFileNum]. *)
Definition tmpPath (path : string) (n : Z) : string :=
  path +:+ ".tmp." +:+ decimal n.

(** [strings.Contains(s, substr)]. *)
Fixpoint contains (s substr : string) : bool :=
  String.prefix substr s
  || match s with
     | EmptyString => false
     | String _ s' => contains s' substr
     end.

(** [isTemporaryNFSError(err)], given [err.Error()]. *)
Definition isTemporaryNFSError (errStr : string) : bool :=
  contains errStr "directory not empty"
  || contains errStr "device or resource busy".

(** [time.Duration]: nanoseconds. *)
Definition Millisecond : Z := 1000000.
Definition Second : Z := 1000 * Millisecond.
Definition Minute : Z := 60 * Second.

(** What [MustRemoveAll(path)] meets: what the call number [i] of
    [os.RemoveAll(path)] returns ([None] for no error, and the text of the
    error otherwise), and what [time.Since(startTime)] is after that
    call. *)
Record removal : Type := mkRemoval {
  removeAll : nat → option string;
  since : nat → Z
}.

(** How [MustRemoveAll] ends: the path is removed (it then syncs the parent
    directory and returns), or it panics with "cannot remove" or with
    "couldn't remove NFS directory". *)
Inductive removed : Type :=
| Removed
| PanicCannotRemove (errStr : string)
| PanicNFS.

(** [MustRemoveAll(path)] from the label [again] on, at the call number
    [i] and with the given [sleepTime]; [None] when [fuel] calls do not
    suffice. *)
Fixpoint removeAgain (env : removal) (fuel : nat) (i : nat) (sleepTime : Z)
  : option removed :=
  match fuel with
  | O => None
  | S fuel' =>
      match removeAll env i with
      | None => Some Removed
      | Some errStr =>
          if negb (isTemporaryNFSError errStr) then Some (PanicCannotRemove errStr)
          else if decide (since env i > Minute) then Some PanicNFS
          else
            let sleepTime := sleepTime * 2 in
            let sleepTime := if decide (sleepTime > Second) then Second else sleepTime in
            removeAgain env fuel' (S i) sleepTime
      end
  end.

(** [MustRemoveAll(path)]. *)
Definition MustRemoveAll (env : removal) (fuel : nat) : option removed :=
  removeAgain env fuel 0 (100 * Millisecond).

(** The [sleepTime] after the call number [i] has failed, and the time
    slept before that call. *)
Fixpoint sleepAt (i : nat) : Z :=
  match i with
  | O => 100 * Millisecond
  | S i' =>
      let sleepTime := sleepAt i' * 2 in
      if decide (sleepTime > Second) then Second else sleepTime
  end.

Fixpoint sleptBefore (i : nat) : Z :=
  match i with
  | O => 0
  | S i' => sleptBefore i' + sleepAt i'
  end.

End Fs.

(** ** Examples *)

Module Examples.

(** A directory [/d] with an empty file and a file of five bytes. *)
Definition tree : OS.state :=
  OS.mkState
    (<["/d/big" := OS.File [x01; x02; x03; x04; x05]]>
       (<["/d/empty" := OS.File []]> {[ "/d" := OS.Directory ]})) ∅.

(** Its parts, for a maximum part size of two bytes. *)
Definition listing : list Part :=
  [mkPart "empty" 0 0 0 0; mkPart "big" 5 0 2 2;
   mkPart "big" 5 2 2 2; mkPart "big" 5 4 1 1].

(** The world of a run that starts on this directory. *)
Definition world0 : Actions.world := Actions.mkWorld tree 0 [].

(** Two parts of the file of five bytes, as parts to delete. *)
Definition stale : list Part := [mkPart "big" 5 0 2 2; mkPart "big" 5 2 2 2].

(** A source with one file [a] of three bytes in two parts, listed out of
    order, and the restore of it into [/d]. *)
Definition srcParts : list Part := [mkPart "a" 3 1 2 2; mkPart "a" 3 0 1 1].

Definition src : Actions.RemoteFS :=
  Actions.mkRemoteFS (Ok srcParts)
                     (λ p, Ok [replicate (Z.to_nat (Size p)) x07]).

Definition dst : Fslocal.FS := Fslocal.mkFS "/d".

Definition restore : Actions.Restore := Actions.mkRestore 1 src dst.

(** A destination that does not exist yet. *)
Definition fresh : Actions.world := Actions.mkWorld (OS.mkState ∅ ∅) 0 [].

(** The groups of the download phase for these parts, and the pool after
    the first call of its only task. *)
Definition groups : list (string * list Part) :=
  map_to_list (Actions.groupByPath srcParts).

Definition afterOpen : Actions.task * Actions.world :=
  Actions.taskStep src dst (Actions.ToOpen (Common.SortParts srcParts)) world0.

(** A backup of two files, sliced for a maximum part size of two bytes, and
    the restore of it into [/d]. *)
Definition backup : list (string * Z) := [("big", 5); ("new", 3)].

Definition sliced : Actions.RemoteFS :=
  Actions.mkRemoteFS (Ok (Spec.canonical 2 backup))
                     (λ p, Ok [replicate (Z.to_nat (Size p)) x07]).

Definition restoreSliced : Actions.Restore := Actions.mkRestore 1 sliced dst.

(** A backup that holds what [/d] holds, with its parts listed from the
    last to the first, and the restore of it into [/d]. *)
Definition mirror : Actions.RemoteFS :=
  Actions.mkRemoteFS (Ok (reverse listing)) (λ p, Ok []).

Definition restoreMirror : Actions.Restore := Actions.mkRestore 1 mirror dst.

(** A removal that fails with a temporary error at every call, on a clock
    on which nothing but the sleeping takes time. *)
Definition busy : Fs.removal :=
  Fs.mkRemoval (λ _, Some "unlinkat /d: directory not empty") Fs.sleptBefore.

(** A reader of the bytes of a list: it fills the buffer as far as the
    bytes go, and reports the end when none is left. *)
Definition listReader : Fslocal.Reader (list byte) :=
  λ r len,
    let bs := take (Z.to_nat len) r in
    ((Z.of_nat (length bs),
      if decide (r = []) then Some Fslocal.EOF else None),
     bs, drop (Z.to_nat len) r).

End Examples.

(** * Properties *)

(** ** Machine integers *)

Lemma U64_wrap_small x : U64.inRange x → U64.wrap x = x.
Proof. unfold U64.inRange, U64.wrap. intros H. by apply Z.mod_small. Qed.

Lemma U64_wrap_inRange x : U64.inRange (U64.wrap x).
Proof. unfold U64.inRange, U64.wrap, U64.modulus. apply Z.mod_pos_bound. lia. Qed.

Lemma U64_add_small a b :
  0 <= a → 0 <= b → a + b < U64.modulus → U64.add a b = a + b.
Proof. intros. unfold U64.add. apply U64_wrap_small. unfold U64.inRange. lia. Qed.

Lemma U64_sub_small a b : 0 <= b <= a → a < U64.modulus → U64.sub a b = a - b.
Proof. intros. unfold U64.sub. apply U64_wrap_small. unfold U64.inRange. lia. Qed.

Lemma U64_add_inRange a b : U64.inRange (U64.add a b).
Proof. apply U64_wrap_inRange. Qed.

(** ** Validation *)

Section ValidateFacts.
Import Validate.

(** After the head of the loop body the state is at the path of the part. *)
Lemma enterFile_path st p st1 : enterFile st p = Ok st1 → path st1 = Path p.
Proof.
  unfold enterFile. intros H.
  destruct (decide (Path p ≠ path st)) as [Hne|Heq].
  - destruct (decide (offset st ≠ FileSize (pOld st))); [discriminate|].
    by inversion H.
  - inversion H; subst. destruct (decide (Path p = path st1)); [done|].
    by exfalso; apply Heq.
Qed.

(** The expected offset is kept inside a file and starts at 0 in a new one. *)
Lemma enterFile_offset st p st1 :
  enterFile st p = Ok st1 →
  offset st1 = if decide (Path p = path st) then offset st else 0.
Proof.
  unfold enterFile. intros H.
  destruct (decide (Path p ≠ path st)) as [Hne|Heq].
  - destruct (decide (offset st ≠ FileSize (pOld st))); [discriminate|].
    inversion H; subst; simpl. by rewrite decide_False.
  - inversion H; subst. rewrite decide_True; [done|].
    destruct (decide (Path p = path st1)); [done|]. by exfalso; apply Heq.
Qed.

(** The loop on a list that is cut in two. *)
Lemma loop_app st pre post :
  loop st (pre ++ post) = doR st' <- loop st pre; loop st' post.
Proof.
  revert st. induction pre as [|p pre IH]; intros st; simpl; [done|].
  destruct (step st p) as [st'|e]; simpl; [apply IH | done].
Qed.

End ValidateFacts.

(** C1, as the code has it: nothing follows the loop of the validation, so
    that the last file is not checked to be covered. The part set of one
    file [f] of 10 bytes with the single part of the bytes [0, 4) passes the
    validation, with the expected offset at 4, and [Run] goes on to
    download the part and returns without an error. *)
Theorem C1_last_file_closure_not_checked :
  let f := mkPart "f" 10 0 4 4 in
  let src := Actions.mkRemoteFS (Ok [f]) (λ _, Ok [[x01; x02; x03; x04]]) in
  let r := Actions.mkRestore 1 src (Fslocal.mkFS "/dst") in
  let w := Actions.mkWorld (OS.mkState ∅ ∅) 0 [] in
  Validate.loop Validate.init [f] = Ok (Validate.mkState 4 f "f")
  ∧ Validate.validate [f] = Ok tt
  ∧ (Actions.Run (2 ^ 30) r w).1 = Ok (Actions.mkReport 4 0 4)
  ∧ Actions.log (Actions.Run (2 ^ 30) r w).2
    = [Actions.EvOpen f; Actions.EvDownload f; Actions.EvClose f].
Proof. vm_compute. done. Qed.



(** ** The difference of part sets *)

Section DifferenceFacts.
Import Common.

Lemma elem_of_PartsDifference a b p :
  p ∈ PartsDifference a b ↔ p ∈ a ∧ key p ∉ key <$> b.
Proof. unfold PartsDifference. rewrite list_elem_of_filter. tauto. Qed.

Lemma elem_of_PartsIntersection a b p :
  p ∈ PartsIntersection a b ↔ p ∈ a ∧ key p ∈ key <$> b.
Proof. unfold PartsIntersection. rewrite list_elem_of_filter. tauto. Qed.

Lemma PartsDifference_Intersection_Permutation a b :
  PartsDifference a b ++ PartsIntersection a b ≡ₚ a.
Proof.
  unfold PartsDifference, PartsIntersection.
  induction a as [|p a IH]; [done|].
  rewrite !filter_cons.
  destruct (decide (key p ∈ key <$> b)) as [Hin|Hnin].
  - rewrite decide_False by (intros Hn; by apply Hn).
    rewrite <- Permutation_middle. by constructor.
  - rewrite decide_True by done. simpl. by constructor.
Qed.

(** The difference depends on the second set through its identities only. *)
Lemma PartsDifference_keys a b b' :
  (∀ k, k ∈ key <$> b ↔ k ∈ key <$> b') →
  PartsDifference a b = PartsDifference a b'.
Proof.
  intros Hk. unfold PartsDifference.
  induction a as [|p a IH]; [done|].
  rewrite !filter_cons, IH.
  destruct (decide (key p ∉ key <$> b)) as [H|H];
    destruct (decide (key p ∉ key <$> b')) as [H'|H']; try done;
    exfalso; rewrite Hk in H; contradiction.
Qed.

Lemma PartsDifference_nil_iff a b :
  PartsDifference a b = [] ↔ ∀ p, p ∈ a → key p ∈ key <$> b.
Proof.
  split.
  - intros Hnil p Hp. destruct (decide (key p ∈ key <$> b)) as [|Hn]; [done|].
    assert (p ∈ PartsDifference a b) as Hin
      by (by apply elem_of_PartsDifference).
    rewrite Hnil in Hin. by apply not_elem_of_nil in Hin.
  - intros Hall. destruct (PartsDifference a b) as [|p l] eqn:E; [done|].
    assert (p ∈ PartsDifference a b) as Hin by (rewrite E; left).
    apply elem_of_PartsDifference in Hin as [Hin Hn]. by apply Hall in Hin.
Qed.

End DifferenceFacts.

(** C3: [diff(A, B)] is the elements of [A] not present in [B], where a part
    is present in [B] when [B] has a part of the same path, file size,
    offset and size, whatever the actual sizes are. Every element of the
    difference is in [A] and not in [B]; the difference keeps the order of
    [A]; and together with the elements of [A] present in [B] it is [A]
    again, up to the order. *)
Theorem C3_parts_difference (a b : list Part) :
  (∀ p, p ∈ Common.PartsDifference a b
        ↔ p ∈ a ∧ ¬ ∃ q, q ∈ b ∧ Path q = Path p ∧ FileSize q = FileSize p
                          ∧ Offset q = Offset p ∧ Size q = Size p)
  ∧ (∀ p, p ∈ Common.PartsDifference a b → p ∈ a ∧ p ∉ b)
  ∧ (∀ b', Common.key <$> b' = Common.key <$> b →
           Common.PartsDifference a b' = Common.PartsDifference a b)
  ∧ Common.PartsDifference a b `sublist_of` a
  ∧ Common.PartsDifference a b ++ Common.PartsIntersection a b ≡ₚ a.
Proof.
  assert (Hkey : ∀ p, Common.key p ∈ Common.key <$> b
                      ↔ ∃ q, q ∈ b ∧ Path q = Path p ∧ FileSize q = FileSize p
                             ∧ Offset q = Offset p ∧ Size q = Size p).
  { intros p. rewrite list_elem_of_fmap. unfold Common.key. split.
    - intros (q & Heq & Hq). exists q. inversion Heq. by repeat split.
    - intros (q & Hq & H1 & H2 & H3 & H4). exists q.
      by rewrite H1, H2, H3, H4. }
  split; [|split; [|split; [|split]]].
  - intros p. rewrite elem_of_PartsDifference. by rewrite Hkey.
  - intros p Hp. apply elem_of_PartsDifference in Hp as [Hp Hn].
    split; [done|]. intros Hb. apply Hn. apply list_elem_of_fmap. by exists p.
  - intros b' Hb'. apply PartsDifference_keys. intros k. by rewrite Hb'.
  - apply sublist_filter.
  - apply PartsDifference_Intersection_Permutation.
Qed.

(** ** The counter of the downloaded bytes *)

Section StatWriterFacts.
Import Actions.
Context {W S : Type} `{!Writer W S}.

(** [sw.Write(p)] returns what the wrapped writer returns and adds the
    number of bytes it reports to the counter. *)
Lemma statWrite_eq (sw : statWriter W) (p : list byte) (s : S) (c : Z) :
  statWrite sw p (s, c)
  = let r := write (sw_w sw) p s in
    (r.1, (mkStatWriter r.2.1, (r.2.2, U64.add c (U64.wrap r.1.1)))).
Proof.
  unfold statWrite. simpl.
  by destruct (write (sw_w sw) p s) as [[n err] [w' s']].
Qed.

Lemma U64_add_wrap_wrap c x y :
  U64.add (U64.wrap (c + x)) (U64.wrap y) = U64.wrap (c + (x + y)).
Proof.
  unfold U64.add, U64.wrap.
  rewrite <- Zplus_mod. f_equal. lia.
Qed.

(** One round of [io.Copy]. *)
Lemma ioCopy_cons {W' S' : Type} `{!Writer W' S'} (w : W') (ch : list byte)
    (chunks : list (list byte)) (s : S') (written : Z) :
  ioCopy w (ch :: chunks) s written
  = let r := write w ch s in
    match r.1.2 with
    | Some e => ((written + r.1.1, Some e), r.2)
    | None =>
        if decide (r.1.1 ≠ Z.of_nat (length ch))
        then ((written + r.1.1, Some CauseShortWrite), r.2)
        else ioCopy r.2.1 chunks r.2.2 (written + r.1.1)
    end.
Proof. simpl. by destruct (write w ch s) as [[n [e|]] [w' s']]. Qed.

(** Copying through a [statWriter]: the counter moves by the number of
    bytes written, modulo [2^64]. *)
Lemma ioCopy_statWriter_counter (chunks : list (list byte)) :
  ∀ (sw : statWriter W) (s : S) (c0 d written0 : Z),
    (ioCopy sw chunks (s, U64.wrap (c0 + d)) written0).2.2.2
    = U64.wrap (c0 + (d + ((ioCopy sw chunks (s, U64.wrap (c0 + d)) written0).1.1
                           - written0))).
Proof.
  induction chunks as [|ch chunks IH]; intros sw s c0 d written0.
  - simpl. f_equal. lia.
  - rewrite ioCopy_cons.
    change (write sw ch (s, U64.wrap (c0 + d)))
      with (statWrite sw ch (s, U64.wrap (c0 + d))).
    rewrite statWrite_eq. simpl.
    destruct (write (sw_w sw) ch s) as [[n err] [w' s']]; simpl.
    rewrite U64_add_wrap_wrap.
    destruct err as [e|]; simpl.
    + f_equal. lia.
    + destruct (decide (n ≠ Z.of_nat (length ch))); simpl.
      * f_equal. lia.
      * rewrite (IH (mkStatWriter w') s' c0 (d + n) (written0 + n)).
        f_equal. lia.
Qed.

(** A copy without an error has written every byte. *)
Lemma ioCopy_written {W' S' : Type} `{!Writer W' S'} (chunks : list (list byte)) :
  ∀ (w : W') (s : S') (written0 : Z),
    let r := ioCopy w chunks s written0 in
    r.1.2 = None →
    r.1.1 = written0 + Z.of_nat (length (concat chunks)).
Proof.
  induction chunks as [|ch chunks IH]; intros w s written0; simpl.
  - intros _. lia.
  - destruct (write w ch s) as [[n err] [w' s']]; simpl.
    destruct err as [e|]; simpl; [done|].
    destruct (decide (n ≠ Z.of_nat (length ch))) as [|Hn]; simpl; [done|].
    intros Hok. specialize (IH w' s' (written0 + n) Hok). simpl in IH.
    rewrite IH, length_app. apply dec_stable in Hn. lia.
Qed.

End StatWriterFacts.

(** C9: a [Write] on the [statWriter] returns what the wrapped writer
    returns and adds the number of bytes that writer reports to the counter
    (in [uint64]); the counter is changed in no other way. So the counter
    does not decrease as long as it fits [uint64]; after a copy through the
    writer it has grown by the number of bytes written, and when no write
    failed that is the number of all bytes streamed. *)
Theorem C9_counter_counts_written_bytes
    {W S : Type} `{!Actions.Writer W S} (sw : Actions.statWriter W)
    (p : list byte) (chunks : list (list byte)) (s : S) (c : Z) :
  let under := Actions.write (Actions.sw_w sw) p s in
  let n := under.1.1 in
  let after := Actions.statWrite sw p (s, c) in
  let copied := Actions.ioCopy sw chunks (s, c) 0 in
  after.1 = under.1
  ∧ after.2.2.1 = under.2.2
  ∧ after.2.2.2 = U64.add c (U64.wrap n)
  ∧ (U64.inRange c → 0 <= n → c + n < U64.modulus →
       after.2.2.2 = c + n ∧ c <= after.2.2.2)
  ∧ (U64.inRange c → 0 <= copied.1.1 → c + copied.1.1 < U64.modulus →
       copied.2.2.2 = c + copied.1.1
       ∧ c <= copied.2.2.2
       ∧ (copied.1.2 = None →
            copied.2.2.2 = c + Z.of_nat (length (concat chunks)))).
Proof.
  intros under n after copied. unfold after. rewrite statWrite_eq. simpl.
  fold under. fold n.
  split; [done|]. split; [done|]. split; [done|]. split.
  - intros Hc Hn Hfit. unfold U64.inRange in Hc.
    rewrite (U64_wrap_small n) by (unfold U64.inRange; lia).
    rewrite U64_add_small by lia. lia.
  - intros Hc Hn Hfit.
    pose proof (ioCopy_statWriter_counter chunks sw s c 0 0) as Hcnt.
    rewrite Z.add_0_r in Hcnt.
    rewrite (U64_wrap_small c) in Hcnt by done. fold copied in Hcnt.
    rewrite Z.sub_0_r, Z.add_0_l in Hcnt.
    assert (Heq : copied.2.2.2 = c + copied.1.1).
    { rewrite Hcnt. apply U64_wrap_small. unfold U64.inRange in *. lia. }
    split; [done|]. split; [lia|].
    intros Hok. rewrite Heq.
    pose proof (ioCopy_written chunks sw (s, c) 0 Hok) as Hw.
    fold copied in Hw. lia.
Qed.

Lemma C9_counter_counts_written_bytes_witness :
  let o := OS.mkState {[ "/d/a" := OS.File [] ]} ∅ in
  let sw := Actions.mkStatWriter
              (Fslocal.mkWriteCloser (Filestream.mkWriter "/d/a" 0) "/d/a") in
  (Actions.statWrite sw [x01; x02] (o, 5)).2.2.2 = 7
  ∧ (Actions.ioCopy sw [[x01]; [x02; x03]] (o, 5) 0).2.2.2 = 8.
Proof.
  intros o sw.
  destruct (C9_counter_counts_written_bytes sw [x01; x02] [[x01]; [x02; x03]] o 5)
    as (_ & _ & _ & Hone & Hall).
  split.
  - apply Hone; vm_compute; repeat split; congruence.
  - apply Hall; vm_compute; repeat split; congruence.
Defined.

(** ** fslocal: deleting a file *)



(** ** Strings *)

Lemma substring_all (s : string) : String.substring 0 (String.length s) s = s.
Proof. induction s as [|c s IH]; simpl; [done|]. by rewrite IH. Qed.

Lemma prefix_append (a b : string) : String.prefix a (a +:+ b) = true.
Proof.
  induction a as [|c a IH]; simpl; [by destruct b|].
  by destruct (Ascii.ascii_dec c c).
Qed.

Lemma trimPrefix_append (a b : string) : Fslocal.trimPrefix a (a +:+ b) = b.
Proof.
  unfold Fslocal.trimPrefix. induction a as [|c a IH]; simpl.
  - rewrite Nat.sub_0_r. apply substring_all.
  - apply IH.
Qed.

Lemma prefix_trimPrefix (a b : string) :
  String.prefix a b = true → a +:+ Fslocal.trimPrefix a b = b.
Proof.
  unfold Fslocal.trimPrefix. revert b.
  induction a as [|c a IH]; intros b Hp; simpl.
  - rewrite Nat.sub_0_r. apply substring_all.
  - destruct b as [|c' b]; simpl in Hp; [done|].
    destruct (Ascii.ascii_dec c c') as [->|]; [|done].
    simpl. specialize (IH b Hp).
    unfold String.append in *; fold String.append in *. by f_equal.
Qed.

Lemma append_inj_l (a b b' : string) : a +:+ b = a +:+ b' → b = b'.
Proof. induction a as [|c a IH]; simpl; [done|]. intros H. apply IH. by inversion H. Qed.

(** ** fslocal: the enumeration of the parts *)

Lemma sizeOf_nonneg (o : OS.state) (name : string) : 0 <= OS.sizeOf o name.
Proof.
  unfold OS.sizeOf. destruct (OS.nodes o !! name) as [[data|]|]; simpl; lia.
Qed.

Lemma elem_of_filesBelow (o : OS.state) (dir file : string) :
  file ∈ Fscommon.filesBelow o dir
  ↔ String.prefix (dir +:+ "/") file = true
    ∧ OS.isFile <$> (OS.nodes o !! file) = Some true.
Proof.
  unfold Fscommon.filesBelow. rewrite list_elem_of_filter.
  split; [tauto|]. intros [Hp Hf]. split; [done|].
  destruct (OS.nodes o !! file) as [n|] eqn:Hn; [|done].
  apply list_elem_of_fmap. exists (file, n). split; [done|].
  by apply elem_of_map_to_list.
Qed.

Lemma NoDup_filesBelow (o : OS.state) (dir : string) :
  NoDup (Fscommon.filesBelow o dir).
Proof.
  unfold Fscommon.filesBelow. apply NoDup_filter, NoDup_fst_map_to_list.
Qed.

Lemma AppendFiles_ok (o : OS.state) (dir : string) (files : list string) :
  Fscommon.AppendFiles [] o dir = Ok files → files = Fscommon.filesBelow o dir.
Proof.
  unfold Fscommon.AppendFiles. case_bool_decide; [done|].
  intros Heq. by inversion Heq.
Qed.

Section ListPartsFacts.
Import Fslocal.
Variable M : Z.
Hypothesis HM : 0 < M < U64.modulus.

(** The slices before the last are cut inside the file, and the last one
    reaches its end. *)
Lemma sliceCount_bounds (L : Z) (k : nat) :
  0 < L →
  ((k < Spec.sliceCount M L)%nat → Z.of_nat k * M < L)
  ∧ L <= Z.of_nat (Spec.sliceCount M L) * M.
Proof.
  intros HL. unfold Spec.sliceCount.
  assert (Hq : 0 <= (L + M - 1) / M) by (apply Z.div_pos; lia).
  pose proof (Z.mul_div_le (L + M - 1) M ltac:(lia)) as Hle.
  pose proof (Z.mul_succ_div_gt (L + M - 1) M ltac:(lia)) as Hgt.
  rewrite Z2Nat.id by done.
  split; [intros Hk | nia].
  assert (Z.of_nat k + 1 <= (L + M - 1) / M) by lia. nia.
Qed.

Lemma sliceCount_pos (L : Z) : 0 < L → (0 < Spec.sliceCount M L)%nat.
Proof.
  intros HL. destruct (Spec.sliceCount M L) eqn:E; [|lia].
  pose proof (sliceCount_bounds L 0 HL) as [_ H]. rewrite E in H. simpl in H. lia.
Qed.

Lemma sliceCount_fuel (L : Z) : 0 < L → (Spec.sliceCount M L <= sliceFuel M L)%nat.
Proof.
  intros HL. unfold Spec.sliceCount, sliceFuel.
  assert ((L + M - 1) / M <= L / M + 1); [|lia].
  replace (L + M - 1) with ((L - 1) + 1 * M) by lia.
  rewrite Z.div_add by lia.
  assert ((L - 1) / M <= L / M); [|lia].
  apply Z.div_le_mono; lia.
Qed.

(** The loop of [ListParts] from the start of slice [k] appends the slices
    from [k] on. *)
Lemma sliceLoop_slices (path : string) (L : Z) :
  0 < L < U64.modulus →
  ∀ (m k fuel : nat) (acc : list Part),
    (k + m = Spec.sliceCount M L)%nat →
    (m <= fuel)%nat →
    sliceLoop M fuel path L (Z.min (Z.of_nat k * M) L) acc
    = Some (acc ++ (Spec.slice M path L <$> seq k m)).
Proof.
  intros HL. induction m as [|m IH]; intros k fuel acc Hk Hfuel.
  - pose proof (sliceCount_bounds L k ltac:(lia)) as [_ Hend].
    replace (Spec.sliceCount M L) with k in Hend by lia.
    rewrite Z.min_r by done. simpl. rewrite app_nil_r.
    destruct fuel; simpl; by rewrite decide_False by lia.
  - pose proof (sliceCount_bounds L k ltac:(lia)) as [Hlt _].
    specialize (Hlt ltac:(lia)).
    rewrite Z.min_l by lia.
    destruct fuel as [|fuel]; [lia|]. simpl.
    rewrite decide_True by done.
    rewrite U64_sub_small by lia.
    set (n := if decide (L - Z.of_nat k * M > M) then M else L - Z.of_nat k * M).
    assert (Hn : n = Z.min M (L - Z.of_nat k * M)).
    { unfold n. destruct (decide _); lia. }
    rewrite U64_add_small by lia.
    replace (Z.of_nat k * M + n) with (Z.min (Z.of_nat (S k) * M) L) by lia.
    rewrite (IH (S k) fuel) by lia.
    rewrite <- app_assoc. simpl. unfold Spec.slice at 2. simpl.
    by rewrite Hn.
Qed.

(** The loop on a whole file is the slicing of the spec. *)
Lemma sliceLoop_all (path : string) (L : Z) (acc : list Part) :
  0 < L < U64.modulus →
  sliceLoop M (sliceFuel M L) path L 0 acc = Some (acc ++ Spec.slices M path L).
Proof.
  intros HL.
  pose proof (sliceLoop_slices path L HL (Spec.sliceCount M L) 0
                (sliceFuel M L) acc eq_refl (sliceCount_fuel L ltac:(lia))) as H.
  change (Z.of_nat 0 * M) with 0 in H.
  rewrite Z.min_l in H by lia. rewrite H.
  unfold Spec.slices. by rewrite decide_False by lia.
Qed.

Lemma listFile_ok (o : OS.state) (dir file : string) (acc : list Part) :
  Spec.listable o dir file →
  listFile M o dir acc file = Ok (acc ++ Spec.partsOfFile M o dir file).
Proof.
  intros (Hpre & Hden & [n Hn] & Hsize).
  unfold listFile, Spec.partsOfFile. rewrite Hpre. simpl negb. cbv iota zeta.
  unfold OS.Stat. rewrite decide_False by done. rewrite Hn.
  assert (Hs : OS.sizeOf o file = OS.fi_size (OS.info n))
    by (unfold OS.sizeOf; by rewrite Hn).
  rewrite <- Hs.
  pose proof (sizeOf_nonneg o file) as Hnn.
  assert (Hlt : 2 ^ 63 < U64.modulus) by reflexivity.
  rewrite U64_wrap_small by (unfold U64.inRange; lia).
  destruct (decide (OS.sizeOf o file = 0)) as [H0|H0].
  - rewrite H0. unfold Spec.slices. by rewrite decide_True by done.
  - by rewrite sliceLoop_all by lia.
Qed.

Lemma listFiles_ok (o : OS.state) (dir : string) (files : list string) :
  ∀ acc,
    (∀ file, file ∈ files → Spec.listable o dir file) →
    listFiles M o dir acc files = Ok (acc ++ (files ≫= Spec.partsOfFile M o dir)).
Proof.
  induction files as [|file files IH]; intros acc Hall; simpl.
  - by rewrite app_nil_r.
  - rewrite listFile_ok by (apply Hall; left). simpl.
    rewrite IH by (intros f Hf; apply Hall; by right).
    by rewrite <- app_assoc.
Qed.

(** [ListParts] on a directory that exists: the parts of the files below
    it, file by file. *)
Lemma ListParts_ok (fs : FS) (o : OS.state) (fi : OS.FileInfo) (files : list string) :
  OS.Stat o (Dir fs) = Ok fi →
  Fscommon.AppendFiles [] o (Dir fs) = Ok files →
  (∀ file, file ∈ files → (file ∉ OS.denied o) ∧ OS.sizeOf o file < 2 ^ 63) →
  ListParts M fs o = Ok (files ≫= Spec.partsOfFile M o (Dir fs +:+ "/")).
Proof.
  intros Hstat Happ Hall. unfold ListParts. rewrite Hstat, Happ.
  rewrite listFiles_ok; [done|].
  intros file Hfile. apply AppendFiles_ok in Happ. subst files.
  pose proof Hfile as Hf. apply elem_of_filesBelow in Hf as [Hp Hn].
  destruct (Hall file Hfile) as [Hden Hsz].
  repeat split; try done.
  destruct (OS.nodes o !! file); [by eexists | done].
Qed.

(** The boundary cases of the slicing. *)
Lemma slices_exactly_max (path : string) :
  Spec.slices M path M = [mkPart path M 0 M M].
Proof.
  unfold Spec.slices. rewrite decide_False by lia.
  assert (Hc : Spec.sliceCount M M = 1%nat).
  { unfold Spec.sliceCount.
    replace (M + M - 1) with ((M - 1) + 1 * M) by lia.
    rewrite Z.div_add by lia. rewrite Z.div_small by lia. done. }
  rewrite Hc. simpl. unfold Spec.slice. cbv zeta.
  change (Z.of_nat 0 * M) with 0.
  by rewrite Z.sub_0_r, Z.min_id.
Qed.

Lemma slices_max_plus_one (path : string) :
  Spec.slices M path (M + 1)
  = [mkPart path (M + 1) 0 M M; mkPart path (M + 1) M 1 1].
Proof.
  unfold Spec.slices. rewrite decide_False by lia.
  assert (Hc : Spec.sliceCount M (M + 1) = 2%nat).
  { unfold Spec.sliceCount.
    replace (M + 1 + M - 1) with (0 + 2 * M) by lia.
    rewrite Z.div_add by lia. rewrite Z.div_small by lia. done. }
  rewrite Hc. simpl. unfold Spec.slice. cbv zeta.
  change (Z.of_nat 0 * M) with 0.
  replace (Z.of_nat 1 * M) with M by lia.
  rewrite Z.sub_0_r, Z.min_l by lia.
  by replace (Z.min M (M + 1 - M)) with 1 by lia.
Qed.

(** The slices of a file that is not empty: slice [k] starts at [k * M],
    the slices before the last have [M] bytes and the last one has the
    rest, which is not empty. *)
Lemma slices_lookup (path : string) (L : Z) (k : nat) (p : Part) :
  0 < L →
  Spec.slices M path L !! k = Some p →
  (k < Spec.sliceCount M L)%nat
  ∧ p = mkPart path L (Z.of_nat k * M) (Size p) (Size p)
  ∧ (if decide (S k = Spec.sliceCount M L)
     then Size p = L - Z.of_nat k * M ∧ 0 < Size p <= M
     else Size p = M).
Proof.
  intros HL. unfold Spec.slices. rewrite decide_False by lia.
  rewrite list_lookup_fmap. intros Hk.
  destruct (seq 0 (Spec.sliceCount M L) !! k) as [k'|] eqn:Hseq; [|done].
  apply lookup_seq in Hseq as [-> Hlt]. simpl in *.
  inversion Hk; subst p; clear Hk. simpl.
  split; [done|]. split; [done|].
  pose proof (sliceCount_bounds L k HL) as [Hin Hend].
  specialize (Hin Hlt).
  destruct (decide (S k = Spec.sliceCount M L)) as [Hlast|Hnl].
  - rewrite <- Hlast in Hend. lia.
  - pose proof (sliceCount_bounds L (S k) HL) as [Hin' _].
    specialize (Hin' ltac:(lia)). lia.
Qed.

Lemma slices_length (path : string) (L : Z) :
  0 < L → length (Spec.slices M path L) = Spec.sliceCount M L.
Proof.
  intros HL. unfold Spec.slices. rewrite decide_False by lia.
  by rewrite length_fmap, length_seq.
Qed.

End ListPartsFacts.

(** C4: [ListParts] returns no part and no error when the directory does
    not exist. For a directory that exists (the walk succeeds, and the files
    can be accessed and have sizes that fit [int64]) it returns, file by
    file, the slices of the spec with the path relative to the directory:
    one part [(path, 0, 0, 0)] for an empty file, and for a file of [L > 0]
    bytes the parts at the offsets [0, M, 2M, ...], each of [M] bytes but
    the last, which has the rest, all with [file_size = L] and
    [actual_size = size]. A file of [M] bytes has one part, and one of
    [M + 1] bytes has two, the second of size 1. *)
Theorem C4_ListParts (M : Z) (fs : Fslocal.FS) (o : OS.state) :
  0 < M < U64.modulus →
  (OS.Stat o (Fslocal.Dir fs) = Err OS.ENOENT → Fslocal.ListParts M fs o = Ok [])
  ∧ (∀ fi files,
       OS.Stat o (Fslocal.Dir fs) = Ok fi →
       Fscommon.AppendFiles [] o (Fslocal.Dir fs) = Ok files →
       (∀ file, file ∈ files → (file ∉ OS.denied o) ∧ OS.sizeOf o file < 2 ^ 63) →
       Fslocal.ListParts M fs o
       = Ok (files ≫= λ file,
               Spec.slices M (Fslocal.trimPrefix (Fslocal.Dir fs +:+ "/") file)
                           (OS.sizeOf o file))
       ∧ ∀ file, file ∈ files →
           (Fslocal.Dir fs +:+ "/")
             +:+ Fslocal.trimPrefix (Fslocal.Dir fs +:+ "/") file = file
           ∧ OS.isFile <$> (OS.nodes o !! file) = Some true)
  ∧ (∀ path, Spec.slices M path 0 = [mkPart path 0 0 0 0])
  ∧ (∀ path, Spec.slices M path M = [mkPart path M 0 M M])
  ∧ (∀ path, Spec.slices M path (M + 1)
             = [mkPart path (M + 1) 0 M M; mkPart path (M + 1) M 1 1])
  ∧ (∀ path L k p,
       0 < L →
       Spec.slices M path L !! k = Some p →
       Path p = path ∧ FileSize p = L ∧ Offset p = Z.of_nat k * M
       ∧ ActualSize p = Size p
       ∧ (if decide (S k = length (Spec.slices M path L))
          then Size p = L - Z.of_nat k * M ∧ 0 < Size p <= M
          else Size p = M)).
Proof.
  intros HM. split; [|split; [|split; [|split; [|split]]]].
  - intros Hstat. unfold Fslocal.ListParts. by rewrite Hstat.
  - intros fi files Hstat Happ Hall. split.
    + by apply (ListParts_ok M HM fs o fi).
    + intros file Hfile. apply AppendFiles_ok in Happ. subst files.
      apply elem_of_filesBelow in Hfile as [Hp Hf].
      split; [by apply prefix_trimPrefix | done].
  - intros path. unfold Spec.slices. by rewrite decide_True.
  - intros path. by apply slices_exactly_max.
  - intros path. by apply slices_max_plus_one.
  - intros path L k p HL Hk.
    rewrite (slices_length M path L HL).
    destruct (slices_lookup M HM path L k p HL Hk) as (_ & Hp & Hsz).
    rewrite Hp at 1 2 3 4. simpl. by repeat split.
Qed.

Lemma C4_ListParts_witness :
  let o := OS.mkState
             (<["/d/big" := OS.File [x01; x02; x03; x04; x05]]>
                (<["/d/empty" := OS.File []]> {[ "/d" := OS.Directory ]})) ∅ in
  Fslocal.ListParts 2 (Fslocal.mkFS "/none") o = Ok []
  ∧ Fslocal.ListParts 2 (Fslocal.mkFS "/d") o
    = Ok [mkPart "empty" 0 0 0 0; mkPart "big" 5 0 2 2;
          mkPart "big" 5 2 2 2; mkPart "big" 5 4 1 1].
Proof.
  intros o. split.
  - destruct (C4_ListParts 2 (Fslocal.mkFS "/none") o) as (Hnone & _);
      [by vm_compute|]. by apply Hnone.
  - destruct (C4_ListParts 2 (Fslocal.mkFS "/d") o) as (_ & Hdir & _);
      [by vm_compute|].
    destruct (Hdir (OS.mkInfo 4096 true) ["/d/empty"; "/d/big"]) as [Heq _].
    + reflexivity.
    + reflexivity.
    + intros file Hfile. split.
      * vm_compute. by intros ?.
      * apply list_elem_of_In in Hfile. simpl in Hfile.
        destruct Hfile as [<-|[<-|[]]]; reflexivity.
    + exact Heq.
Defined.

(** ** The listing of a directory is a tiling *)

Lemma totalSize_app (l1 l2 : list Part) :
  Spec.totalSize (l1 ++ l2) = Spec.totalSize l1 + Spec.totalSize l2.
Proof. induction l1 as [|p l1 IH]; simpl; [done|]. rewrite IH. lia. Qed.

Section TilingFacts.
Variable M : Z.
Hypothesis HM : 0 < M < U64.modulus.

(** Every slice, of an empty file or not: where it starts and ends. *)
Lemma slices_lookup_any (path : string) (L : Z) (k : nat) (p : Part) :
  0 <= L →
  Spec.slices M path L !! k = Some p →
  Path p = path ∧ FileSize p = L ∧ ActualSize p = Size p
  ∧ 0 <= Size p <= M
  ∧ Offset p = Z.of_nat k * M
  ∧ Offset p + Size p = Z.min (Z.of_nat (S k) * M) L
  ∧ (0 < Size p ∨ Spec.slices M path L = [mkPart path 0 0 0 0]).
Proof.
  intros HL Hk. destruct (decide (L = 0)) as [->|HL0].
  - unfold Spec.slices in *. rewrite decide_True in * by done.
    destruct k as [|k]; [|done]. inversion Hk; subst p; simpl.
    repeat split; try done; try lia. by right.
  - destruct (slices_lookup M HM path L k p ltac:(lia) Hk) as (Hlt & Hp & Hsz).
    pose proof (sliceCount_bounds M HM L k ltac:(lia)) as [Hin Hend].
    specialize (Hin Hlt).
    assert (Hpath : Path p = path) by (by rewrite Hp).
    assert (Hfs : FileSize p = L) by (by rewrite Hp).
    assert (Hoff : Offset p = Z.of_nat k * M) by (by rewrite Hp).
    assert (Has : ActualSize p = Size p) by (by rewrite Hp).
    clear Hp.
    destruct (decide (S k = Spec.sliceCount M L)) as [Hlast|Hnl].
    + rewrite <- Hlast in Hend.
      split; [done|]. split; [done|]. split; [done|].
      split; [lia|]. split; [done|]. split; [lia|]. left. lia.
    + pose proof (sliceCount_bounds M HM L (S k) ltac:(lia)) as [Hin' _].
      specialize (Hin' ltac:(lia)).
      split; [done|]. split; [done|]. split; [done|].
      split; [lia|]. split; [done|]. split; [lia|]. left. lia.
Qed.

Lemma slices_nonempty (path : string) (L : Z) : 0 <= L → Spec.slices M path L ≠ [].
Proof.
  intros HL. destruct (decide (L = 0)) as [->|HL0].
  - unfold Spec.slices. by rewrite decide_True.
  - intros Hnil. pose proof (slices_length M path L ltac:(lia)) as Hlen.
    rewrite Hnil in Hlen. simpl in Hlen.
    pose proof (sliceCount_pos M HM L ltac:(lia)). lia.
Qed.

(** The sizes of the first [k] slices add up to the start of slice [k]. *)
Lemma totalSize_take_slices (path : string) (L : Z) (k : nat) :
  0 <= L →
  (k <= length (Spec.slices M path L))%nat →
  Spec.totalSize (take k (Spec.slices M path L)) = Z.min (Z.of_nat k * M) L.
Proof.
  intros HL. induction k as [|k IH]; intros Hk.
  - simpl. lia.
  - destruct (lookup_lt_is_Some_2 (Spec.slices M path L) k ltac:(lia)) as [p Hp].
    rewrite (take_S_r _ _ _ Hp), totalSize_app, IH by lia. simpl.
    destruct (slices_lookup_any path L k p HL Hp) as (_ & _ & _ & Hsz & Hoff & Hend & _).
    lia.
Qed.

Lemma totalSize_slices (path : string) (L : Z) :
  0 <= L → Spec.totalSize (Spec.slices M path L) = L.
Proof.
  intros HL.
  pose proof (totalSize_take_slices path L (length (Spec.slices M path L)) HL
                ltac:(lia)) as H.
  rewrite firstn_all in H. rewrite H.
  destruct (decide (L = 0)) as [->|HL0]; [lia|].
  rewrite (slices_length M path L) by lia.
  pose proof (sliceCount_bounds M HM L 0 ltac:(lia)) as [_ Hend]. lia.
Qed.

(** The slices of a file obey the tiling invariants. *)
Lemma slices_tiled (path : string) (L : Z) :
  0 <= L → Spec.tiled M path L (Spec.slices M path L).
Proof.
  intros HL. split; [by apply slices_nonempty|].
  split; [by apply totalSize_slices|].
  intros k p Hk.
  destruct (slices_lookup_any path L k p HL Hk)
    as (Hpath & Hfs & Has & Hsz & Hoff & Hend & Hpos).
  repeat split; try done; try lia.
  rewrite totalSize_take_slices; [lia | done |].
  apply lookup_lt_Some in Hk. lia.
Qed.

End TilingFacts.

Lemma totalSize_nonneg (l : list Part) :
  (∀ p, p ∈ l → 0 <= Size p) → 0 <= Spec.totalSize l.
Proof.
  induction l as [|p l IH]; simpl; intros H; [lia|].
  pose proof (H p ltac:(left)).
  assert (0 <= Spec.totalSize l) by (apply IH; intros q Hq; apply H; by right).
  lia.
Qed.

Lemma filter_all {A} (P : A → Prop) `{!∀ x, Decision (P x)} (l : list A) :
  (∀ x, x ∈ l → P x) → filter P l = l.
Proof.
  induction l as [|x l IH]; intros Hall; [done|].
  rewrite filter_cons_True by (apply Hall; left).
  f_equal. apply IH. intros y Hy. apply Hall. by right.
Qed.

Lemma filter_none {A} (P : A → Prop) `{!∀ x, Decision (P x)} (l : list A) :
  (∀ x, x ∈ l → ¬ P x) → filter P l = [].
Proof.
  induction l as [|x l IH]; intros Hall; [done|].
  rewrite filter_cons_False by (apply Hall; left).
  apply IH. intros y Hy. apply Hall. by right.
Qed.

(** *** Tiled parts pass the validation *)

Section ValidateTiled.
Import Validate.
Variable M : Z.

Lemma tiled_sizes_nonneg (q : string) (L : Z) (ps : list Part) :
  Spec.tiled M q L ps → ∀ p, p ∈ ps → 0 <= Size p.
Proof.
  intros (_ & _ & Hall) p Hp. apply list_elem_of_lookup in Hp as [k Hk].
  destruct (Hall k p Hk) as (_ & _ & _ & Hsz & _). lia.
Qed.

(** Inside a file: from the end of the parts [pre], the walk passes the
    parts [rest] and ends at the size of the file. *)
Lemma loop_same_file (q : string) (L : Z) (p0 : Part) :
  L < U64.modulus →
  ∀ rest pre,
    Spec.tiled M q L (pre ++ rest) →
    loop (mkState (Spec.totalSize pre) p0 q) rest = Ok (mkState L p0 q).
Proof.
  intros HL. induction rest as [|p rest IH]; intros pre Ht.
  - rewrite app_nil_r in Ht. destruct Ht as (_ & <- & _). done.
  - pose proof Ht as (_ & Htotal & Hall).
    pose proof (tiled_sizes_nonneg _ _ _ Ht) as Hnn.
    destruct (Hall (length pre) p (list_lookup_middle _ _ _ _ eq_refl))
      as (Hpath & _ & Hoff & Hsz & Has & _).
    rewrite take_app_length in Hoff.
    assert (Hpre : 0 <= Spec.totalSize pre).
    { apply totalSize_nonneg. intros x Hx. apply Hnn.
      apply elem_of_app. by left. }
    assert (Hrest : 0 <= Spec.totalSize rest).
    { apply totalSize_nonneg. intros x Hx. apply Hnn.
      apply elem_of_app. right. by right. }
    rewrite totalSize_app in Htotal. simpl in Htotal.
    simpl. unfold step, enterFile. simpl.
    rewrite decide_False by (intros Hne; by apply Hne). simpl.
    unfold checkPart. simpl.
    rewrite decide_False by lia. rewrite decide_False by lia.
    rewrite decide_False by (intros Hne; by apply Hne). simpl.
    rewrite U64_add_small by lia.
    replace (Spec.totalSize pre + Size p) with (Spec.totalSize (pre ++ [p]))
      by (rewrite totalSize_app; simpl; lia).
    apply IH. by rewrite <- app_assoc.
Qed.

(** A whole file: from a state of another path whose file is closed, the
    walk passes the parts of the file and ends with the file closed. *)
Lemma loop_tiled (st : state) (q : string) (L : Z) (ps : list Part) :
  L < U64.modulus →
  Spec.tiled M q L ps →
  path st ≠ q →
  offset st = FileSize (pOld st) →
  ∃ p0, loop st ps = Ok (mkState L p0 q) ∧ FileSize p0 = L.
Proof.
  intros HL Ht Hpath Hclosed.
  pose proof Ht as (Hne & Htotal & Hall).
  destruct ps as [|p0 rest]; [done|]. exists p0.
  destruct (Hall 0%nat p0 eq_refl) as (Hp & Hfs & Hoff & Hsz & Has & _).
  simpl in Hoff. split; [|done].
  assert (Hrest : 0 <= Spec.totalSize rest).
  { apply totalSize_nonneg. intros x Hx.
    apply (tiled_sizes_nonneg _ _ _ Ht). by right. }
  simpl in Htotal.
  simpl. unfold step, enterFile.
  rewrite decide_True by (intros Heq; apply Hpath; congruence).
  rewrite decide_False by (intros Hn; by apply Hn). simpl.
  unfold checkPart. simpl.
  rewrite decide_False by lia. rewrite decide_False by lia.
  rewrite decide_False by (intros Hn; by apply Hn). simpl.
  rewrite U64_add_small by lia. rewrite Hp.
  replace (0 + Size p0) with (Spec.totalSize [p0]) by (simpl; lia).
  by apply (loop_same_file q L p0 HL rest [p0]).
Qed.

End ValidateTiled.

(** *** The listing, file by file *)

Lemma filter_unique {A} `{!EqDecision A} (P : A → Prop) `{!∀ x, Decision (P x)}
    (l : list A) (x : A) :
  NoDup l → x ∈ l → (∀ y, y ∈ l → P y ↔ y = x) → filter P l = [x].
Proof.
  induction l as [|y l IH]; intros Hnd Hx HP.
  - by apply not_elem_of_nil in Hx.
  - apply NoDup_cons in Hnd as [Hy Hnd].
    destruct (decide (y = x)) as [->|Hne].
    + rewrite filter_cons_True by (apply HP; [left | done]).
      f_equal. apply filter_none. intros z Hz HPz.
      apply HP in HPz; [|by right]. by subst.
    + rewrite filter_cons_False by (intros HPy; apply HP in HPy; [done | left]).
      apply elem_of_cons in Hx as [Hx|Hx]; [by subst|].
      apply IH; [done | done |]. intros z Hz. apply HP. by right.
Qed.

Lemma trimPrefix_inj (dir f f' : string) :
  String.prefix dir f = true → String.prefix dir f' = true →
  Fslocal.trimPrefix dir f = Fslocal.trimPrefix dir f' → f = f'.
Proof.
  intros Hf Hf' Heq.
  rewrite <- (prefix_trimPrefix dir f Hf), <- (prefix_trimPrefix dir f' Hf').
  by rewrite Heq.
Qed.

Section ListingFacts.
Import Validate.
Variable M : Z.
Hypothesis HM : 0 < M < U64.modulus.
Variable o : OS.state.
Variable dir : string.

Lemma partsOfFile_tiled (file : string) :
  Spec.tiled M (Fslocal.trimPrefix dir file) (OS.sizeOf o file)
             (Spec.partsOfFile M o dir file).
Proof. apply slices_tiled; [done | apply sizeOf_nonneg]. Qed.

Lemma partsOfFile_Path (file : string) (p : Part) :
  p ∈ Spec.partsOfFile M o dir file → Path p = Fslocal.trimPrefix dir file.
Proof.
  intros Hp. apply list_elem_of_lookup in Hp as [k Hk].
  destruct (partsOfFile_tiled file) as (_ & _ & Hall).
  by destruct (Hall k p Hk) as (Hpath & _).
Qed.

(** The parts of one path in a listing are the parts of the files of that
    relative name. *)
Lemma filter_listing (q : string) (files : list string) :
  filter (λ p, Path p = q) (files ≫= Spec.partsOfFile M o dir)
  = filter (λ f, Fslocal.trimPrefix dir f = q) files ≫= Spec.partsOfFile M o dir.
Proof.
  induction files as [|f files IH]; [done|].
  rewrite bind_cons, filter_app, IH.
  destruct (decide (Fslocal.trimPrefix dir f = q)) as [Heq|Hne].
  - rewrite filter_cons_True by done. rewrite bind_cons. f_equal.
    apply filter_all. intros p Hp. by rewrite (partsOfFile_Path f p Hp).
  - rewrite filter_cons_False by done.
    rewrite filter_none; [done|]. intros p Hp.
    by rewrite (partsOfFile_Path f p Hp).
Qed.

Lemma filter_listing_file (files : list string) (file : string) :
  NoDup files →
  (∀ f, f ∈ files → String.prefix dir f = true) →
  file ∈ files →
  filter (λ p, Path p = Fslocal.trimPrefix dir file)
         (files ≫= Spec.partsOfFile M o dir)
  = Spec.partsOfFile M o dir file.
Proof.
  intros Hnd Hpre Hfile. rewrite filter_listing.
  rewrite (filter_unique _ files file Hnd Hfile).
  - simpl. apply app_nil_r.
  - intros f Hf. split; [|by intros ->].
    apply trimPrefix_inj; by apply Hpre.
Qed.

(** The walk of the validation passes a listing, whatever the order of the
    files: it ends with the last file closed. *)
Lemma loop_listing (files : list string) :
  ∀ st,
    NoDup files →
    (∀ f, f ∈ files → String.prefix dir f = true ∧ OS.sizeOf o f < 2 ^ 63) →
    (∀ f, f ∈ files → Fslocal.trimPrefix dir f ≠ path st) →
    offset st = FileSize (pOld st) →
    ∃ st', loop st (files ≫= Spec.partsOfFile M o dir) = Ok st'
           ∧ offset st' = FileSize (pOld st').
Proof.
  induction files as [|f files IH]; intros st Hnd Hall Hpath Hclosed.
  - exists st. done.
  - apply NoDup_cons in Hnd as [Hf Hnd].
    destruct (Hall f ltac:(left)) as [Hpre Hsize].
    rewrite bind_cons, loop_app.
    assert (Hlt : OS.sizeOf o f < U64.modulus).
    { eapply Z.lt_trans; [exact Hsize | reflexivity]. }
    destruct (loop_tiled M st _ _ _ Hlt (partsOfFile_tiled f)) as (p0 & -> & Hfs).
    + intros Heq. by apply (Hpath f ltac:(left)).
    + done.
    + simpl. apply IH.
      * done.
      * intros f' Hf'. apply Hall. by right.
      * intros f' Hf'. simpl. intros Heq.
        apply trimPrefix_inj in Heq.
        -- subst f'. done.
        -- apply Hall. by right.
        -- done.
      * done.
Qed.

End ListingFacts.

(** ** The order of the strings and of the parts *)

Lemma ascii_compare_refl (a : ascii) : Ascii.compare a a = Eq.
Proof. unfold Ascii.compare. apply N.compare_refl. Qed.

Lemma ascii_compare_Lt_trans (a b c : ascii) :
  Ascii.compare a b = Lt → Ascii.compare b c = Lt → Ascii.compare a c = Lt.
Proof.
  unfold Ascii.compare. rewrite !N.compare_lt_iff. apply N.lt_trans.
Qed.

Lemma string_compare_refl (s : string) : String.compare s s = Eq.
Proof.
  induction s as [|a s IH]; simpl; [done|]. by rewrite ascii_compare_refl.
Qed.

Lemma string_compare_Lt_trans (a b c : string) :
  String.compare a b = Lt → String.compare b c = Lt → String.compare a c = Lt.
Proof.
  revert b c. induction a as [|x a IH]; intros [|y b] [|z c]; simpl; try done.
  destruct (Ascii.compare x y) eqn:Exy; destruct (Ascii.compare y z) eqn:Eyz;
    try done; intros Hab Hbc.
  - apply Ascii.compare_eq_iff in Exy, Eyz. subst.
    rewrite ascii_compare_refl. by apply (IH b c).
  - apply Ascii.compare_eq_iff in Exy. subst. by rewrite Eyz.
  - apply Ascii.compare_eq_iff in Eyz. subst. by rewrite Exy.
  - by rewrite (ascii_compare_Lt_trans x y z).
Qed.

Lemma string_ltb_irrefl (s : string) : String.ltb s s = false.
Proof. unfold String.ltb. by rewrite string_compare_refl. Qed.

Lemma string_ltb_trans (a b c : string) :
  String.ltb a b = true → String.ltb b c = true → String.ltb a c = true.
Proof.
  unfold String.ltb.
  destruct (String.compare a b) eqn:Eab; try done.
  destruct (String.compare b c) eqn:Ebc; try done.
  by rewrite (string_compare_Lt_trans a b c).
Qed.

Lemma string_ltb_asym (a b : string) :
  String.ltb a b = true → String.ltb b a = false.
Proof.
  unfold String.ltb. rewrite (String.compare_antisym b a).
  by destruct (String.compare a b).
Qed.

Lemma string_trichotomy (a b : string) :
  String.ltb a b = true ∨ a = b ∨ String.ltb b a = true.
Proof.
  unfold String.ltb. rewrite (String.compare_antisym b a).
  destruct (String.compare a b) eqn:E; simpl; auto.
  right. left. by apply String.compare_eq_iff.
Qed.

Lemma string_leb_ltb (a b : string) :
  String.leb a b = true → a ≠ b → String.ltb a b = true.
Proof.
  unfold String.leb, String.ltb.
  destruct (String.compare a b) eqn:E; try done.
  apply String.compare_eq_iff in E. done.
Qed.

Lemma string_leb_trans (a b c : string) :
  String.leb a b = true → String.leb b c = true → String.leb a c = true.
Proof.
  unfold String.leb.
  destruct (String.compare a b) eqn:Eab; try done;
    destruct (String.compare b c) eqn:Ebc; try done; intros _ _.
  - apply String.compare_eq_iff in Eab, Ebc. subst. by rewrite string_compare_refl.
  - apply String.compare_eq_iff in Eab. subst. by rewrite Ebc.
  - apply String.compare_eq_iff in Ebc. subst. by rewrite Eab.
  - by rewrite (string_compare_Lt_trans a b c).
Qed.

#[global] Instance partLe_trans : Transitive Common.partLe.
Proof.
  intros p q r [Hpq|[Epq Opq]] [Hqr|[Eqr Oqr]]; unfold Common.partLe.
  - left. by apply (string_ltb_trans _ (Path q)).
  - left. by rewrite <- Eqr.
  - left. by rewrite Epq.
  - right. split; [congruence | lia].
Qed.

#[global] Instance partLe_total : Total Common.partLe.
Proof.
  intros p q. unfold Common.partLe.
  destruct (string_trichotomy (Path p) (Path q)) as [H|[H|H]]; auto.
  destruct (Z.le_ge_cases (Offset p) (Offset q)); auto.
Qed.

Lemma partLe_antisym (p q : Part) :
  Common.partLe p q → Common.partLe q p → Path p = Path q ∧ Offset p = Offset q.
Proof.
  intros [Hpq|[Epq Opq]] [Hqp|[Eqp Oqp]].
  - apply string_ltb_asym in Hpq. congruence.
  - rewrite Eqp, string_ltb_irrefl in Hpq. done.
  - rewrite Epq, string_ltb_irrefl in Hqp. done.
  - split; [done | lia].
Qed.

Lemma SortParts_Permutation (parts : list Part) : Common.SortParts parts ≡ₚ parts.
Proof. apply merge_sort_Permutation. Qed.

Lemma SortParts_StronglySorted (parts : list Part) :
  StronglySorted Common.partLe (Common.SortParts parts).
Proof. apply StronglySorted_merge_sort; apply _. Qed.

#[global] Instance fileLe_trans dir : Transitive (Spec.fileLe dir).
Proof. intros a b c. unfold Spec.fileLe. apply string_leb_trans. Qed.

#[global] Instance fileLe_total dir : Total (Spec.fileLe dir).
Proof. intros a b. unfold Spec.fileLe. apply String.leb_total. Qed.

Lemma StronglySorted_lookup {A} (R : relation A) (l : list A) :
  (∀ i j x y, (i < j)%nat → l !! i = Some x → l !! j = Some y → R x y) →
  StronglySorted R l.
Proof.
  induction l as [|a l IH]; intros H; constructor.
  - apply IH. intros i j x y Hij Hi Hj. by apply (H (S i) (S j)); [lia| |].
  - apply Forall_forall. intros y Hy. apply list_elem_of_lookup in Hy as [j Hj].
    by apply (H 0%nat (S j)); [lia| |].
Qed.

(** *** The sorted listing *)

Section SortedListing.
Variable M : Z.
Hypothesis HM : 0 < M < U64.modulus.
Variable o : OS.state.
Variable dir : string.

Lemma partsOfFile_lookup (file : string) (k : nat) (p : Part) :
  Spec.partsOfFile M o dir file !! k = Some p →
  Path p = Fslocal.trimPrefix dir file ∧ Offset p = Z.of_nat k * M.
Proof.
  intros Hk.
  destruct (slices_lookup_any M HM _ _ k p (sizeOf_nonneg o file) Hk)
    as (Hpath & _ & _ & _ & Hoff & _).
  done.
Qed.

(** Two parts of a listing at the same path and offset are the same part. *)
Lemma listing_path_offset_inj (files : list string) (p p' : Part) :
  (∀ f, f ∈ files → String.prefix dir f = true) →
  p ∈ files ≫= Spec.partsOfFile M o dir →
  p' ∈ files ≫= Spec.partsOfFile M o dir →
  Path p = Path p' → Offset p = Offset p' → p = p'.
Proof.
  intros Hpre Hp Hp' Hpath Hoff.
  apply list_elem_of_bind in Hp as (f & Hp & Hf).
  apply list_elem_of_bind in Hp' as (f' & Hp' & Hf').
  apply list_elem_of_lookup in Hp as [k Hk].
  apply list_elem_of_lookup in Hp' as [k' Hk'].
  destruct (partsOfFile_lookup f k p Hk) as [Hq Ho].
  destruct (partsOfFile_lookup f' k' p' Hk') as [Hq' Ho'].
  assert (f = f').
  { apply (trimPrefix_inj dir); [by apply Hpre | by apply Hpre | congruence]. }
  subst f'.
  assert (k = k') by nia. subst k'. congruence.
Qed.

Lemma partsOfFile_sorted (file : string) :
  StronglySorted Common.partLe (Spec.partsOfFile M o dir file).
Proof.
  apply StronglySorted_lookup. intros i j p p' Hij Hi Hj.
  destruct (partsOfFile_lookup file i p Hi) as [Hq Ho].
  destruct (partsOfFile_lookup file j p' Hj) as [Hq' Ho'].
  right. split; [congruence | nia].
Qed.

(** The listing of files in the order of their names is sorted. *)
Lemma listing_sorted (files : list string) :
  NoDup files →
  (∀ f, f ∈ files → String.prefix dir f = true) →
  StronglySorted (Spec.fileLe dir) files →
  StronglySorted Common.partLe (files ≫= Spec.partsOfFile M o dir).
Proof.
  induction files as [|f files IH]; intros Hnd Hpre Hsorted; [constructor|].
  apply NoDup_cons in Hnd as [Hf Hnd].
  apply StronglySorted_inv in Hsorted as [Hsorted Hhd].
  rewrite bind_cons. apply StronglySorted_app_2.
  - intros p p' Hp Hp'.
    apply list_elem_of_bind in Hp' as (f' & Hp' & Hf').
    rewrite Forall_forall in Hhd. specialize (Hhd f' Hf').
    left. rewrite (partsOfFile_Path M HM o dir f p Hp).
    rewrite (partsOfFile_Path M HM o dir f' p' Hp').
    apply string_leb_ltb; [exact Hhd|].
    intros Heq. apply trimPrefix_inj in Heq.
    + by subst f'.
    + apply Hpre. by left.
    + apply Hpre. by right.
  - apply partsOfFile_sorted.
  - apply IH; [done | | done]. intros f' Hf'. apply Hpre. by right.
Qed.

(** Sorting a listing yields the listing of the files in the order of
    their names. *)
Lemma SortParts_listing (files : list string) :
  NoDup files →
  (∀ f, f ∈ files → String.prefix dir f = true) →
  Common.SortParts (files ≫= Spec.partsOfFile M o dir)
  = merge_sort (Spec.fileLe dir) files ≫= Spec.partsOfFile M o dir.
Proof.
  intros Hnd Hpre.
  pose proof (merge_sort_Permutation (Spec.fileLe dir) files) as Hperm.
  apply (StronglySorted_unique_strong Common.partLe).
  - intros p p' Hp Hp' Hle Hle'.
    destruct (partLe_antisym p p' Hle Hle') as [Hpath Hoff].
    apply (listing_path_offset_inj files); try done.
    + by rewrite <- (SortParts_Permutation _).
    + by rewrite <- Hperm.
  - apply SortParts_StronglySorted.
  - apply listing_sorted.
    + by rewrite Hperm.
    + intros f Hf. apply Hpre. by rewrite <- Hperm.
    + apply StronglySorted_merge_sort; apply _.
  - rewrite SortParts_Permutation. by rewrite Hperm.
Qed.

End SortedListing.

(** *** What a successful enumeration tells *)

Section ListPartsInv.
Variable M : Z.
Hypothesis HM : 0 < M < U64.modulus.

Lemma listFile_Ok_inv (o : OS.state) (dir file : string) (acc parts : list Part) :
  Fslocal.listFile M o dir acc file = Ok parts → file ∉ OS.denied o.
Proof.
  unfold Fslocal.listFile. destruct (negb (String.prefix dir file)); [done|].
  unfold OS.Stat. destruct (decide (file ∈ OS.denied o)); done.
Qed.

Lemma listFiles_Ok_inv (o : OS.state) (dir : string) (files : list string) :
  ∀ acc parts,
    Fslocal.listFiles M o dir acc files = Ok parts →
    ∀ file, file ∈ files → file ∉ OS.denied o.
Proof.
  induction files as [|f files IH]; intros acc parts Hok file Hfile.
  - by apply not_elem_of_nil in Hfile.
  - simpl in Hok.
    destruct (Fslocal.listFile M o dir acc f) as [acc'|e] eqn:Hf; [|done].
    simpl in Hok. apply elem_of_cons in Hfile as [->|Hfile].
    + by apply (listFile_Ok_inv o dir f acc acc').
    + by apply (IH acc' parts).
Qed.

(** A successful [ListParts] either found no directory, or returns the
    parts of the files below the directory, all of which can be accessed. *)
Lemma ListParts_Ok_inv (fs : Fslocal.FS) (o : OS.state) (parts : list Part) :
  (∀ file, file ∈ Fscommon.filesBelow o (Fslocal.Dir fs) →
           OS.sizeOf o file < 2 ^ 63) →
  Fslocal.ListParts M fs o = Ok parts →
  (OS.Stat o (Fslocal.Dir fs) = Err OS.ENOENT ∧ parts = [])
  ∨ (is_Some (OS.nodes o !! Fslocal.Dir fs)
     ∧ (∀ file, file ∈ Fscommon.filesBelow o (Fslocal.Dir fs) →
                file ∉ OS.denied o)
     ∧ parts = Fscommon.filesBelow o (Fslocal.Dir fs)
                 ≫= Spec.partsOfFile M o (Fslocal.Dir fs +:+ "/")).
Proof.
  intros Hsize Hok. pose proof Hok as Hok'. unfold Fslocal.ListParts in Hok.
  destruct (OS.Stat o (Fslocal.Dir fs)) as [fi|e] eqn:Hstat.
  - right.
    destruct (Fscommon.AppendFiles [] o (Fslocal.Dir fs)) as [files|e] eqn:Happ;
      [|done].
    pose proof (AppendFiles_ok _ _ _ Happ) as ->.
    assert (Hden : ∀ file, file ∈ Fscommon.filesBelow o (Fslocal.Dir fs) →
                           file ∉ OS.denied o)
      by (by eapply listFiles_Ok_inv).
    split; [|split; [done|]].
    + unfold OS.Stat in Hstat.
      destruct (decide (Fslocal.Dir fs ∈ OS.denied o)); [done|].
      destruct (OS.nodes o !! Fslocal.Dir fs); [by eexists | done].
    + rewrite (ListParts_ok M HM fs o fi _ Hstat Happ) in Hok'.
      * by inversion Hok'.
      * intros file Hfile. split; [by apply Hden | by apply Hsize].
  - left. destruct e; simpl in Hok; try done. split; [done | by inversion Hok].
Qed.

End ListPartsInv.

Lemma totalSize_take_mono (l : list Part) :
  (∀ p, p ∈ l → 0 <= Size p) →
  ∀ i j, (i <= j)%nat → Spec.totalSize (take i l) <= Spec.totalSize (take j l).
Proof.
  induction l as [|p l IH]; intros Hnn i j Hij.
  - by rewrite !take_nil.
  - destruct i as [|i]; simpl.
    + apply totalSize_nonneg. intros x Hx. apply Hnn.
      by apply (subseteq_take j (p :: l)).
    + destruct j as [|j]; [lia|]. simpl.
      assert (Spec.totalSize (take i l) <= Spec.totalSize (take j l)); [|lia].
      apply IH; [|lia]. intros x Hx. apply Hnn. by right.
Qed.

(** In a tiling the offsets increase strictly. *)
Lemma tiled_offsets_increase (M : Z) (q : string) (L : Z) (ps : list Part)
    (i j : nat) (p p' : Part) :
  Spec.tiled M q L ps →
  (i < j)%nat → ps !! i = Some p → ps !! j = Some p' → Offset p < Offset p'.
Proof.
  intros Ht Hij Hi Hj. pose proof Ht as (_ & _ & Hall).
  destruct (Hall i p Hi) as (_ & _ & Hoff & _ & _ & Hpos).
  destruct (Hall j p' Hj) as (_ & _ & Hoff' & _).
  destruct Hpos as [Hpos|Hone].
  - pose proof (totalSize_take_mono ps (tiled_sizes_nonneg M q L ps Ht) (S i) j
                  ltac:(lia)) as Hmono.
    rewrite (take_S_r _ _ _ Hi), totalSize_app in Hmono. simpl in Hmono. lia.
  - rewrite Hone in Hj. destruct j as [|[|j]]; try done. lia.
Qed.

Lemma string_app_nil_r (s : string) : s +:+ EmptyString = s.
Proof.
  induction s as [|c s IH]; [done|].
  change (String c (s +:+ EmptyString) = String c s). by rewrite IH.
Qed.

(** The validation passes the listing of files that have names. *)
Lemma validate_listing (M : Z) (o : OS.state) (dir : string) (files : list string) :
  0 < M < U64.modulus →
  NoDup files →
  (∀ f, f ∈ files → String.prefix dir f = true ∧ OS.sizeOf o f < 2 ^ 63) →
  dir ∉ files →
  Validate.validate (files ≫= Spec.partsOfFile M o dir) = Ok tt.
Proof.
  intros HM Hnd Hall Hdir. unfold Validate.validate.
  destruct (loop_listing M HM o dir files Validate.init Hnd Hall) as (st' & -> & _).
  - intros f Hf Heq. simpl in Heq.
    destruct (Hall f Hf) as [Hpre _].
    apply prefix_trimPrefix in Hpre. rewrite Heq, string_app_nil_r in Hpre.
    by subst f.
  - done.
  - done.
Qed.

(** C10: the parts [ListParts] returns are a tiling, path by path. For
    every part of the listing, the parts of its path are the parts of one
    regular file below the directory, in the order of the listing: their
    offsets start at 0 and each is the sum of the sizes of the parts before
    it, so that they increase strictly; the sizes add up to the length of
    the file, which is the [file_size] of each part; no part exceeds [M];
    and [actual_size = size]. The validation of the restore accepts the
    listing, as it is and after sorting. (The sizes of the files fit
    [int64], and no file has the empty name.) *)
Theorem C10_listing_is_tiling (M : Z) (fs : Fslocal.FS) (o : OS.state)
    (parts : list Part) :
  0 < M < U64.modulus →
  (∀ file, file ∈ Fscommon.filesBelow o (Fslocal.Dir fs) →
           OS.sizeOf o file < 2 ^ 63) →
  Fslocal.ListParts M fs o = Ok parts →
  let dir := Fslocal.Dir fs +:+ "/" in
  (∀ p, p ∈ parts →
     let ps := filter (λ x, Path x = Path p) parts in
     OS.isFile <$> (OS.nodes o !! (dir +:+ Path p)) = Some true
     ∧ Spec.tiled M (Path p) (OS.sizeOf o (dir +:+ Path p)) ps
     ∧ ∀ i j x y, (i < j)%nat → ps !! i = Some x → ps !! j = Some y →
                  Offset x < Offset y)
  ∧ (OS.nodes o !! dir = None →
     Validate.validate parts = Ok tt
     ∧ Validate.validate (Common.SortParts parts) = Ok tt).
Proof.
  intros HM Hsize Hok dir.
  destruct (ListParts_Ok_inv M HM fs o parts Hsize Hok)
    as [[_ ->]|(_ & Hden & ->)].
  { split; [|done]. intros p Hp. by apply not_elem_of_nil in Hp. }
  fold dir.
  set (files := Fscommon.filesBelow o (Fslocal.Dir fs)).
  assert (Hnd : NoDup files) by apply NoDup_filesBelow.
  assert (Hpre : ∀ f, f ∈ files → String.prefix dir f = true).
  { intros f Hf. by apply elem_of_filesBelow in Hf as [Hf _]. }
  split.
  - intros p Hp ps.
    apply list_elem_of_bind in Hp as (file & Hp & Hfile).
    pose proof (partsOfFile_Path M HM o dir file p Hp) as Hpath.
    assert (Hname : dir +:+ Path p = file).
    { rewrite Hpath. apply prefix_trimPrefix. by apply Hpre. }
    assert (Hps : ps = Spec.partsOfFile M o dir file).
    { unfold ps. rewrite Hpath. by apply filter_listing_file. }
    rewrite Hname, Hps, Hpath.
    pose proof (partsOfFile_tiled M HM o dir file) as Ht.
    split; [|split; [done|]].
    + by apply elem_of_filesBelow in Hfile as [_ Hfile].
    + intros i j x y. by apply tiled_offsets_increase with (1 := Ht).
  - intros Hdir.
    assert (Hnone : dir ∉ files).
    { intros Hin. apply elem_of_filesBelow in Hin as [_ Hin].
      by rewrite Hdir in Hin. }
    assert (Hall : ∀ f, f ∈ files →
                        String.prefix dir f = true ∧ OS.sizeOf o f < 2 ^ 63).
    { intros f Hf. split; [by apply Hpre | by apply Hsize]. }
    split; [by apply validate_listing|].
    rewrite (SortParts_listing M HM o dir files Hnd Hpre).
    pose proof (merge_sort_Permutation (Spec.fileLe dir) files) as Hperm.
    apply validate_listing.
    + done.
    + by rewrite Hperm.
    + intros f Hf. apply Hall. by rewrite <- Hperm.
    + by rewrite Hperm.
Qed.

Lemma C10_listing_is_tiling_witness :
  Spec.tiled 2 "big" 5 (filter (λ x, Path x = "big") Examples.listing)
  ∧ Validate.validate (Common.SortParts Examples.listing) = Ok tt.
Proof.
  assert (HM : 0 < 2 < U64.modulus) by (vm_compute; split; reflexivity).
  assert (Hin : mkPart "big" 5 0 2 2 ∈ Examples.listing).
  { apply list_elem_of_In. simpl. tauto. }
  assert (Hfiles : Fscommon.filesBelow Examples.tree "/d" = ["/d/empty"; "/d/big"])
    by (vm_compute; reflexivity).
  assert (Hsize : OS.sizeOf Examples.tree (("/d" +:+ "/") +:+ "big") = 5)
    by (vm_compute; reflexivity).
  assert (Hsizes : ∀ file, file ∈ Fscommon.filesBelow Examples.tree "/d" →
                           OS.sizeOf Examples.tree file < 2 ^ 63).
  { intros file Hfile. rewrite Hfiles in Hfile.
    apply list_elem_of_In in Hfile.
    destruct Hfile as [<-|[<-|[]]]; vm_compute; reflexivity. }
  assert (Hlist : Fslocal.ListParts 2 (Fslocal.mkFS "/d") Examples.tree
                  = Ok Examples.listing) by (vm_compute; reflexivity).
  destruct (C10_listing_is_tiling 2 (Fslocal.mkFS "/d") Examples.tree
              Examples.listing HM Hsizes Hlist) as [Htiled Hvalid].
  split.
  - destruct (Htiled _ Hin) as (_ & Ht & _).
    simpl Path in Ht. simpl Fslocal.Dir in Ht.
    rewrite Hsize in Ht. exact Ht.
  - apply Hvalid. vm_compute; reflexivity.
Defined.

(** ** The delete phase *)

Section DeleteFacts.
Import Actions.
Variable dst : Fslocal.FS.

Local Abbreviation full := (Spec.fullName dst).
Local Abbreviation deletable := (Spec.deletable dst).

Lemma full_inj (p q : string) : full p = full q → p = q.
Proof.
  unfold Spec.fullName. intros H.
  apply append_inj_l in H. by apply append_inj_l in H.
Qed.

Lemma DeletePath_ok (path : string) (o : OS.state) :
  deletable o path →
  Fslocal.DeletePath dst path o
  = Ok (OS.sizeOf o (full path),
        OS.mkState (delete (full path) (OS.nodes o)) (OS.denied o)).
Proof.
  intros (Hden & Hdir & Hsize).
  unfold Fslocal.DeletePath, Fslocal.path, OS.Open, OS.FStat, OS.Remove,
    OS.sizeOf, Spec.fullName in *.
  cbv zeta. simpl Path. rewrite !decide_False by done.
  destruct (OS.nodes o !! (Fslocal.Dir dst +:+ "/" +:+ path))
    as [[data|]|] eqn:Hn.
  - rewrite ?Hn. cbn [OS.info OS.fi_size] in *. rewrite U64_wrap_small; [done|].
    unfold U64.inRange, U64.modulus. split; [apply Nat2Z.is_nonneg|].
    eapply Z.lt_trans; [exact Hsize | reflexivity].
  - by contradict Hdir.
  - simpl. rewrite delete_id by done. by destruct o.
Qed.

Lemma deletePath_ok (path : string) (w : world) :
  deletable (os w) path →
  deletePath dst path w
  = (Ok (OS.sizeOf (os w) (full path)),
     mkWorld (OS.mkState (delete (full path) (OS.nodes (os w)))
                         (OS.denied (os w)))
             (bytesDownloaded w) (log w ++ [EvDelete path])).
Proof.
  intros Hd. unfold deletePath, iobind, emit. simpl.
  by rewrite DeletePath_ok.
Qed.

Lemma U64_add_wrap (a b : Z) : U64.add (U64.wrap a) b = U64.wrap (a + b).
Proof. unfold U64.add, U64.wrap. by rewrite Zplus_mod_idemp_l. Qed.

(** The nodes after the files of [paths] are removed one after the other. *)
Lemma lookup_foldl_delete (paths : list string) (m : gmap string OS.node)
    (name : string) :
  foldl (λ m path, delete (full path) m) m paths !! name
  = if decide (name ∈ full <$> paths) then None else m !! name.
Proof.
  revert m. induction paths as [|p paths IH]; intros m.
  - cbn [foldl fmap list_fmap].
    destruct (decide (name ∈ [])) as [Hin|_]; [|done].
    by apply not_elem_of_nil in Hin.
  - cbn [foldl]. rewrite IH, fmap_cons.
    destruct (decide (name ∈ full <$> paths)) as [Hin|Hnin].
    + rewrite decide_True; [done | by right].
    + destruct (decide (name = full p)) as [->|Hne].
      * rewrite lookup_delete_eq. rewrite decide_True; [done | left].
      * rewrite lookup_delete_ne by done.
        rewrite decide_False; [done|]. intros Hin.
        apply elem_of_cons in Hin as [?|?]; done.
Qed.

Lemma sizesOf_delete_other (o : OS.state) (p : string) (paths : list string) :
  p ∉ paths →
  Spec.sizesOf (OS.mkState (delete (full p) (OS.nodes o)) (OS.denied o))
               (full <$> paths)
  = Spec.sizesOf o (full <$> paths).
Proof.
  induction paths as [|q paths IH]; intros Hp; [done|].
  apply not_elem_of_cons in Hp as [Hne Hp].
  rewrite fmap_cons. cbn [Spec.sizesOf foldr]. fold (Spec.sizesOf o (full <$> paths)).
  fold (Spec.sizesOf (OS.mkState (delete (full p) (OS.nodes o)) (OS.denied o))
                     (full <$> paths)).
  rewrite IH by done. f_equal.
  unfold OS.sizeOf. cbn [OS.nodes].
  rewrite lookup_delete_ne; [done|]. intros Heq. by apply full_inj in Heq.
Qed.

(** The loop over the paths, whatever their order. *)
Lemma deletePaths_ok (paths : list string) :
  ∀ (acc : Z) (w : world),
    NoDup paths →
    (∀ path, path ∈ paths → deletable (os w) path) →
    deletePaths dst paths (U64.wrap acc) w
    = (Ok (U64.wrap (acc + Spec.sizesOf (os w) (full <$> paths))),
       mkWorld (OS.mkState
                  (foldl (λ m path, delete (full path) m) (OS.nodes (os w)) paths)
                  (OS.denied (os w)))
               (bytesDownloaded w) (log w ++ (EvDelete <$> paths))).
Proof.
  induction paths as [|p paths IH]; intros acc w Hnd Hall.
  - simpl. rewrite Z.add_0_r, app_nil_r. unfold ret. by destruct w as [[] ? ?].
  - apply NoDup_cons in Hnd as [Hp Hnd].
    cbn [deletePaths]. unfold iobind.
    rewrite deletePath_ok by (apply Hall; left).
    rewrite U64_add_wrap.
    rewrite IH; [|done|].
    + cbn [os bytesDownloaded log OS.nodes OS.denied].
      rewrite sizesOf_delete_other by done.
      rewrite fmap_cons. cbn [Spec.sizesOf foldr foldl fmap list_fmap].
      fold (Spec.sizesOf (os w) (full <$> paths)).
      rewrite <- app_assoc. cbn [app]. rewrite Z.add_assoc. done.
    + intros q Hq. destruct (Hall q ltac:(by right)) as (Hden & Hdir & Hsize).
      assert (Hne : full p ≠ full q).
      { intros Heq. apply full_inj in Heq. by subst. }
      unfold Spec.deletable, OS.sizeOf in *. cbn [os OS.nodes OS.denied].
      by rewrite lookup_delete_ne.
Qed.

Lemma sizesOf_Permutation (o : OS.state) (l l' : list string) :
  l ≡ₚ l' → Spec.sizesOf o l = Spec.sizesOf o l'.
Proof.
  induction 1; simpl; try lia.
Qed.

End DeleteFacts.

(** Pruning the empty directories keeps the regular files as they are. *)
Lemma RemoveEmptyDirs_files (o o' : OS.state) (dir name : string) (data : list byte) :
  Fscommon.RemoveEmptyDirs o dir = Ok o' →
  OS.nodes o' !! name = Some (OS.File data)
  ↔ OS.nodes o !! name = Some (OS.File data).
Proof.
  unfold Fscommon.RemoveEmptyDirs. intros H. inversion H; subst; clear H.
  cbn [OS.nodes]. rewrite map_lookup_filter_Some. split; [tauto|].
  intros Hn. split; [done|]. unfold Fscommon.prunable. simpl. intros [Hd _]. done.
Qed.

(** C5: the delete phase. The paths to delete are the distinct paths of the
    parts of the difference. Whatever the order in which the map yields
    them, [DeletePath] is called once for each of them and for nothing
    else, the whole file of each is removed, and [deleteSize] is the sum of
    the sizes these files had (in [uint64]). After the phase the regular
    files are those of before except the deleted ones: a file none of whose
    parts is in the difference is left as it was. (The names to delete are
    names of regular files, or of nothing, that the process may access.) *)
Theorem C5_delete_phase (dst : Fslocal.FS) (partsToDelete : list Part)
    (order : list string) (w : Actions.world) :
  order ≡ₚ elements (Actions.pathsToDelete partsToDelete) →
  (∀ path, path ∈ order → Spec.deletable dst (Actions.os w) path) →
  let full := Spec.fullName dst in
  let loop := Actions.deletePaths dst order 0 w in
  let phase := Actions.deletePhase dst partsToDelete w in
  NoDup order
  ∧ (∀ path, path ∈ order ↔ ∃ p, p ∈ partsToDelete ∧ Path p = path)
  ∧ loop.1 = Ok (U64.wrap (Spec.sizesOf (Actions.os w) (full <$> order)))
  ∧ Actions.log loop.2 = Actions.log w ++ (Actions.EvDelete <$> order)
  ∧ (∀ name, OS.nodes (Actions.os loop.2) !! name
             = if decide (name ∈ full <$> order) then None
               else OS.nodes (Actions.os w) !! name)
  ∧ phase.1 = loop.1
  ∧ (∀ name data,
       OS.nodes (Actions.os phase.2) !! name = Some (OS.File data)
       ↔ OS.nodes (Actions.os w) !! name = Some (OS.File data)
         ∧ name ∉ full <$> order)
  ∧ (∀ path data,
       (∀ p, p ∈ partsToDelete → Path p ≠ path) →
       OS.nodes (Actions.os w) !! full path = Some (OS.File data) →
       OS.nodes (Actions.os phase.2) !! full path = Some (OS.File data)).
Proof.
  intros Hperm Hall full loop phase.
  assert (Hnd : NoDup order) by (rewrite Hperm; apply NoDup_elements).
  assert (Hmem : ∀ path, path ∈ order ↔ ∃ p, p ∈ partsToDelete ∧ Path p = path).
  { intros path. rewrite Hperm, elem_of_elements. unfold Actions.pathsToDelete.
    rewrite elem_of_list_to_set, list_elem_of_fmap. naive_solver. }
  pose proof (deletePaths_ok dst order 0 w Hnd Hall) as Hloop.
  change (U64.wrap 0) with 0 in Hloop. rewrite Z.add_0_l in Hloop.
  fold loop in Hloop.
  assert (Hfiles : ∀ name data,
            OS.nodes (Actions.os phase.2) !! name = Some (OS.File data)
            ↔ OS.nodes (Actions.os w) !! name = Some (OS.File data)
              ∧ name ∉ full <$> order).
  { intros name data. unfold phase, Actions.deletePhase.
    destruct (decide (0 < length partsToDelete)%nat) as [Hlen|Hlen].
    - unfold Actions.iobind.
      pose proof (deletePaths_ok dst (elements (Actions.pathsToDelete partsToDelete))
                    0 w (NoDup_elements _)) as Hel.
      change (U64.wrap 0) with 0 in Hel. rewrite Hel; clear Hel.
      2: { intros path Hpath. apply Hall. by rewrite Hperm. }
      unfold Actions.removeEmptyDirs, Fslocal.RemoveEmptyDirs.
      cbn [Actions.os]. unfold Actions.ret.
      destruct (Fscommon.RemoveEmptyDirs _ _) as [o'|e] eqn:Hrm; [|done].
      cbn [snd Actions.os].
      rewrite (RemoveEmptyDirs_files _ o' _ name data Hrm). cbn [OS.nodes].
      rewrite lookup_foldl_delete. fold full.
      assert (Hiff : name ∈ full <$> elements (Actions.pathsToDelete partsToDelete)
                     ↔ name ∈ full <$> order) by (by rewrite Hperm).
      destruct (decide (name ∈ full <$> elements (Actions.pathsToDelete partsToDelete)));
        naive_solver.
    - assert (partsToDelete = []) as -> by (destruct partsToDelete; simpl in *; [done|lia]).
      assert (order = []) as ->.
      { apply Permutation_nil_r. by rewrite Hperm. }
      unfold Actions.ret. simpl. split; [|tauto].
      intros Hn. split; [done|]. apply not_elem_of_nil. }
  split; [done|]. split; [done|]. split; [by rewrite Hloop|].
  split; [by rewrite Hloop|]. split.
  { intros name. rewrite Hloop. cbn [snd Actions.os OS.nodes].
    apply lookup_foldl_delete. }
  split; [|split; [done|]].
  - rewrite Hloop. unfold phase, Actions.deletePhase.
    destruct (decide (0 < length partsToDelete)%nat) as [Hlen|Hlen].
    + unfold Actions.iobind.
      pose proof (deletePaths_ok dst (elements (Actions.pathsToDelete partsToDelete))
                    0 w (NoDup_elements _)) as Hel.
      change (U64.wrap 0) with 0 in Hel. rewrite Hel; clear Hel.
      2: { intros path Hpath. apply Hall. by rewrite Hperm. }
      unfold Actions.removeEmptyDirs, Fslocal.RemoveEmptyDirs, Fscommon.RemoveEmptyDirs.
      unfold Actions.ret. cbn [fst]. rewrite Z.add_0_l. do 2 f_equal.
      apply sizesOf_Permutation. by rewrite Hperm.
    + assert (partsToDelete = []) as -> by (destruct partsToDelete; simpl in *; [done|lia]).
      assert (order = []) as ->.
      { apply Permutation_nil_r. by rewrite Hperm. }
      done.
  - intros path data Hnot Hn. apply Hfiles. split; [done|].
    intros Hin. apply list_elem_of_fmap in Hin as (q & Heq & Hq).
    apply full_inj in Heq. subst q.
    apply Hmem in Hq as (p & Hp & Hpath). by apply (Hnot p).
Qed.

Lemma C5_delete_phase_witness :
  (Actions.deletePhase (Fslocal.mkFS "/d") Examples.stale Examples.world0).1 = Ok 5
  ∧ Actions.log (Actions.deletePaths (Fslocal.mkFS "/d") ["big"] 0 Examples.world0).2
    = [Actions.EvDelete "big"]
  ∧ OS.nodes (Actions.os (Actions.deletePhase (Fslocal.mkFS "/d") Examples.stale
                                              Examples.world0).2) !! "/d/empty"
    = Some (OS.File []).
Proof.
  assert (Hempty : OS.nodes (Actions.os Examples.world0)
                     !! Spec.fullName (Fslocal.mkFS "/d") "empty"
                   = Some (OS.File [])) by (vm_compute; reflexivity).
  assert (Hel : elements (Actions.pathsToDelete Examples.stale) = ["big"])
    by (vm_compute; reflexivity).
  destruct (C5_delete_phase (Fslocal.mkFS "/d") Examples.stale ["big"]
              Examples.world0)
    as (_ & _ & Hloop & Hlog & _ & Hphase & _ & Hkept).
  - rewrite Hel. reflexivity.
  - intros path Hpath. apply list_elem_of_singleton in Hpath. subst path.
    split; [|split].
    + vm_compute. intros H. discriminate H.
    + vm_compute. intros H. discriminate H.
    + vm_compute. reflexivity.
  - split; [|split].
    + rewrite Hphase, Hloop. vm_compute. reflexivity.
    + rewrite Hlog. reflexivity.
    + apply (Hkept "empty" []); [|exact Hempty].
      intros p Hp. apply list_elem_of_In in Hp. simpl in Hp.
      destruct Hp as [<-|[<-|[]]]; intros H; discriminate H.
Defined.

(** ** The download phase: the pool of workers *)

Section PoolFacts.
Import Actions.
Variable src : RemoteFS.
Variable dst : Fslocal.FS.

Lemma traceOf_app (a b : list Part) : traceOf (a ++ b) = traceOf a ++ traceOf b.
Proof. unfold traceOf. apply bind_app. Qed.

Lemma traceOf_cons (p : Part) (rest : list Part) :
  traceOf (p :: rest) = [EvOpen p; EvDownload p; EvClose p] ++ traceOf rest.
Proof. done. Qed.

Lemma openPart_log (p : Part) (w : world) :
  log (openPart dst p w).2 = log w ++ [EvOpen p].
Proof.
  unfold openPart, iobind, emit. simpl.
  by destruct (Fslocal.NewWriteCloser dst p (os w)) as [[wc o']|e].
Qed.

Lemma downloadPart_log (p : Part) (wc : Fslocal.writeCloser) (w : world) :
  log (downloadPart src p wc w).2 = log w ++ [EvDownload p].
Proof.
  unfold downloadPart, iobind, emit. simpl.
  destruct (DownloadPart src p (mkStatWriter wc) (os w, bytesDownloaded w))
    as [[e|] [sw' [o' n']]]; done.
Qed.

Lemma closePart_log (p : Part) (wc : Fslocal.writeCloser) (w : world) :
  log (closePart p wc w).2 = log w ++ [EvClose p].
Proof.
  unfold closePart, iobind, emit. simpl.
  by destruct (Fslocal.wcClose wc (os w)) as [o'|e].
Qed.

Lemma taskTrace_prefix (full : list Part) (t : task) (done : list event) :
  taskTrace full t done → done `prefix_of` traceOf full.
Proof.
  destruct t as [rest|p wc rest|p wc rest|]; simpl.
  - intros (pre & -> & ->). rewrite traceOf_app. by apply prefix_app_r.
  - intros (pre & -> & ->). rewrite traceOf_app, traceOf_cons.
    apply prefix_app. by exists ([EvDownload p; EvClose p] ++ traceOf rest).
  - intros (pre & -> & ->). rewrite traceOf_app, traceOf_cons.
    apply prefix_app. by exists ([EvClose p] ++ traceOf rest).
  - done.
Qed.

(** A call of a task adds events of the path of its group, and the task is
    then where its events say. *)
Lemma taskTrace_step (k : string) (full : list Part) (t t' : task)
    (done : list event) (w w' : world) :
  (∀ p, p ∈ full → Path p = k) →
  taskTrace full t done →
  taskStep src dst t w = (t', w') →
  ∃ evs, log w' = log w ++ evs
         ∧ (∀ e, e ∈ evs → eventPath e = k)
         ∧ taskTrace full t' (done ++ evs).
Proof.
  intros Hpath Ht Hstep.
  destruct t as [[|p rest]|p wc rest|p wc rest|]; simpl in Hstep, Ht.
  - inversion Hstep; subst. exists []. rewrite !app_nil_r.
    split; [done|]. split; [by intros e He; apply not_elem_of_nil in He|].
    simpl. destruct Ht as (pre & -> & ->). by rewrite app_nil_r.
  - destruct Ht as (pre & -> & ->).
    exists [EvOpen p]. pose proof (openPart_log p w) as Hlog.
    assert (Hk : Path p = k).
    { apply Hpath. apply elem_of_app. right. left. }
    destruct (openPart dst p w) as [[wc|e] w1]; inversion Hstep; subst;
      simpl in Hlog.
    + split; [done|]. split.
      * intros e He. apply list_elem_of_singleton in He. by subst.
      * simpl. by exists pre.
    + split; [done|]. split.
      * intros e' He. apply list_elem_of_singleton in He. by subst.
      * simpl. rewrite traceOf_app, traceOf_cons. apply prefix_app.
        by exists ([EvDownload p; EvClose p] ++ traceOf rest).
  - destruct Ht as (pre & -> & ->).
    exists [EvDownload p]. pose proof (downloadPart_log p wc w) as Hlog.
    assert (Hk : Path p = k).
    { apply Hpath. apply elem_of_app. right. left. }
    destruct (downloadPart src p wc w) as [[wc'|e] w1]; inversion Hstep; subst;
      simpl in Hlog.
    + split; [done|]. split.
      * intros e He. apply list_elem_of_singleton in He. by subst.
      * simpl. exists pre. by rewrite <- app_assoc.
    + split; [done|]. split.
      * intros e' He. apply list_elem_of_singleton in He. by subst.
      * simpl. rewrite traceOf_app, traceOf_cons, <- app_assoc.
        apply prefix_app. by exists ([EvClose p] ++ traceOf rest).
  - destruct Ht as (pre & -> & ->).
    exists [EvClose p]. pose proof (closePart_log p wc w) as Hlog.
    assert (Hk : Path p = k).
    { apply Hpath. apply elem_of_app. right. left. }
    destruct (closePart p wc w) as [[[]|e] w1]; inversion Hstep; subst;
      simpl in Hlog;
      (split; [done|]);
      (split; [intros e' He; apply list_elem_of_singleton in He; by subst|]);
      simpl.
    all: try (exists (pre ++ [p]); split; [by rewrite <- app_assoc|];
              rewrite traceOf_app, <- app_assoc;
              by rewrite traceOf_cons, app_nil_r).
    all: try (rewrite traceOf_app, traceOf_cons, <- app_assoc;
              apply prefix_app; by exists (traceOf rest)).
  - inversion Hstep; subst. exists []. rewrite !app_nil_r.
    split; [done|]. split; [by intros e He; apply not_elem_of_nil in He|done].
Qed.

Lemma filter_app_same (k : string) (l evs : list event) :
  (∀ e, e ∈ evs → eventPath e = k) →
  filter (λ e, eventPath e = k) (l ++ evs) = filter (λ e, eventPath e = k) l ++ evs.
Proof. intros H. rewrite filter_app. f_equal. by apply filter_all. Qed.

Lemma filter_app_other (k k' : string) (l evs : list event) :
  k ≠ k' →
  (∀ e, e ∈ evs → eventPath e = k) →
  filter (λ e, eventPath e = k') (l ++ evs) = filter (λ e, eventPath e = k') l.
Proof.
  intros Hne H. rewrite filter_app, (filter_none _ evs), app_nil_r; [done|].
  intros e He Heq. apply H in He. congruence.
Qed.

Section WithGroups.
Variable groups : list (string * list Part).
Hypothesis Hkeys : NoDup groups.*1.
Hypothesis Hpaths : ∀ k g p, (k, g) ∈ groups → p ∈ g → Path p = k.

Lemma groups_key_inj (i j : nat) (k : string) (g g' : list Part) :
  groups !! i = Some (k, g) → groups !! j = Some (k, g') → i = j.
Proof.
  intros Hi Hj. apply (NoDup_lookup _ i j k Hkeys); rewrite list_lookup_fmap.
  - by rewrite Hi.
  - by rewrite Hj.
Qed.

Lemma sorted_group_path (k : string) (g : list Part) (p : Part) :
  (k, g) ∈ groups → p ∈ Common.SortParts g → Path p = k.
Proof.
  intros Hg Hp. apply (Hpaths k g p Hg). by rewrite <- (SortParts_Permutation g).
Qed.

Lemma poolInv_init : poolInv groups [] (poolInit groups).
Proof.
  split; [by unfold poolInit; rewrite length_fmap|].
  intros i k g t Hg Ht. unfold poolInit in Ht.
  rewrite list_lookup_fmap, Hg in Ht. inversion Ht; subst. simpl.
  by exists [].
Qed.

(** A step of the pool keeps the invariant. *)
Lemma poolInv_step (l : list event) (ts ts' : list task) (w0 w w' : world) :
  poolInv groups l ts →
  log w = log w0 ++ l →
  poolStep src dst (ts, w) (ts', w') →
  ∃ l', log w' = log w0 ++ l' ∧ poolInv groups l' ts'.
Proof.
  intros [Hlen Hinv] Hlog Hstep.
  inversion Hstep as [i t t' ts0 w1 w1' Hi Hcall|i parts ts0 w1 Hi]; subst.
  - assert (Hgi : is_Some (groups !! i)).
    { apply lookup_lt_is_Some. rewrite <- Hlen. by eapply lookup_lt_Some. }
    destruct Hgi as [[k g] Hg].
    destruct (taskTrace_step k (Common.SortParts g) t t'
                (filter (λ e, eventPath e = k) l) w w') as (evs & Hlog' & Hevs & Ht').
    + intros p Hp. apply (sorted_group_path k g p); [|done].
      by eapply list_elem_of_lookup_2.
    + by apply (Hinv i k g t).
    + done.
    + exists (l ++ evs). split; [by rewrite Hlog', Hlog, app_assoc|].
      split; [by rewrite length_insert|].
      intros j k' g' tj Hg' Hj.
      destruct (decide (i = j)) as [<-|Hne].
      * rewrite Hg in Hg'. inversion Hg'; subst k' g'.
        rewrite list_lookup_insert_eq in Hj by (by eapply lookup_lt_Some).
        inversion Hj; subst tj. by rewrite filter_app_same.
      * rewrite list_lookup_insert_ne in Hj by done.
        rewrite (filter_app_other k k'); [by apply (Hinv j) | | done].
        intros ->. apply Hne. by apply (groups_key_inj i j k' g g').
  - exists l. split; [done|]. split; [by rewrite length_insert|].
    intros j k' g' tj Hg' Hj.
    destruct (decide (i = j)) as [<-|Hne].
    + rewrite list_lookup_insert_eq in Hj by (by eapply lookup_lt_Some).
      inversion Hj; subst tj. simpl.
      apply (taskTrace_prefix _ (ToOpen parts)). by apply (Hinv i k' g').
    + rewrite list_lookup_insert_ne in Hj by done. by apply (Hinv j).
Qed.

(** The invariant holds in every state the pool reaches. *)
Lemma poolInv_reachable (w0 w : world) (ts : list task) :
  rtc (poolStep src dst) (poolInit groups, w0) (ts, w) →
  ∃ l, log w = log w0 ++ l ∧ poolInv groups l ts.
Proof.
  intros Hrtc.
  apply (rtc_ind_r (R := poolStep src dst)
           (λ s, ∃ l, log s.2 = log w0 ++ l ∧ poolInv groups l s.1)
           (poolInit groups, w0)) with (z := (ts, w)); [| |exact Hrtc].
  - exists []. simpl. rewrite app_nil_r. split; [done | apply poolInv_init].
  - intros [ts1 w1] [ts2 w2] _ Hstep (l & Hlog & Hinv). simpl in *.
    by apply (poolInv_step l ts1 ts2 w0 w1 w2).
Qed.

End WithGroups.

End PoolFacts.

(** *** The groups of the parts to copy *)

Lemma groupByPath_lookup (parts : list Part) (k : string) :
  Actions.groupByPath parts !! k
  = if decide (filter (λ p, Path p = k) parts = []) then None
    else Some (filter (λ p, Path p = k) parts).
Proof.
  induction parts as [|p parts IH] using rev_ind.
  - by rewrite decide_True.
  - unfold Actions.groupByPath in *. rewrite foldl_snoc.
    set (m := foldl _ ∅ parts) in *.
    rewrite filter_app, lookup_insert.
    destruct (decide (Path p = k)) as [Hk|Hk].
    + rewrite filter_cons_True by done. subst k.
      rewrite (decide_False (P := _ ++ [p] = []))
        by (intros H; by apply app_nil in H as [_ ?]).
      rewrite IH.
      destruct (decide (filter (λ q, Path q = Path p) parts = [])) as [->|]; done.
    + rewrite filter_cons_False by done. rewrite filter_nil, app_nil_r. done.
Qed.

(** Every path of the parts to copy is the key of one group, which holds
    the parts of that path. *)
Lemma groupByPath_groups (parts : list Part) :
  let groups := map_to_list (Actions.groupByPath parts) in
  NoDup groups.*1
  ∧ (∀ k g, (k, g) ∈ groups ↔ g ≠ [] ∧ g = filter (λ p, Path p = k) parts)
  ∧ (∀ k g p, (k, g) ∈ groups → p ∈ g → Path p = k).
Proof.
  intros groups.
  assert (Hiff : ∀ k g, (k, g) ∈ groups
                        ↔ g ≠ [] ∧ g = filter (λ p, Path p = k) parts).
  { intros k g. unfold groups. rewrite elem_of_map_to_list, groupByPath_lookup.
    destruct (decide (filter (λ p, Path p = k) parts = [])) as [He|Hne].
    - split; [done|]. intros [Hg ->]. done.
    - split; [intros H; inversion H; by subst | intros [_ ->]; done]. }
  split; [apply NoDup_fst_map_to_list|]. split; [done|].
  intros k g p Hg Hp. apply Hiff in Hg as [_ ->].
  by apply list_elem_of_filter in Hp as [Hp _].
Qed.

(** Sorted parts of one path are in the order of their offsets. *)
Lemma sorted_offsets (k : string) (l : list Part) :
  (∀ p, p ∈ l → Path p = k) →
  StronglySorted Common.partLe l →
  StronglySorted (λ p q, Offset p <= Offset q) l.
Proof.
  intros Hk Hs. induction Hs as [|p l Hs IH Hhd]; constructor.
  - apply IH. intros q Hq. apply Hk. by right.
  - rewrite Forall_forall in *. intros q Hq.
    destruct (Hhd q Hq) as [Hlt|[_ Hle]]; [|done].
    rewrite (Hk p), (Hk q), string_ltb_irrefl in Hlt; [done | by right | left].
Qed.

(** *** Running the tasks one after the other is a run of the pool *)

Section SequentialRun.
Import Actions.
Variable src : RemoteFS.
Variable dst : Fslocal.FS.

Lemma task_run (rest : list Part) :
  ∀ (i : nat) (ts : list task) (w : world),
    ts !! i = Some (ToOpen rest) →
    rtc (poolStep src dst) (ts, w)
        (<[i := Stopped]> ts, (copyParts src dst rest w).2).
Proof.
  induction rest as [|p rest IH]; intros i ts w Hi.
  - apply rtc_once. by apply (PoolCall src dst i (ToOpen [])).
  - assert (Hlt : (i < length ts)%nat) by (by eapply lookup_lt_Some).
    cbn [copyParts]. unfold iobind, copyPart, iobind.
    destruct (openPart dst p w) as [[wc|e] w1] eqn:Hopen.
    2: { apply rtc_once. apply (PoolCall src dst i (ToOpen (p :: rest))); [done|].
         cbn [taskStep]. by rewrite Hopen. }
    eapply rtc_l.
    { apply (PoolCall src dst i (ToOpen (p :: rest))); [done|].
      cbn [taskStep]. rewrite Hopen. done. }
    destruct (downloadPart src p wc w1) as [[wc'|e] w2] eqn:Hdl.
    2: { apply rtc_once.
         rewrite <- (list_insert_insert_eq ts i Stopped (ToDownload p wc rest)).
         apply (PoolCall src dst i (ToDownload p wc rest)).
         - by apply list_lookup_insert_eq.
         - cbn [taskStep]. by rewrite Hdl. }
    eapply rtc_l.
    { apply (PoolCall src dst i (ToDownload p wc rest)).
      - by apply list_lookup_insert_eq.
      - cbn [taskStep]. rewrite Hdl. done. }
    rewrite list_insert_insert_eq.
    destruct (closePart p wc' w2) as [[[]|e] w3] eqn:Hcl.
    2: { apply rtc_once.
         rewrite <- (list_insert_insert_eq ts i Stopped (ToClose p wc' rest)).
         apply (PoolCall src dst i (ToClose p wc' rest)).
         - by apply list_lookup_insert_eq.
         - cbn [taskStep]. by rewrite Hcl. }
    eapply rtc_l.
    { apply (PoolCall src dst i (ToClose p wc' rest)).
      - by apply list_lookup_insert_eq.
      - cbn [taskStep]. rewrite Hcl. done. }
    rewrite list_insert_insert_eq.
    rewrite <- (list_insert_insert_eq ts i Stopped (ToOpen rest)).
    apply IH. by apply list_lookup_insert_eq.
Qed.

(** The tasks run one after the other, as [runParallelPerPath] is modelled
    for [Run], reach a state of the pool. *)
Lemma sequential_run (groups : list (string * list Part)) :
  ∀ (pre : list task) (w : world),
    ∃ ts, rtc (poolStep src dst) (pre ++ poolInit groups, w)
              (ts, (runParallelPerPath (copyGroup src dst) groups w).2).
Proof.
  induction groups as [|[k g] groups IH]; intros pre w.
  - exists (pre ++ poolInit []). done.
  - cbn [runParallelPerPath]. unfold iobind.
    assert (Hi : (pre ++ poolInit ((k, g) :: groups)) !! length pre
                 = Some (ToOpen (Common.SortParts g))).
    { by apply list_lookup_middle. }
    pose proof (task_run (Common.SortParts g) (length pre) _ w Hi) as Hrun.
    assert (Hins : <[length pre := Stopped]> (pre ++ poolInit ((k, g) :: groups))
                   = (pre ++ [Stopped]) ++ poolInit groups).
    { rewrite insert_app_r_alt by lia. rewrite Nat.sub_diag.
      unfold poolInit. rewrite fmap_cons. cbn [insert list_insert].
      by rewrite <- app_assoc. }
    rewrite Hins in Hrun. fold (copyGroup src dst g w) in Hrun.
    destruct (copyGroup src dst g w) as [[[]|e] w1] eqn:Hg; cbn [snd] in *.
    + destruct (IH (pre ++ [Stopped]) w1) as (ts & Hrest).
      exists ts. by etrans.
    + eexists. exact Hrun.
Qed.

End SequentialRun.



(** ** Running the restore twice *)

(** C7, as the code has it: a second run is not always empty. The source
    holds one file [a] of three bytes in the parts [[0, 1)] and [[1, 3)],
    which pass the validation. The first run into a fresh directory
    downloads both parts. The second run enumerates the file as the single
    part [[0, 3)], which the source does not have: it deletes the file and
    downloads both parts again, and reports 3 deleted and 3 downloaded
    bytes. *)
Lemma C7_second_run_not_empty :
  ¬ (∀ (r : Actions.Restore) (w : Actions.world) (report : Actions.Report),
       (Actions.Run (2 ^ 30) r w).1 = Ok report →
       ∃ report2,
         (Actions.Run (2 ^ 30) r (Actions.Run (2 ^ 30) r w).2).1 = Ok report2
         ∧ Actions.downloadSize report2 = 0
         ∧ Actions.deleteSize report2 = 0).
Proof.
  intros H.
  assert (H1 : (Actions.Run (2 ^ 30) Examples.restore Examples.fresh).1
               = Ok (Actions.mkReport 3 0 3)) by (vm_compute; reflexivity).
  assert (H2 : (Actions.Run (2 ^ 30) Examples.restore
                  (Actions.Run (2 ^ 30) Examples.restore Examples.fresh).2).1
               = Ok (Actions.mkReport 3 3 3)) by (vm_compute; reflexivity).
  destruct (H Examples.restore Examples.fresh _ H1) as (report2 & Hrun & Hd & _).
  rewrite H2 in Hrun. inversion Hrun; subst report2. discriminate Hd.
Qed.

Section RunFacts.
Import Actions.
Variable M : Z.

Lemma listDst_eq (dst : Fslocal.FS) (mk : Cause → RestoreError) (w : world)
    (parts : list Part) :
  Fslocal.ListParts M dst (os w) = Ok parts → listDst M dst mk w = (Ok parts, w).
Proof. intros H. unfold listDst. by rewrite H. Qed.

(** A run on a destination whose listing has the identities of the source
    parts deletes nothing, downloads nothing and changes nothing. *)
Lemma Run_nothing_to_do (r : Restore) (w : world) (srcParts dstParts : list Part) :
  rListParts (Src r) = Ok srcParts →
  Fslocal.ListParts M (Dst r) (os w) = Ok dstParts →
  Validate.validate (Common.SortParts srcParts) = Ok tt →
  (∀ p, p ∈ dstParts → Common.key p ∈ Common.key <$> srcParts) →
  (∀ p, p ∈ srcParts → Common.key p ∈ Common.key <$> dstParts) →
  Run M r w = (Ok (mkReport (getPartsSize srcParts) 0 0), w).
Proof.
  intros Hsrc Hdst Hvalid Hsub Hsup.
  assert (Hdel : Common.PartsDifference dstParts (Common.SortParts srcParts) = []).
  { apply PartsDifference_nil_iff. intros p Hp.
    rewrite (SortParts_Permutation srcParts). by apply Hsub. }
  assert (Hcopy : Common.PartsDifference (Common.SortParts srcParts) dstParts = []).
  { apply PartsDifference_nil_iff. intros p Hp. apply Hsup.
    by rewrite <- (SortParts_Permutation srcParts). }
  unfold Run. rewrite Hsrc. unfold iobind at 1. unfold lift at 1.
  unfold iobind at 1. rewrite (listDst_eq _ _ _ _ Hdst).
  unfold iobind at 1. unfold lift at 1. rewrite Hvalid.
  rewrite Hdel. unfold iobind at 1. unfold deletePhase. simpl decide.
  cbn [length]. rewrite decide_False by lia. unfold ret at 1.
  unfold iobind at 1. rewrite (listDst_eq _ _ _ _ Hdst).
  rewrite Hcopy. unfold iobind at 1. unfold downloadPhase.
  cbn [length]. rewrite decide_False by lia. unfold ret. done.
Qed.

End RunFacts.

(** ** The file system during the download *)

Lemma extends_refl (names : list string) (o : OS.state) : Spec.extends names o o.
Proof. split; [done|]. split; [done|]. intros name n _ Hn. by left. Qed.

Lemma extends_mono (names names' : list string) (o o' : OS.state) :
  names ⊆ names' → Spec.extends names o o' → Spec.extends names' o o'.
Proof.
  intros Hsub (Hden & Hkeep & Hnew). split; [done|]. split.
  - intros name n Hn. apply Hkeep. intros Hin. by apply Hn, Hsub.
  - intros name n Hn. apply Hnew. intros Hin. by apply Hn, Hsub.
Qed.

Lemma extends_trans (names : list string) (o1 o2 o3 : OS.state) :
  Spec.extends names o1 o2 → Spec.extends names o2 o3 → Spec.extends names o1 o3.
Proof.
  intros (Hden & Hkeep & Hnew) (Hden' & Hkeep' & Hnew').
  split; [congruence|]. split.
  - intros name n Hn H1. by apply Hkeep', Hkeep.
  - intros name n Hn H3.
    destruct (Hnew' name n Hn H3) as [H2|(H2 & Hd & Hnd)].
    + by apply Hnew.
    + destruct (OS.nodes o1 !! name) as [n1|] eqn:H1.
      * apply (Hkeep name n1 Hn) in H1. congruence.
      * right. split; [done|]. split; [done|]. by rewrite <- Hden.
Qed.

Lemma mkdir_extends (o o' : OS.state) (d : string) :
  OS.mkdir o d = Ok o' →
  Spec.extends [] o o' ∧ OS.isDir <$> (OS.nodes o' !! d) = Some true.
Proof.
  unfold OS.mkdir. destruct (OS.nodes o !! d) as [[data|]|] eqn:Hd.
  - done.
  - intros H. inversion H; subst. split; [apply extends_refl|]. by rewrite Hd.
  - destruct (decide (d ∈ OS.denied o)) as [|Hnd]; [done|].
    intros H. inversion H; subst. unfold Spec.extends. cbn [OS.nodes OS.denied].
    split; [|by rewrite lookup_insert_eq].
    split; [done|]. split.
    + intros name n _ Hn. rewrite lookup_insert_ne; [done|]. congruence.
    + intros name n _ Hn. destruct (decide (d = name)) as [->|Hne].
      * rewrite lookup_insert_eq in Hn. inversion Hn; subst. by right.
      * rewrite lookup_insert_ne in Hn by done. by left.
Qed.

Lemma extends_isDir (names : list string) (o o' : OS.state) (d : string) :
  Spec.extends [] o o' →
  OS.isDir <$> (OS.nodes o !! d) = Some true →
  OS.isDir <$> (OS.nodes o' !! d) = Some true.
Proof.
  intros (_ & Hkeep & _) Hd. destruct (OS.nodes o !! d) as [n|] eqn:Hn; [|done].
  rewrite (Hkeep d n); [done | apply not_elem_of_nil | done].
Qed.

Lemma mkdirs_extends (ds : list string) :
  ∀ (o o' : OS.state),
    OS.mkdirs o ds = Ok o' →
    Spec.extends [] o o'
    ∧ ∀ d, d ∈ ds → OS.isDir <$> (OS.nodes o' !! d) = Some true.
Proof.
  induction ds as [|d ds IH]; intros o o' H; simpl in H.
  - inversion H; subst. split; [apply extends_refl|].
    intros d Hd. by apply not_elem_of_nil in Hd.
  - destruct (OS.mkdir o d) as [o1|e] eqn:Hmk; [|done]. simpl in H.
    destruct (mkdir_extends o o1 d Hmk) as [Hext1 Hd1].
    destruct (IH o1 o' H) as [Hext2 Hds].
    split; [by eapply extends_trans|].
    intros d' Hd'. apply elem_of_cons in Hd' as [->|Hd'].
    + by apply (extends_isDir [] o1 o').
    + by apply Hds.
Qed.

Lemma string_app_assoc (a b c : string) : (a +:+ b) +:+ c = a +:+ (b +:+ c).
Proof.
  induction a as [|x a IH]; [done|].
  change (String x ((a +:+ b) +:+ c) = String x (a +:+ (b +:+ c))).
  by rewrite IH.
Qed.

Lemma hasSlash_app (a q : string) : OS.hasSlash (a +:+ "/" +:+ q) = true.
Proof.
  induction a as [|x a IH]; [done|].
  change (OS.hasSlash (String x (a +:+ "/" +:+ q)) = true).
  cbn [OS.hasSlash]. by destruct (Ascii.eqb x "/").
Qed.

Lemma dirname_app (a q : string) :
  OS.dirname (a +:+ "/" +:+ q)
  = if OS.hasSlash q then a +:+ "/" +:+ OS.dirname q else a.
Proof.
  induction a as [|x a IH].
  - change (OS.dirname (String "/" q) = if OS.hasSlash q
                                        then String "/" (OS.dirname q)
                                        else EmptyString).
    cbn [OS.dirname]. done.
  - change (OS.dirname (String x (a +:+ "/" +:+ q))
            = if OS.hasSlash q then String x (a +:+ "/" +:+ OS.dirname q)
              else String x a).
    cbn [OS.dirname]. rewrite hasSlash_app, IH. by destruct (OS.hasSlash q).
Qed.

Lemma slashPrefixes_app (a rest : string) :
  ∀ acc, acc +:+ a ∈ OS.slashPrefixes acc (a +:+ "/" +:+ rest).
Proof.
  induction a as [|x a IH]; intros acc.
  - rewrite string_app_nil_r.
    change (acc ∈ OS.slashPrefixes acc (String "/" rest)).
    cbn [OS.slashPrefixes]. rewrite Ascii.eqb_refl. left.
  - change (acc +:+ String x a
            ∈ OS.slashPrefixes acc (String x (a +:+ "/" +:+ rest))).
    cbn [OS.slashPrefixes]. apply elem_of_app. right.
    replace (acc +:+ String x a) with ((acc +:+ String x EmptyString) +:+ a).
    + apply IH.
    + by rewrite string_app_assoc.
Qed.

(** The directory of the destination is on the way to each of its files. *)
Lemma dir_in_chain (dir q : string) :
  dir ≠ EmptyString → dir ∈ OS.chain (OS.dirname (dir +:+ "/" +:+ q)).
Proof.
  intros Hdir. unfold OS.chain. apply list_elem_of_filter. split; [done|].
  rewrite dirname_app. destruct (OS.hasSlash q).
  - apply elem_of_app. left. apply (slashPrefixes_app dir _ EmptyString).
  - apply elem_of_app. right. left.
Qed.

Lemma length_writeAt (data : list byte) (pos : nat) (bs : list byte) :
  (pos <= length data)%nat →
  length (OS.writeAt data pos bs) = (length data `max` (pos + length bs))%nat.
Proof.
  intros Hpos. unfold OS.writeAt. destruct bs as [|b bs]; [simpl; lia|].
  rewrite !length_app, length_take, length_app, length_replicate, length_drop.
  simpl. lia.
Qed.

Section WriteFacts.
Import Actions.

(** A write through the [statWriter] of a file that exists. *)
Lemma statWrite_file (name path : string) (pos : Z) (bs data : list byte)
    (o : OS.state) (c : Z) :
  OS.nodes o !! name = Some (OS.File data) →
  statWrite (mkStatWriter (Fslocal.mkWriteCloser (Filestream.mkWriter name pos) path))
            bs (o, c)
  = ((Z.of_nat (length bs), None),
     (mkStatWriter (Fslocal.mkWriteCloser
                      (Filestream.mkWriter name (pos + Z.of_nat (length bs))) path),
      (OS.mkState (<[name := OS.File (OS.writeAt data (Z.to_nat pos) bs)]> (OS.nodes o))
                  (OS.denied o),
       U64.add c (U64.wrap (Z.of_nat (length bs)))))).
Proof.
  intros Hn. rewrite statWrite_eq.
  unfold write, writeCloser_Writer, Fslocal.wcWrite, Filestream.Write. simpl.
  by rewrite Hn.
Qed.

(** Copying to a file that exists, from a position inside it or at its
    end: nothing fails, and the file ends where the copy ends, or where it
    ended before. *)
Lemma ioCopy_file (name path : string) (chunks : list (list byte)) :
  ∀ (pos : Z) (data : list byte) (o : OS.state) (c written : Z),
    OS.nodes o !! name = Some (OS.File data) →
    0 <= pos <= Z.of_nat (length data) →
    ∃ data' sw' c',
      ioCopy (mkStatWriter (Fslocal.mkWriteCloser (Filestream.mkWriter name pos) path))
             chunks (o, c) written
      = ((written + Z.of_nat (length (concat chunks)), None),
         (sw', (OS.mkState (<[name := OS.File data']> (OS.nodes o)) (OS.denied o), c')))
      ∧ Z.of_nat (length data')
        = Z.max (Z.of_nat (length data)) (pos + Z.of_nat (length (concat chunks))).
Proof.
  induction chunks as [|ch chunks IH]; intros pos data o c written Hn Hpos.
  - exists data, (mkStatWriter (Fslocal.mkWriteCloser (Filestream.mkWriter name pos) path)), c.
    simpl. rewrite Z.add_0_r. split; [|lia].
    rewrite insert_id by done. by destruct o.
  - rewrite ioCopy_cons.
    change (write (mkStatWriter (Fslocal.mkWriteCloser (Filestream.mkWriter name pos) path))
                  ch (o, c))
      with (statWrite (mkStatWriter (Fslocal.mkWriteCloser (Filestream.mkWriter name pos) path))
                      ch (o, c)).
    rewrite (statWrite_file name path pos ch data o c Hn). cbn [fst snd].
    rewrite decide_False by (intros Hne; by apply Hne).
    set (data1 := OS.writeAt data (Z.to_nat pos) ch).
    set (o1 := OS.mkState (<[name := OS.File data1]> (OS.nodes o)) (OS.denied o)).
    assert (Hlen1 : length data1
                    = (length data `max` (Z.to_nat pos + length ch))%nat).
    { apply length_writeAt. lia. }
    destruct (IH (pos + Z.of_nat (length ch)) data1 o1
                 (U64.add c (U64.wrap (Z.of_nat (length ch))))
                 (written + Z.of_nat (length ch)))
      as (data' & sw' & c' & Heq & Hlen).
    + unfold o1. cbn [OS.nodes]. by rewrite lookup_insert_eq.
    + lia.
    + exists data', sw', c'. rewrite Heq. split.
      * unfold o1. cbn [OS.nodes OS.denied]. rewrite insert_insert_eq.
        simpl concat. rewrite length_app.
        replace (written + Z.of_nat (length ch) + Z.of_nat (length (concat chunks)))
          with (written + Z.of_nat (length ch + length (concat chunks))) by lia.
        reflexivity.
      * simpl concat. rewrite length_app. lia.
Qed.

End WriteFacts.

Lemma string_length_app (a b : string) :
  String.length (a +:+ b) = (String.length a + String.length b)%nat.
Proof.
  induction a as [|x a IH]; [done|].
  change (S (String.length (a +:+ b)) = S (String.length a + String.length b)).
  by rewrite IH.
Qed.

Lemma append_neq (a q : string) : a +:+ "/" +:+ q ≠ a.
Proof.
  intros H. apply (f_equal String.length) in H.
  rewrite !string_length_app in H. simpl in H. lia.
Qed.

Lemma prefix_length (a b : string) :
  String.prefix a b = true → (String.length a <= String.length b)%nat.
Proof.
  revert b. induction a as [|x a IH]; intros [|y b]; simpl; try lia; try done.
  destruct (ascii_dec x y); [|done]. intros H. apply IH in H. lia.
Qed.

Lemma prefix_slash_self (a : string) : String.prefix (a +:+ "/") a = false.
Proof.
  destruct (String.prefix (a +:+ "/") a) eqn:H; [|done].
  apply prefix_length in H. rewrite string_length_app in H. simpl in H. lia.
Qed.

Lemma fileSize_sizeOf (o : OS.state) (name : string) (data : list byte) :
  OS.nodes o !! name = Some (OS.File data) →
  Spec.fileSize o name = Z.of_nat (length data)
  ∧ OS.sizeOf o name = Z.of_nat (length data).
Proof. intros H. unfold Spec.fileSize, OS.sizeOf. by rewrite H. Qed.

Section CopyFacts.
Import Actions.
Variable src : RemoteFS.
Variable dst : Fslocal.FS.

Lemma mkdirAll_inv (o o' : OS.state) (filePath : string) :
  Fslocal.mkdirAll dst o filePath = Ok o' →
  Spec.extends [] o o'
  ∧ ∀ d, d ∈ OS.chain (OS.dirname filePath) →
         OS.isDir <$> (OS.nodes o' !! d) = Some true.
Proof.
  unfold Fslocal.mkdirAll, OS.MkdirAll.
  destruct (OS.mkdirs o (OS.chain (OS.dirname filePath))) as [o1|e] eqn:Hmk; [|done].
  intros H. inversion H; subst o'. by apply mkdirs_extends.
Qed.

(** A writer that could be opened: the file exists afterwards, with the
    bytes it had, the writer is at the offset of the part, and the
    directory of the destination exists. *)
Lemma NewWriteCloser_inv (p : Part) (o o2 : OS.state) (wc : Fslocal.writeCloser) :
  Fslocal.NewWriteCloser dst p o = Ok (wc, o2) →
  0 <= Offset p < 2 ^ 63 →
  wc = Fslocal.mkWriteCloser (Filestream.mkWriter (Fslocal.path dst p) (Offset p))
                             (Fslocal.path dst p)
  ∧ Spec.extends [Fslocal.path dst p] o o2
  ∧ (Fslocal.path dst p ∉ OS.denied o)
  ∧ (∃ data, OS.nodes o2 !! Fslocal.path dst p = Some (OS.File data)
             ∧ Z.of_nat (length data) = Spec.fileSize o (Fslocal.path dst p))
  ∧ (Fslocal.Dir dst ≠ EmptyString →
     OS.isDir <$> (OS.nodes o2 !! Fslocal.Dir dst) = Some true).
Proof.
  intros H Hoff. unfold Fslocal.NewWriteCloser in H. cbv zeta in H.
  set (name := Fslocal.path dst p) in *.
  destruct (Fslocal.mkdirAll dst o name) as [o1|e] eqn:Hmk; [|done].
  cbn [bind] in H.
  destruct (mkdirAll_inv o o1 name Hmk) as [Hext Hdirs].
  assert (Hdir1 : Fslocal.Dir dst ≠ EmptyString →
                  OS.isDir <$> (OS.nodes o1 !! Fslocal.Dir dst) = Some true).
  { intros Hne. apply Hdirs. unfold name, Fslocal.path. cbv zeta.
    by apply dir_in_chain. }
  assert (Hto : Filestream.toInt64 (Offset p) = Offset p).
  { unfold Filestream.toInt64. rewrite decide_True; [done|lia]. }
  rewrite Hto in H. unfold Filestream.OpenWriterAt in H.
  destruct Hext as (Hden & Hkeep & Hnew).
  destruct (decide (name ∈ OS.denied o1)) as [|Hnd]; [done|].
  destruct (decide (Offset p < 0)) as [|_]; [done|].
  destruct (OS.nodes o1 !! name) as [[data|]|] eqn:Hn1.
  - inversion H; subst wc o2. split; [done|]. split.
    { apply (extends_mono []); [apply list_subseteq_nil|]. done. }
    split; [by rewrite <- Hden|]. split; [|done].
    exists data. split; [done|].
    destruct (Hnew name (OS.File data) (not_elem_of_nil _) Hn1) as [H0|(_ & Hd & _)];
      [|done].
    unfold Spec.fileSize. by rewrite H0.
  - done.
  - destruct (decide (OS.dirname name = EmptyString
                      ∨ OS.isDir <$> (OS.nodes o1 !! OS.dirname name) = Some true));
      [|done].
    inversion H; subst wc o2. split; [done|]. cbn [OS.nodes OS.denied].
    split.
    { split; [done|]. cbn [OS.nodes]. split.
      - intros name' n Hne Hn. rewrite lookup_insert_ne.
        + by apply Hkeep; [apply not_elem_of_nil|].
        + intros ->. apply Hne. left.
      - intros name' n Hne Hn. rewrite lookup_insert_ne in Hn.
        + by apply Hnew; [apply not_elem_of_nil|].
        + intros ->. apply Hne. left. }
    split; [by rewrite <- Hden|]. split.
    + exists []. rewrite lookup_insert_eq. split; [done|].
      unfold Spec.fileSize. destruct (OS.nodes o !! name) as [n|] eqn:Hn0; [|done].
      apply (Hkeep name n (not_elem_of_nil _)) in Hn0. congruence.
    + intros Hne. rewrite lookup_insert_ne; [by apply Hdir1|].
      unfold name, Fslocal.path. cbv zeta. apply append_neq.
Qed.

Lemma extends_insert (o : OS.state) (name : string) (n : OS.node) :
  Spec.extends [name] o (OS.mkState (<[name := n]> (OS.nodes o)) (OS.denied o)).
Proof.
  split; [done|]. cbn [OS.nodes]. split.
  - intros name' n' Hne Hn. rewrite lookup_insert_ne; [done|].
    intros ->. apply Hne. left.
  - intros name' n' Hne Hn. rewrite lookup_insert_ne in Hn; [by left|].
    intros ->. apply Hne. left.
Qed.

(** A download that succeeded, to a file that exists, from a position
    inside it or at its end. *)
Lemma downloadPart_inv (p : Part) (name path : string) (pos : Z)
    (data : list byte) (w w' : world) (wc' : Fslocal.writeCloser) :
  downloadPart src p (Fslocal.mkWriteCloser (Filestream.mkWriter name pos) path) w
  = (Ok wc', w') →
  OS.nodes (os w) !! name = Some (OS.File data) →
  0 <= pos <= Z.of_nat (length data) →
  ∃ data',
    os w' = OS.mkState (<[name := OS.File data']> (OS.nodes (os w))) (OS.denied (os w))
    ∧ Z.of_nat (length data') = Z.max (Z.of_nat (length data)) (pos + Size p).
Proof.
  intros H Hn Hpos. unfold downloadPart, iobind, emit in H. cbn [os bytesDownloaded log] in H.
  unfold DownloadPart in H.
  destruct (rObject src p) as [chunks|msg]; [|done].
  destruct (ioCopy_file name path chunks pos data (os w) (bytesDownloaded w) 0 Hn Hpos)
    as (data' & sw' & c' & Heq & Hlen).
  rewrite Heq in H.
  destruct (decide (0 + Z.of_nat (length (concat chunks)) ≠ Size p)) as [|Hsz]; [done|].
  apply dec_stable in Hsz. inversion H; subst wc' w'. cbn [os].
  exists data'. split; [done|]. lia.
Qed.

(** The work on one part that succeeded, when the part starts where the
    file ends: the file ends where the part ends, and nothing else has
    changed but for new directories. *)
Lemma copyPart_inv (p : Part) (w w' : world) :
  copyPart src dst p w = (Ok tt, w') →
  0 <= Offset p →
  0 <= Size p →
  Offset p < 2 ^ 63 →
  Offset p = Spec.fileSize (os w) (Fslocal.path dst p) →
  Spec.extends [Fslocal.path dst p] (os w) (os w')
  ∧ (Fslocal.path dst p ∉ OS.denied (os w))
  ∧ (∃ data, OS.nodes (os w') !! Fslocal.path dst p = Some (OS.File data)
             ∧ Z.of_nat (length data) = Offset p + Size p)
  ∧ (Fslocal.Dir dst ≠ EmptyString →
     OS.isDir <$> (OS.nodes (os w') !! Fslocal.Dir dst) = Some true).
Proof.
  intros H Hoff Hsize Hmax Hstart. unfold copyPart in H.
  unfold iobind at 1 in H.
  destruct (openPart dst p w) as [[wc|e] w1] eqn:Hopen; [|done].
  unfold iobind at 1 in H.
  destruct (downloadPart src p wc w1) as [[wc'|e] w2] eqn:Hdown; [|done].
  unfold openPart, iobind, emit in Hopen. cbn [os bytesDownloaded log] in Hopen.
  destruct (Fslocal.NewWriteCloser dst p (os w)) as [[wc0 o1]|e] eqn:Hnew; [|done].
  inversion Hopen; subst wc0 w1. clear Hopen.
  destruct (NewWriteCloser_inv p (os w) o1 wc Hnew (conj Hoff Hmax))
    as (Hwc & Hext & Hnd & (data & Hdata & Hlen) & Hdir).
  subst wc.
  destruct (downloadPart_inv p _ _ _ data _ _ _ Hdown Hdata) as (data' & Hos2 & Hlen').
  { cbn [os]. lia. }
  cbn [os] in Hos2.
  unfold closePart, iobind, emit in H. cbn [os bytesDownloaded log] in H.
  unfold Fslocal.wcClose, Fscommon.FsyncFile in H.
  inversion H; subst w'. cbn [os]. rewrite Hos2.
  split.
  { eapply extends_trans; [exact Hext|apply extends_insert]. }
  split; [done|]. split.
  - exists data'. cbn [OS.nodes]. rewrite lookup_insert_eq. split; [done|]. lia.
  - intros Hne. cbn [OS.nodes]. rewrite lookup_insert_ne; [by apply Hdir|].
    unfold Fslocal.path. cbv zeta. apply append_neq.
Qed.

Lemma path_fullName (p : Part) : Fslocal.path dst p = Spec.fullName dst (Path p).
Proof. done. Qed.

(** The work on consecutive parts of one file, from the end of the file
    on. *)
Lemma copyParts_inv (q : string) (ps : list Part) :
  ∀ (base : Z) (w w' : world),
    copyParts src dst ps w = (Ok tt, w') →
    (∀ k p, ps !! k = Some p →
            Path p = q ∧ Offset p = base + Spec.totalSize (take k ps) ∧ 0 <= Size p) →
    0 <= base →
    base + Spec.totalSize ps < 2 ^ 63 →
    base = Spec.fileSize (os w) (Spec.fullName dst q) →
    Spec.extends [Spec.fullName dst q] (os w) (os w')
    ∧ (ps ≠ [] →
       (Spec.fullName dst q ∉ OS.denied (os w))
       ∧ (∃ data, OS.nodes (os w') !! Spec.fullName dst q = Some (OS.File data)
                  ∧ Z.of_nat (length data) = base + Spec.totalSize ps)
       ∧ (Fslocal.Dir dst ≠ EmptyString →
          OS.isDir <$> (OS.nodes (os w') !! Fslocal.Dir dst) = Some true)).
Proof.
  induction ps as [|p ps IH]; intros base w w' H Hps Hbase Hmax Hstart.
  - inversion H; subst w'. split; [apply extends_refl|done].
  - cbn [copyParts] in H. unfold iobind in H.
    destruct (copyPart src dst p w) as [[[]|e] w1] eqn:Hcopy; [|done].
    destruct (Hps 0%nat p eq_refl) as (Hq & Hoff & Hsz).
    cbn [take Spec.totalSize foldr] in Hoff. rewrite Z.add_0_r in Hoff.
    assert (Hrest : ∀ k p', ps !! k = Some p' →
              Path p' = q
              ∧ Offset p' = (base + Size p) + Spec.totalSize (take k ps)
              ∧ 0 <= Size p').
    { intros k p' Hk. destruct (Hps (S k) p' Hk) as (Hq' & Hoff' & Hsz').
      split; [done|]. split; [|done].
      rewrite Hoff'. cbn [take]. change (Spec.totalSize (p :: take k ps))
        with (Size p + Spec.totalSize (take k ps)). lia. }
    assert (Hnn : 0 <= Spec.totalSize ps).
    { apply totalSize_nonneg. intros p' Hp'.
      apply list_elem_of_lookup in Hp' as [k Hk].
      by destruct (Hrest k p' Hk) as (_ & _ & ?). }
    change (Spec.totalSize (p :: ps)) with (Size p + Spec.totalSize ps) in *.
    destruct (copyPart_inv p w w1 Hcopy) as (Hext1 & Hnd & (data & Hdata & Hlen) & Hdir1);
      [lia | done | lia | |].
    { rewrite path_fullName, Hq. lia. }
    rewrite path_fullName, Hq in Hext1, Hnd, Hdata.
    destruct (IH (base + Size p) w1 w' H Hrest) as [Hext2 Hfin]; [lia | lia | |].
    { unfold Spec.fileSize. rewrite Hdata. lia. }
    split; [by eapply extends_trans|]. intros _.
    split; [done|]. destruct ps as [|p' ps'].
    + inversion H; subst w'. split; [|done].
      exists data. split; [done|]. cbn. lia.
    + destruct Hfin as (_ & (data' & Hdata' & Hlen') & Hdir'); [done|].
      split; [|done]. exists data'. split; [done|]. lia.
Qed.

Lemma extends_fileSize_zero (names : list string) (o o' : OS.state) (name : string) :
  Spec.extends names o o' →
  name ∉ names →
  Spec.fileSize o name = 0 →
  Spec.fileSize o' name = 0.
Proof.
  intros (_ & _ & Hnew) Hname H0. unfold Spec.fileSize in *.
  destruct (OS.nodes o' !! name) as [[data|]|] eqn:Hn; [|done|done].
  destruct (Hnew name _ Hname Hn) as [Hold|(_ & Hd & _)]; [|done].
  by rewrite Hold in H0.
Qed.

(** The groups one after the other, each with the consecutive parts of a
    file that does not exist yet: afterwards each of these files exists,
    with the size of its parts together. *)
Lemma runParallelPerPath_inv (groups : list (string * list Part)) :
  ∀ (w w' : world),
    runParallelPerPath (copyGroup src dst) groups w = (Ok tt, w') →
    NoDup groups.*1 →
    (∀ k g, (k, g) ∈ groups →
            Common.SortParts g ≠ []
            ∧ Spec.totalSize (Common.SortParts g) < 2 ^ 63
            ∧ Spec.fileSize (os w) (Spec.fullName dst k) = 0
            ∧ ∀ i p, Common.SortParts g !! i = Some p →
                     Path p = k
                     ∧ Offset p = Spec.totalSize (take i (Common.SortParts g))
                     ∧ 0 <= Size p) →
    Spec.extends (Spec.fullName dst <$> groups.*1) (os w) (os w')
    ∧ (∀ k g, (k, g) ∈ groups →
              (Spec.fullName dst k ∉ OS.denied (os w))
              ∧ ∃ data, OS.nodes (os w') !! Spec.fullName dst k = Some (OS.File data)
                        ∧ Z.of_nat (length data)
                          = Spec.totalSize (Common.SortParts g))
    ∧ (groups ≠ [] → Fslocal.Dir dst ≠ EmptyString →
       OS.isDir <$> (OS.nodes (os w') !! Fslocal.Dir dst) = Some true).
Proof.
  induction groups as [|[k g] groups IH]; intros w w' H Hnd Hgroups.
  - inversion H; subst w'. split; [apply extends_refl|]. split; [|done].
    intros k g Hin. by apply not_elem_of_nil in Hin.
  - cbn [runParallelPerPath] in H. unfold iobind in H.
    destruct (copyGroup src dst g w) as [[[]|e] w1] eqn:Hcopy; [|done].
    rewrite fmap_cons in Hnd. apply NoDup_cons in Hnd as [Hk Hnd]. cbn [fst] in Hk.
    destruct (Hgroups k g ltac:(left)) as (Hne & Hmax & Hzero & Hps).
    unfold copyGroup in Hcopy.
    destruct (copyParts_inv k (Common.SortParts g) 0 w w1 Hcopy)
      as [Hext1 Hfin]; [| lia | lia | by rewrite Hzero |].
    { intros i p Hi. destruct (Hps i p Hi) as (? & ? & ?). split; [done|].
      split; [lia|done]. }
    destruct (Hfin Hne) as (Hden & (data & Hdata & Hlen) & Hdir1).
    assert (Hother : ∀ k' g', (k', g') ∈ groups →
                              Spec.fullName dst k' ∉ [Spec.fullName dst k]).
    { intros k' g' Hin Hel. apply list_elem_of_singleton in Hel.
      apply full_inj in Hel. subst k'. apply Hk.
      apply list_elem_of_fmap. exists (k, g'). done. }
    destruct (IH w1 w' H Hnd) as (Hext2 & Hfiles & Hdir2).
    { intros k' g' Hin.
      destruct (Hgroups k' g' ltac:(by right)) as (Hne' & Hmax' & Hzero' & Hps').
      split; [done|]. split; [done|]. split; [|done].
      eapply extends_fileSize_zero; [exact Hext1| |done]. by eapply Hother. }
    rewrite !fmap_cons. cbn [fst]. split.
    { eapply extends_trans.
      - eapply extends_mono; [|exact Hext1].
        intros x Hx. apply list_elem_of_singleton in Hx. subst x. left.
      - eapply extends_mono; [|exact Hext2]. intros x Hx. by right. }
    split.
    + intros k' g' Hin. apply elem_of_cons in Hin as [Heq|Hin].
      * inversion Heq; subst k' g'. split; [done|].
        exists data. split; [|lia].
        destruct Hext2 as (_ & Hkeep & _). apply Hkeep; [|done].
        intros Hel. apply list_elem_of_fmap in Hel as (k' & Hfull & Hel).
        apply full_inj in Hfull. by subst k'.
      * destruct (Hfiles k' g' Hin) as [Hden' Hfile]. split; [|done].
        destruct Hext1 as (Heq & _). by rewrite <- Heq.
    + intros _ Hdirne. destruct groups as [|g0 groups'].
      * inversion H; subst w'. by apply Hdir1.
      * by apply Hdir2.
Qed.

End CopyFacts.

(** ** The names of the files of the destination *)

Section NameFacts.
Variable dst : Fslocal.FS.

Lemma fullName_dir (q : string) :
  Spec.fullName dst q = (Fslocal.Dir dst +:+ "/") +:+ q.
Proof. unfold Spec.fullName. by rewrite string_app_assoc. Qed.

Lemma prefix_fullName (q : string) :
  String.prefix (Fslocal.Dir dst +:+ "/") (Spec.fullName dst q) = true.
Proof. rewrite fullName_dir. apply prefix_append. Qed.

Lemma trimPrefix_fullName (q : string) :
  Fslocal.trimPrefix (Fslocal.Dir dst +:+ "/") (Spec.fullName dst q) = q.
Proof. rewrite fullName_dir. apply trimPrefix_append. Qed.

Lemma fullName_trimPrefix (file : string) :
  String.prefix (Fslocal.Dir dst +:+ "/") file = true →
  Spec.fullName dst (Fslocal.trimPrefix (Fslocal.Dir dst +:+ "/") file) = file.
Proof. intros H. rewrite fullName_dir. by apply prefix_trimPrefix. Qed.

Lemma fullName_neq_dir (q : string) : Spec.fullName dst q ≠ Fslocal.Dir dst.
Proof. apply append_neq. Qed.

End NameFacts.

(** ** The parts of a sliced backup *)

Section CanonicalFacts.
Variable M : Z.
Hypothesis HM : 0 < M < U64.modulus.

Lemma slices_sorted (q : string) (L : Z) :
  0 <= L → StronglySorted Common.partLe (Spec.slices M q L).
Proof.
  intros HL. apply StronglySorted_lookup. intros i j p p' Hij Hi Hj.
  destruct (slices_lookup_any M HM _ _ i p HL Hi) as (Hq & _ & _ & _ & Ho & _).
  destruct (slices_lookup_any M HM _ _ j p' HL Hj) as (Hq' & _ & _ & _ & Ho' & _).
  right. split; [congruence | nia].
Qed.

Lemma slices_Path (q : string) (L : Z) (p : Part) :
  0 <= L → p ∈ Spec.slices M q L → Path p = q ∧ FileSize p = L.
Proof.
  intros HL Hp. apply list_elem_of_lookup in Hp as [k Hk].
  destruct (slices_lookup_any M HM _ _ k p HL Hk) as (Hq & Hfs & _). done.
Qed.

Lemma slices_offset_inj (q : string) (L : Z) (p p' : Part) :
  0 <= L →
  p ∈ Spec.slices M q L → p' ∈ Spec.slices M q L →
  Offset p = Offset p' → p = p'.
Proof.
  intros HL Hp Hp' Hoff.
  apply list_elem_of_lookup in Hp as [k Hk].
  apply list_elem_of_lookup in Hp' as [k' Hk'].
  destruct (slices_lookup_any M HM _ _ k p HL Hk) as (_ & _ & _ & _ & Ho & _).
  destruct (slices_lookup_any M HM _ _ k' p' HL Hk') as (_ & _ & _ & _ & Ho' & _).
  assert (k = k') by nia. subst k'. congruence.
Qed.

Variable files : list (string * Z).
Hypothesis Hnd : NoDup files.*1.
Hypothesis Hsizes : ∀ q L, (q, L) ∈ files → 0 <= L < 2 ^ 63.

Lemma files_size_unique (q : string) (L L' : Z) :
  (q, L) ∈ files → (q, L') ∈ files → L = L'.
Proof.
  clear Hsizes. induction files as [|[q0 L0] fs IH]; intros H H'.
  - by apply not_elem_of_nil in H.
  - rewrite fmap_cons in Hnd. apply NoDup_cons in Hnd as [Hq0 Hnd']. cbn [fst] in Hq0.
    apply elem_of_cons in H as [H|H]; apply elem_of_cons in H' as [H'|H'].
    + congruence.
    + inversion H; subst. exfalso. apply Hq0.
      apply list_elem_of_fmap. by exists (q0, L').
    + inversion H'; subst. exfalso. apply Hq0.
      apply list_elem_of_fmap. by exists (q0, L).
    + by apply IH.
Qed.

Lemma elem_of_canonical (p : Part) :
  p ∈ Spec.canonical M files ↔ ∃ q L, (q, L) ∈ files ∧ p ∈ Spec.slices M q L.
Proof.
  unfold Spec.canonical. rewrite list_elem_of_bind. split.
  - intros ([q L] & Hp & Hf). by exists q, L.
  - intros (q & L & Hf & Hp). by exists (q, L).
Qed.

(** A part of a slicing whose identity is that of a part of the backup is
    a part of a file of the backup. *)
Lemma canonical_key (q : string) (s : Z) (p : Part) :
  0 <= s →
  p ∈ Spec.slices M q s →
  Common.key p ∈ Common.key <$> Spec.canonical M files →
  (q, s) ∈ files.
Proof.
  intros Hs Hp Hkey. apply list_elem_of_fmap in Hkey as (p' & Hk & Hp').
  apply elem_of_canonical in Hp' as (q' & L' & Hf & Hp').
  destruct (slices_Path q s p Hs Hp) as [Hq Hfs].
  destruct (slices_Path q' L' p') as [Hq' Hfs']; [by apply (Hsizes q')|done|].
  unfold Common.key in Hk. inversion Hk. by replace q with q' by congruence;
    replace s with L' by congruence.
Qed.

(** The parts of one path of the backup are the slices of its file. *)
Lemma filter_canonical (q : string) (L : Z) :
  (q, L) ∈ files →
  filter (λ p, Path p = q) (Spec.canonical M files) = Spec.slices M q L.
Proof.
  intros Hf. unfold Spec.canonical.
  induction files as [|[q0 L0] fs IH].
  - by apply not_elem_of_nil in Hf.
  - rewrite fmap_cons in Hnd. apply NoDup_cons in Hnd as [Hq0 Hnd'].
    cbn [fst] in Hq0. rewrite bind_cons, filter_app. cbn [fst snd].
    assert (HL0 : 0 <= L0) by (apply (Hsizes q0); left).
    destruct (decide (q0 = q)) as [->|Hne].
    + assert (L0 = L) as ->.
      { apply elem_of_cons in Hf as [Hf|Hf]; [congruence|].
        exfalso. apply Hq0. apply list_elem_of_fmap. by exists (q, L). }
      rewrite filter_all.
      2: { intros p Hp. by apply (slices_Path q L p HL0). }
      rewrite filter_none; [apply app_nil_r|].
      intros p Hp Hq. apply list_elem_of_bind in Hp as ([q' L'] & Hp & Hf').
      cbn [fst snd] in Hp.
      destruct (slices_Path q' L' p) as [Hq' _];
        [apply (Hsizes q'); by right | done |].
      apply Hq0. apply list_elem_of_fmap. exists (q', L'). split; [|done].
      cbn [fst]. congruence.
    + rewrite filter_none.
      2: { intros p Hp. by destruct (slices_Path q0 L0 p HL0 Hp) as [-> _]. }
      rewrite app_nil_l. apply IH.
      * done.
      * intros q' L' Hf'. apply (Hsizes q'). by right.
      * apply elem_of_cons in Hf as [Hf|Hf]; [congruence|done].
Qed.

End CanonicalFacts.

(** ** The phases of a run *)

Section PhaseFacts.
Import Actions.
Variable M : Z.
Hypothesis HM : 0 < M < U64.modulus.
Variable dst : Fslocal.FS.

Local Abbreviation dir := (Fslocal.Dir dst +:+ "/").

(** A listing that succeeded on a well-formed file system: the parts are
    those of the regular files below the directory, and the process may
    access what lies below it. *)
Lemma ListParts_wf (o : OS.state) (parts : list Part) :
  Spec.wellFormed dst o →
  Fslocal.ListParts M dst o = Ok parts →
  (Fslocal.Dir dst ∉ OS.denied o)
  ∧ Spec.accessible dst o
  ∧ parts = Fscommon.filesBelow o (Fslocal.Dir dst) ≫= Spec.partsOfFile M o dir.
Proof.
  intros [Hwf Hsz] H.
  assert (Hnd : Fslocal.Dir dst ∉ OS.denied o).
  { intros Hd. unfold Fslocal.ListParts, OS.Stat in H.
    rewrite decide_True in H by done. done. }
  split; [done|].
  destruct (ListParts_Ok_inv M HM dst o parts) as [[Hstat ->]|(Hsome & Hfiles & ->)].
  - intros file Hfile. apply Hsz. by apply elem_of_filesBelow in Hfile as [? _].
  - done.
  - unfold OS.Stat in Hstat. rewrite decide_False in Hstat by done.
    destruct (OS.nodes o !! Fslocal.Dir dst) as [n|] eqn:Hdir; [done|].
    specialize (Hwf eq_refl). split.
    + intros name Hpre [n Hn]. rewrite (Hwf name Hpre) in Hn. done.
    + destruct (Fscommon.filesBelow o (Fslocal.Dir dst)) as [|f l] eqn:E; [done|].
      assert (Hf : f ∈ Fscommon.filesBelow o (Fslocal.Dir dst)) by (rewrite E; left).
      apply elem_of_filesBelow in Hf as [Hpre Hfile].
      rewrite (Hwf f Hpre) in Hfile. done.
  - split; [|done]. intros name Hpre [n Hn] Hden.
    destruct n as [data|].
    + apply (Hfiles name); [|done]. apply elem_of_filesBelow. split; [done|].
      by rewrite Hn.
    + unfold Fslocal.ListParts, OS.Stat in H.
      rewrite decide_False in H by done. destruct Hsome as [n Hdir].
      rewrite Hdir in H. unfold Fscommon.AppendFiles in H.
      rewrite bool_decide_true in H; [done|].
      exists name. split; [done|]. split; [done|]. by rewrite Hn.
Qed.

(** The file system after the delete phase, when what is to be deleted can
    be deleted: the regular files are those of before except the deleted
    ones, nothing is new, and the directory of the destination is kept. *)
Lemma deletePhase_state (partsToDelete : list Part) (w : world) :
  (∀ p, p ∈ partsToDelete → Spec.deletable dst (os w) (Path p)) →
  let w' := (deletePhase dst partsToDelete w).2 in
  OS.denied (os w') = OS.denied (os w)
  ∧ (∀ name data,
       OS.nodes (os w') !! name = Some (OS.File data)
       ↔ OS.nodes (os w) !! name = Some (OS.File data)
         ∧ ¬ ∃ p, p ∈ partsToDelete ∧ name = Spec.fullName dst (Path p))
  ∧ (∀ name n, OS.nodes (os w') !! name = Some n → OS.nodes (os w) !! name = Some n)
  ∧ (∀ n, OS.nodes (os w) !! Fslocal.Dir dst = Some n →
          OS.nodes (os w') !! Fslocal.Dir dst = Some n).
Proof.
  intros Hall w'. unfold w', deletePhase.
  destruct (decide (0 < length partsToDelete)%nat) as [Hlen|Hlen].
  - unfold iobind.
    pose proof (deletePaths_ok dst (elements (pathsToDelete partsToDelete))
                  0 w (NoDup_elements _)) as Hel.
    change (U64.wrap 0) with 0 in Hel. rewrite Hel; clear Hel.
    2: { intros path Hpath. apply elem_of_elements in Hpath.
         unfold pathsToDelete in Hpath. apply elem_of_list_to_set in Hpath.
         apply list_elem_of_fmap in Hpath as (p & -> & Hp). by apply Hall. }
    unfold removeEmptyDirs, Fslocal.RemoveEmptyDirs, Fscommon.RemoveEmptyDirs, ret.
    cbn [os snd OS.nodes OS.denied bytesDownloaded log].
    assert (Hmem : ∀ name,
              name ∈ Spec.fullName dst <$> elements (pathsToDelete partsToDelete)
              ↔ ∃ p, p ∈ partsToDelete ∧ name = Spec.fullName dst (Path p)).
    { intros name. rewrite list_elem_of_fmap. split.
      - intros (path & -> & Hpath). apply elem_of_elements in Hpath.
        unfold pathsToDelete in Hpath. apply elem_of_list_to_set in Hpath.
        apply list_elem_of_fmap in Hpath as (p & -> & Hp). by exists p.
      - intros (p & Hp & ->). exists (Path p). split; [done|].
        apply elem_of_elements. unfold pathsToDelete.
        apply elem_of_list_to_set, list_elem_of_fmap. by exists p. }
    split; [done|]. split; [|split].
    + intros name data. rewrite map_lookup_filter_Some, lookup_foldl_delete.
      cbn [fst snd]. rewrite <- Hmem.
      destruct (decide (name ∈ Spec.fullName dst
                               <$> elements (pathsToDelete partsToDelete))).
      * split; [by intros [? _]|]. by intros [_ ?].
      * split; [by intros [? _]|]. intros [Hn _]. split; [done|].
        unfold Fscommon.prunable. by intros [? _].
    + intros name n. rewrite map_lookup_filter_Some, lookup_foldl_delete.
      intros [Hn _].
      by destruct (decide (name ∈ Spec.fullName dst
                                  <$> elements (pathsToDelete partsToDelete))).
    + intros n Hn. rewrite map_lookup_filter_Some, lookup_foldl_delete.
      rewrite decide_False.
      * split; [done|]. cbn [fst snd]. unfold Fscommon.prunable.
        intros (_ & Hpre & _). by rewrite prefix_slash_self in Hpre.
      * intros Hin. apply list_elem_of_fmap in Hin as (path & Heq & _).
        symmetry in Heq. by apply fullName_neq_dir in Heq.
  - unfold ret. cbn [snd]. split; [done|]. split; [|done].
    assert (partsToDelete = []) as -> by (destruct partsToDelete; simpl in *; [done|lia]).
    intros name data. split; [|by intros [? _]].
    intros Hn. split; [done|]. intros (p & Hp & _). by apply not_elem_of_nil in Hp.
Qed.

End PhaseFacts.

(** ** The steps of a run that succeeded *)

Section RunInv.
Import Actions.
Variable M : Z.

Lemma Run_inv (r : Restore) (w : world) (report : Report) :
  (Run M r w).1 = Ok report →
  ∃ srcParts dstParts1 ds w2 dstParts2,
    rListParts (Src r) = Ok srcParts
    ∧ Fslocal.ListParts M (Dst r) (os w) = Ok dstParts1
    ∧ Validate.validate (Common.SortParts srcParts) = Ok tt
    ∧ deletePhase (Dst r)
        (Common.PartsDifference dstParts1 (Common.SortParts srcParts)) w
      = (Ok ds, w2)
    ∧ Fslocal.ListParts M (Dst r) (os w2) = Ok dstParts2
    ∧ downloadPhase (Src r) (Dst r)
        (Common.PartsDifference (Common.SortParts srcParts) dstParts2) w2
      = (Ok tt, (Run M r w).2)
    ∧ report
      = mkReport (getPartsSize srcParts) ds
          (getPartsSize (Common.PartsDifference (Common.SortParts srcParts) dstParts2)).
Proof.
  destruct (Run M r w) as [res w3] eqn:Hrun. cbn [fst snd]. intros ->.
  unfold Run in Hrun. unfold iobind at 1 in Hrun. unfold lift at 1 in Hrun.
  destruct (rListParts (Src r)) as [srcParts|msg] eqn:Hsrc; [|done].
  unfold iobind at 1 in Hrun. unfold listDst at 1 in Hrun.
  destruct (Fslocal.ListParts M (Dst r) (os w)) as [dstParts1|e1] eqn:Hl1; [|done].
  unfold iobind at 1 in Hrun. unfold lift at 1 in Hrun.
  destruct (Validate.validate (Common.SortParts srcParts)) as [[]|e2] eqn:Hval;
    [|done].
  unfold iobind at 1 in Hrun.
  destruct (deletePhase (Dst r) _ w) as [[ds|e3] w2] eqn:Hdel; [|done].
  unfold iobind at 1 in Hrun. unfold listDst at 1 in Hrun.
  destruct (Fslocal.ListParts M (Dst r) (os w2)) as [dstParts2|e4] eqn:Hl2; [|done].
  unfold iobind at 1 in Hrun.
  destruct (downloadPhase (Src r) (Dst r) _ w2) as [[[]|e5] w3'] eqn:Hdl; [|done].
  unfold ret in Hrun. inversion Hrun; subst report w3'.
  exists srcParts, dstParts1, ds, w2, dstParts2. done.
Qed.

End RunInv.

(** ** The destination after a run from a sliced backup *)

Lemma filter_filter_implies {A} (P Q : A → Prop) `{!∀ x, Decision (P x)}
    `{!∀ x, Decision (Q x)} (l : list A) :
  (∀ x, x ∈ l → P x → Q x) → filter P (filter Q l) = filter P l.
Proof.
  induction l as [|x l IH]; intros HPQ; [done|].
  assert (IH' : filter P (filter Q l) = filter P l).
  { apply IH. intros y Hy. apply HPQ. by right. }
  destruct (decide (P x)) as [HP|HP].
  - rewrite (filter_cons_True Q) by (apply HPQ; [left|done]).
    rewrite !(filter_cons_True P) by done. by rewrite IH'.
  - rewrite (filter_cons_False P) by done.
    destruct (decide (Q x)).
    + rewrite (filter_cons_True Q) by done. by rewrite (filter_cons_False P).
    + by rewrite (filter_cons_False Q).
Qed.

Section Restored.
Import Actions.
Variable M : Z.
Hypothesis HM : 0 < M < U64.modulus.
Variable src : RemoteFS.
Variable dst : Fslocal.FS.
Hypothesis Hdir : Fslocal.Dir dst ≠ EmptyString.
Variable files : list (string * Z).
Hypothesis Hnd : NoDup files.*1.
Hypothesis Hsizes : ∀ q L, (q, L) ∈ files → 0 <= L < 2 ^ 63.
Variable srcParts : list Part.
Hypothesis Hsrc : srcParts ≡ₚ Spec.canonical M files.

Local Abbreviation dir := (Fslocal.Dir dst +:+ "/").
Local Abbreviation full := (Spec.fullName dst).
Local Abbreviation sorted := (Common.SortParts srcParts).

Lemma elem_of_sorted (p : Part) :
  p ∈ sorted ↔ ∃ q L, (q, L) ∈ files ∧ p ∈ Spec.slices M q L.
Proof.
  rewrite (SortParts_Permutation srcParts), Hsrc. apply elem_of_canonical.
Qed.

Lemma key_sorted (k : string * Z * Z * Z) :
  k ∈ Common.key <$> sorted ↔ k ∈ Common.key <$> Spec.canonical M files.
Proof. by rewrite (SortParts_Permutation srcParts), Hsrc. Qed.

(** The files that the delete phase leaves below the directory are files
    of the backup, with their sizes. *)
Lemma survivors (w : world) (dstParts1 : list Part) :
  Spec.wellFormed dst (os w) →
  Fslocal.ListParts M dst (os w) = Ok dstParts1 →
  let w2 := (deletePhase dst (Common.PartsDifference dstParts1 sorted) w).2 in
  Spec.wellFormed dst (os w2)
  ∧ (Fslocal.Dir dst ∉ OS.denied (os w2))
  ∧ ∀ file data,
      String.prefix dir file = true →
      OS.nodes (os w2) !! file = Some (OS.File data) →
      (Fslocal.trimPrefix dir file, Z.of_nat (length data)) ∈ files.
Proof.
  intros Hwf Hl1 w2.
  destruct (ListParts_wf M HM dst (os w) dstParts1 Hwf Hl1) as (Hden & Hacc & ->).
  destruct Hwf as [Hwf1 Hwf2].
  destruct (deletePhase_state dst
              (Common.PartsDifference
                 (Fscommon.filesBelow (os w) (Fslocal.Dir dst)
                    ≫= Spec.partsOfFile M (os w) dir) sorted) w)
    as (Hden2 & Hfiles2 & Hsub & Hkept).
  { intros p Hp. apply elem_of_PartsDifference in Hp as [Hp _].
    apply list_elem_of_bind in Hp as (file & Hp & Hfile).
    apply (partsOfFile_Path M HM) in Hp. rewrite Hp.
    apply elem_of_filesBelow in Hfile as [Hpre Hfile].
    unfold Spec.deletable. rewrite (fullName_trimPrefix dst file Hpre).
    destruct (OS.nodes (os w) !! file) as [n|] eqn:Hn; [|done].
    split; [apply Hacc; [done|by rewrite Hn]|].
    split; [|by apply Hwf2].
    destruct n; [done|]. done. }
  fold w2 in Hden2, Hfiles2, Hsub, Hkept.
  split; [split|split].
  - intros Hnone name Hpre.
    destruct (OS.nodes (os w) !! Fslocal.Dir dst) as [n|] eqn:Hd.
    { rewrite (Hkept n eq_refl) in Hnone. done. }
    destruct (OS.nodes (os w2) !! name) as [n|] eqn:Hn; [|done].
    apply Hsub in Hn. rewrite (Hwf1 eq_refl name Hpre) in Hn. done.
  - intros name Hpre. unfold OS.sizeOf.
    destruct (OS.nodes (os w2) !! name) as [n|] eqn:Hn; [|done].
    apply Hsub in Hn. specialize (Hwf2 name Hpre). unfold OS.sizeOf in Hwf2.
    by rewrite Hn in Hwf2.
  - by rewrite Hden2.
  - intros file data Hpre Hfile. apply Hfiles2 in Hfile as [Hfile Hkeep].
    assert (Hin : file ∈ Fscommon.filesBelow (os w) (Fslocal.Dir dst)).
    { apply elem_of_filesBelow. split; [done|]. by rewrite Hfile. }
    assert (Hsz : OS.sizeOf (os w) file = Z.of_nat (length data)).
    { unfold OS.sizeOf. by rewrite Hfile. }
    assert (Hnn : 0 <= Z.of_nat (length data)) by lia.
    destruct (Spec.slices M (Fslocal.trimPrefix dir file) (Z.of_nat (length data)))
      as [|p ps] eqn:Hsl.
    { by apply (slices_nonempty M HM) in Hsl. }
    assert (Hp : p ∈ Spec.slices M (Fslocal.trimPrefix dir file)
                                 (Z.of_nat (length data))).
    { rewrite Hsl. left. }
    apply (canonical_key M HM files Hsizes _ _ p Hnn Hp).
    apply key_sorted.
    destruct (decide (Common.key p ∈ Common.key <$> sorted)) as [|Hnot]; [done|].
    exfalso. apply Hkeep. exists p. split.
    + apply elem_of_PartsDifference. split; [|done].
      apply list_elem_of_bind. exists file. split; [|done].
      unfold Spec.partsOfFile. by rewrite Hsz.
    + destruct (slices_Path M HM _ _ p Hnn Hp) as [-> _].
      by rewrite (fullName_trimPrefix dst file Hpre).
Qed.

Section AfterDelete.
Variable o2 : OS.state.
Hypothesis Hsurv : ∀ file data,
  String.prefix dir file = true →
  OS.nodes o2 !! file = Some (OS.File data) →
  (Fslocal.trimPrefix dir file, Z.of_nat (length data)) ∈ files.

Local Abbreviation dstParts2 :=
  (Fscommon.filesBelow o2 (Fslocal.Dir dst) ≫= Spec.partsOfFile M o2 dir).
Local Abbreviation toCopy := (Common.PartsDifference sorted dstParts2).

Lemma listed_file (p : Part) :
  p ∈ dstParts2 → ∃ data, OS.nodes o2 !! full (Path p) = Some (OS.File data).
Proof.
  intros Hp. apply list_elem_of_bind in Hp as (file & Hp & Hfile).
  apply (partsOfFile_Path M HM) in Hp. rewrite Hp.
  apply elem_of_filesBelow in Hfile as [Hpre Hfile].
  rewrite (fullName_trimPrefix dst file Hpre).
  destruct (OS.nodes o2 !! file) as [[data|]|]; [by exists data|done|done].
Qed.

Lemma file_listed (q : string) (data : list byte) (p : Part) :
  OS.nodes o2 !! full q = Some (OS.File data) →
  p ∈ Spec.slices M q (Z.of_nat (length data)) →
  p ∈ dstParts2.
Proof.
  intros Hfile Hp. apply list_elem_of_bind. exists (full q). split.
  - unfold Spec.partsOfFile, OS.sizeOf.
    rewrite (trimPrefix_fullName dst q), Hfile. done.
  - apply elem_of_filesBelow. split; [apply prefix_fullName|]. by rewrite Hfile.
Qed.

(** A part to copy is a slice of a file of the backup that does not exist
    at the destination. *)
Lemma copy_absent (p : Part) :
  p ∈ toCopy →
  ∃ L, (Path p, L) ∈ files
       ∧ p ∈ Spec.slices M (Path p) L
       ∧ ∀ data, OS.nodes o2 !! full (Path p) ≠ Some (OS.File data).
Proof.
  intros Hp. apply elem_of_PartsDifference in Hp as [Hp Hkey].
  apply elem_of_sorted in Hp as (q & L & Hf & Hp).
  destruct (slices_Path M HM q L p) as [Hq _]; [by apply (Hsizes q)|done|].
  subst q. exists L. split; [done|]. split; [done|].
  intros data Hfile.
  pose proof (Hsurv _ data (prefix_fullName dst (Path p)) Hfile) as Hin.
  rewrite (trimPrefix_fullName dst (Path p)) in Hin.
  assert (Z.of_nat (length data) = L) as HL
    by (by apply (files_size_unique files Hnd (Path p))).
  apply Hkey. apply list_elem_of_fmap. exists p. split; [done|].
  apply (file_listed (Path p) data); [done|]. by rewrite HL.
Qed.

(** The slices of a file of the backup that does not exist at the
    destination are parts to copy. *)
Lemma absent_copied (q : string) (L : Z) (p : Part) :
  (q, L) ∈ files →
  (∀ data, OS.nodes o2 !! full q ≠ Some (OS.File data)) →
  p ∈ Spec.slices M q L →
  p ∈ toCopy.
Proof.
  intros Hf Habs Hp. apply elem_of_PartsDifference. split.
  - apply elem_of_sorted. by exists q, L.
  - intros Hkey. apply list_elem_of_fmap in Hkey as (p' & Hk & Hp').
    destruct (listed_file p' Hp') as [data Hfile].
    destruct (slices_Path M HM q L p) as [Hq _]; [by apply (Hsizes q)|done|].
    assert (Path p' = q) as Hq'.
    { unfold Common.key in Hk. inversion Hk. congruence. }
    rewrite Hq' in Hfile. by apply (Habs data).
Qed.

(** A group of parts to copy, sorted, is the slicing of a file of the
    backup that does not exist at the destination. *)
Lemma group_slices (k : string) (g : list Part) :
  (k, g) ∈ map_to_list (groupByPath toCopy) →
  ∃ L, (k, L) ∈ files
       ∧ Common.SortParts g = Spec.slices M k L
       ∧ ∀ data, OS.nodes o2 !! full k ≠ Some (OS.File data).
Proof.
  intros Hg.
  destruct (groupByPath_groups toCopy) as (_ & Hiff & _).
  apply Hiff in Hg as [Hne Hg].
  destruct g as [|p0 g0] eqn:Eg; [done|]. rewrite <- Eg in *. clear Hne.
  assert (Hp0 : p0 ∈ g) by (rewrite Eg; left).
  rewrite Hg in Hp0. apply list_elem_of_filter in Hp0 as [Hk0 Hp0].
  destruct (copy_absent p0 Hp0) as (L & Hf & _ & Habs).
  rewrite Hk0 in Hf, Habs. exists L. split; [done|]. split; [|done].
  assert (HL : 0 <= L) by (by apply (Hsizes k)).
  assert (Hgs : g = filter (λ p, Path p = k) sorted).
  { rewrite Hg. unfold Common.PartsDifference. apply filter_filter_implies.
    intros p Hp Hpk. apply elem_of_sorted in Hp as (q' & L' & Hf' & Hp).
    destruct (slices_Path M HM q' L' p) as [Hq' _]; [by apply (Hsizes q')|done|].
    rewrite Hpk in Hq'. subst q'.
    assert (L' = L) by (by apply (files_size_unique files Hnd k)). subst L'.
    pose proof (absent_copied k L p Hf Habs Hp) as Hc.
    by apply elem_of_PartsDifference in Hc as [_ ?]. }
  assert (Hperm : Common.SortParts g ≡ₚ Spec.slices M k L).
  { rewrite SortParts_Permutation, Hgs.
    rewrite <- (filter_canonical M HM files Hnd Hsizes k L Hf).
    apply filter_Permutation. by rewrite (SortParts_Permutation srcParts). }
  apply (StronglySorted_unique_strong Common.partLe).
  - intros p p' Hp Hp' Hle Hle'.
    destruct (partLe_antisym p p' Hle Hle') as [_ Hoff].
    rewrite Hperm in Hp. by apply (slices_offset_inj M HM k L).
  - apply SortParts_StronglySorted.
  - by apply slices_sorted.
  - done.
Qed.

(** The download phase that succeeded: the regular files below the
    directory are then the files of the backup, with their sizes. *)
Lemma downloadPhase_files (w2 w3 : world) :
  os w2 = o2 →
  Spec.accessible dst o2 →
  downloadPhase src dst toCopy w2 = (Ok tt, w3) →
  OS.denied (os w3) = OS.denied o2
  ∧ Spec.accessible dst (os w3)
  ∧ (∀ file data,
       String.prefix dir file = true →
       OS.nodes (os w3) !! file = Some (OS.File data) →
       (Fslocal.trimPrefix dir file, Z.of_nat (length data)) ∈ files)
  ∧ (∀ q L, (q, L) ∈ files →
            ∃ data, OS.nodes (os w3) !! full q = Some (OS.File data)
                    ∧ Z.of_nat (length data) = L)
  ∧ (toCopy ≠ [] → OS.isDir <$> (OS.nodes (os w3) !! Fslocal.Dir dst) = Some true)
  ∧ (toCopy = [] → w3 = w2).
Proof.
  intros Hos Hacc Hdl.
  destruct (groupByPath_groups toCopy) as (Hgnd & Hiff & _).
  set (groups := map_to_list (groupByPath toCopy)) in *.
  assert (Hgroup : ∀ k g, (k, g) ∈ groups →
            ∃ L, (k, L) ∈ files ∧ 0 <= L < 2 ^ 63
                 ∧ Common.SortParts g = Spec.slices M k L
                 ∧ Spec.totalSize (Common.SortParts g) = L
                 ∧ ∀ data, OS.nodes o2 !! full k ≠ Some (OS.File data)).
  { intros k g Hg. destruct (group_slices k g Hg) as (L & Hf & Hs & Habs).
    exists L. pose proof (Hsizes k L Hf) as HL.
    split; [done|]. split; [done|]. split; [done|]. split; [|done].
    rewrite Hs. apply (totalSize_slices M HM). lia. }
  assert (Hrun : Spec.extends (full <$> groups.*1) o2 (os w3)
                 ∧ (∀ k g, (k, g) ∈ groups →
                      (full k ∉ OS.denied o2)
                      ∧ ∃ data, OS.nodes (os w3) !! full k = Some (OS.File data)
                                ∧ Z.of_nat (length data)
                                  = Spec.totalSize (Common.SortParts g))
                 ∧ (toCopy ≠ [] →
                    OS.isDir <$> (OS.nodes (os w3) !! Fslocal.Dir dst) = Some true)
                 ∧ (toCopy = [] → w3 = w2)).
  { unfold downloadPhase in Hdl.
    destruct (decide (0 < length toCopy)%nat) as [Hlen|Hlen].
    - unfold iobind in Hdl. fold groups in Hdl.
      destruct (runParallelPerPath_inv src dst groups _ w3 Hdl Hgnd)
        as (Hext & Hfiles & Hd).
      { intros k g Hg. cbn [os]. rewrite Hos.
        destruct (Hgroup k g Hg) as (L & Hf & HL & Hs & Ht & Habs).
        split; [rewrite Hs; apply (slices_nonempty M HM); lia|].
        split; [lia|]. split.
        - unfold Spec.fileSize.
          destruct (OS.nodes o2 !! full k) as [[data|]|] eqn:Hn; [|done|done].
          by destruct (Habs data).
        - intros i p Hi. rewrite Hs in Hi |- *.
          destruct (slices_tiled M HM k L) as (_ & _ & Hall); [lia|].
          destruct (Hall i p Hi) as (Hq & _ & Hoff & Hsz & _).
          split; [done|]. split; [done|lia]. }
      cbn [os] in Hext, Hfiles. rewrite Hos in Hext, Hfiles.
      split; [done|]. split; [done|]. split.
      + intros Hne. apply Hd; [|done]. intros Hnil.
        destruct toCopy as [|p ps] eqn:Ec; [done|].
        assert ((Path p, filter (λ p', Path p' = Path p) (p :: ps)) ∈ groups) as Hin.
        { apply Hiff. split; [|done]. rewrite filter_cons_True by done. done. }
        rewrite Hnil in Hin. by apply not_elem_of_nil in Hin.
      + intros Hnil. rewrite Hnil in Hlen. simpl in Hlen. lia.
    - assert (Hnil : toCopy = []).
      { destruct toCopy; [done|]. simpl in Hlen. lia. }
      inversion Hdl; subst w3. rewrite Hos.
      assert (groups = []) as ->.
      { unfold groups. rewrite Hnil. done. }
      split; [apply extends_refl|]. split.
      + intros k g Hg. by apply not_elem_of_nil in Hg.
      + split; [done|]. done. }
  destruct Hrun as (Hext & Hfiles & Hd & Hsame).
  assert (Hnames : ∀ name, name ∈ full <$> groups.*1 →
                           ∃ k g, name = full k ∧ (k, g) ∈ groups).
  { intros name Hin. apply list_elem_of_fmap in Hin as (k & -> & Hk).
    apply list_elem_of_fmap in Hk as ([k' g] & -> & Hg). by exists k', g. }
  destruct Hext as (Hden & Hkeep & Hnew).
  split; [done|]. split; [|split; [|split; [|split; [done|done]]]].
  - intros name Hpre [n Hn]. rewrite Hden.
    destruct (decide (name ∈ full <$> groups.*1)) as [Hin|Hnin].
    + destruct (Hnames name Hin) as (k & g & -> & Hg).
      by destruct (Hfiles k g Hg) as [? _].
    + destruct (Hnew name n Hnin Hn) as [Hold|(_ & _ & ?)]; [|done].
      apply Hacc; [done|]. by rewrite Hold.
  - intros file data Hpre Hfile.
    destruct (decide (file ∈ full <$> groups.*1)) as [Hin|Hnin].
    + destruct (Hnames file Hin) as (k & g & -> & Hg).
      destruct (Hfiles k g Hg) as (_ & data' & Hfile' & Hlen).
      destruct (Hgroup k g Hg) as (L & Hf & _ & _ & Ht & _).
      rewrite (trimPrefix_fullName dst k).
      assert (data' = data) by congruence. subst data'.
      by rewrite Hlen, Ht.
    + destruct (Hnew file _ Hnin Hfile) as [Hold|(_ & ? & _)]; [|done].
      by apply Hsurv.
  - intros q L Hf.
    destruct (OS.nodes o2 !! full q) as [[data|]|] eqn:Hn.
    + exists data. split.
      * apply Hkeep; [|done]. intros Hin.
        destruct (Hnames _ Hin) as (k & g & Heq & Hg).
        apply full_inj in Heq. subst k.
        destruct (Hgroup q g Hg) as (_ & _ & _ & _ & _ & Habs).
        by apply Habs in Hn.
      * pose proof (Hsurv _ data (prefix_fullName dst q) Hn) as Hin.
        rewrite (trimPrefix_fullName dst q) in Hin.
        by apply (files_size_unique files Hnd q).
    + assert (Hcopied : ∀ p, p ∈ Spec.slices M q L → p ∈ toCopy).
      { intros p Hp. apply (absent_copied q L p Hf); [|done].
        intros data Hd'. congruence. }
      destruct (Spec.slices M q L) as [|p ps] eqn:Hsl.
      { apply (slices_nonempty M HM) in Hsl; [done|]. by apply (Hsizes q). }
      assert (Hp : p ∈ toCopy) by (apply Hcopied; left).
      assert (Hg : (q, filter (λ p', Path p' = q) toCopy) ∈ groups).
      { apply Hiff. split; [|done]. intros Hnil.
        assert (p ∈ filter (λ p', Path p' = q) toCopy) as Hin.
        { apply list_elem_of_filter. split; [|done].
          destruct (slices_Path M HM q L p) as [? _];
            [by apply (Hsizes q) | rewrite Hsl; left | done]. }
        rewrite Hnil in Hin. by apply not_elem_of_nil in Hin. }
      destruct (Hfiles _ _ Hg) as (_ & data & Hfile & Hlen).
      destruct (Hgroup _ _ Hg) as (L' & Hf' & _ & _ & Ht & _).
      exists data. split; [done|]. rewrite Hlen, Ht.
      by apply (files_size_unique files Hnd q).
    + assert (Hcopied : ∀ p, p ∈ Spec.slices M q L → p ∈ toCopy).
      { intros p Hp. apply (absent_copied q L p Hf); [|done].
        intros data Hd'. congruence. }
      destruct (Spec.slices M q L) as [|p ps] eqn:Hsl.
      { apply (slices_nonempty M HM) in Hsl; [done|]. by apply (Hsizes q). }
      assert (Hp : p ∈ toCopy) by (apply Hcopied; left).
      assert (Hg : (q, filter (λ p', Path p' = q) toCopy) ∈ groups).
      { apply Hiff. split; [|done]. intros Hnil.
        assert (p ∈ filter (λ p', Path p' = q) toCopy) as Hin.
        { apply list_elem_of_filter. split; [|done].
          destruct (slices_Path M HM q L p) as [? _];
            [by apply (Hsizes q) | rewrite Hsl; left | done]. }
        rewrite Hnil in Hin. by apply not_elem_of_nil in Hin. }
      destruct (Hfiles _ _ Hg) as (_ & data & Hfile & Hlen).
      destruct (Hgroup _ _ Hg) as (L' & Hf' & _ & _ & Ht & _).
      exists data. split; [done|]. rewrite Hlen, Ht.
      by apply (files_size_unique files Hnd q).
Qed.

End AfterDelete.

(** A destination whose regular files are the files of the backup lists
    the parts of the backup. *)
Lemma restored_parts (o3 : OS.state) (p : Part) :
  (∀ file data,
     String.prefix dir file = true →
     OS.nodes o3 !! file = Some (OS.File data) →
     (Fslocal.trimPrefix dir file, Z.of_nat (length data)) ∈ files) →
  (∀ q L, (q, L) ∈ files →
          ∃ data, OS.nodes o3 !! full q = Some (OS.File data)
                  ∧ Z.of_nat (length data) = L) →
  p ∈ Fscommon.filesBelow o3 (Fslocal.Dir dst) ≫= Spec.partsOfFile M o3 dir
  ↔ p ∈ srcParts.
Proof.
  intros Ha Hb. rewrite Hsrc, elem_of_canonical. split.
  - intros Hp. apply list_elem_of_bind in Hp as (file & Hp & Hfile).
    apply elem_of_filesBelow in Hfile as [Hpre Hfile].
    destruct (OS.nodes o3 !! file) as [[data|]|] eqn:Hn; [|done|done].
    exists (Fslocal.trimPrefix dir file), (Z.of_nat (length data)).
    split; [by apply Ha|].
    unfold Spec.partsOfFile, OS.sizeOf in Hp. by rewrite Hn in Hp.
  - intros (q & L & Hf & Hp). destruct (Hb q L Hf) as (data & Hfile & Hlen).
    apply (file_listed o3 q data); [done|]. by rewrite Hlen.
Qed.

Lemma restored_ListParts (o3 : OS.state) :
  (Fslocal.Dir dst ∉ OS.denied o3) →
  is_Some (OS.nodes o3 !! Fslocal.Dir dst) →
  Spec.accessible dst o3 →
  (∀ file data,
     String.prefix dir file = true →
     OS.nodes o3 !! file = Some (OS.File data) →
     (Fslocal.trimPrefix dir file, Z.of_nat (length data)) ∈ files) →
  Fslocal.ListParts M dst o3
  = Ok (Fscommon.filesBelow o3 (Fslocal.Dir dst) ≫= Spec.partsOfFile M o3 dir).
Proof.
  intros Hden [n Hn] Hacc Ha.
  apply (ListParts_ok M HM dst o3 (OS.info n)).
  - unfold OS.Stat. rewrite decide_False by done. by rewrite Hn.
  - unfold Fscommon.AppendFiles. rewrite bool_decide_false; [done|].
    intros (d & Hd & Hpre & Hisdir). apply (Hacc d); [done| |done].
    by destruct (OS.nodes o3 !! d).
  - intros file Hfile. apply elem_of_filesBelow in Hfile as [Hpre Hfile].
    destruct (OS.nodes o3 !! file) as [[data|]|] eqn:Hf; [|done|done].
    split.
    + apply Hacc; [done|]. by rewrite Hf.
    + unfold OS.sizeOf. rewrite Hf. cbn [OS.info OS.fi_size].
      by apply (Hsizes _ _ (Ha file data Hpre Hf)).
Qed.

(** A run that succeeded, from a sliced backup: the regular files below the
    directory are the files of the backup with their sizes, and the listing
    of the destination succeeds. *)
Lemma run_restores (c : Z) (w : world) (report : Report) :
  rListParts src = Ok srcParts →
  Spec.wellFormed dst (os w) →
  (Run M (mkRestore c src dst) w).1 = Ok report →
  let o3 := os (Run M (mkRestore c src dst) w).2 in
  Fslocal.ListParts M dst o3
  = Ok (Fscommon.filesBelow o3 (Fslocal.Dir dst) ≫= Spec.partsOfFile M o3 dir)
  ∧ (∀ file data,
       String.prefix dir file = true →
       OS.nodes o3 !! file = Some (OS.File data) →
       (Fslocal.trimPrefix dir file, Z.of_nat (length data)) ∈ files)
  ∧ (∀ q L, (q, L) ∈ files →
            ∃ data, OS.nodes o3 !! full q = Some (OS.File data)
                    ∧ Z.of_nat (length data) = L)
  ∧ Validate.validate sorted = Ok tt
  ∧ backupSize report = getPartsSize srcParts.
Proof.
  intros Hlist Hwf Hrun o3.
  destruct (Run_inv M _ w report Hrun)
    as (srcParts' & dstParts1 & ds & w2 & dstParts2
        & Hlist' & Hl1 & Hval & Hdel & Hl2 & Hdl & Hrep).
  cbn [Src Dst] in *. fold o3 in Hdl.
  assert (srcParts' = srcParts) by congruence. subst srcParts'.
  destruct (survivors w dstParts1 Hwf Hl1) as (Hwf2 & Hden2 & Hsurv).
  rewrite Hdel in Hwf2, Hden2, Hsurv. cbn [snd] in Hwf2, Hden2, Hsurv.
  destruct (ListParts_wf M HM dst (os w2) dstParts2 Hwf2 Hl2) as (_ & Hacc2 & Heq2).
  rewrite Heq2 in Hdl.
  destruct (downloadPhase_files (os w2) Hsurv w2 _ eq_refl Hacc2 Hdl)
    as (Hden3 & Hacc3 & Ha & Hb & Hd & Hsame).
  fold o3 in Hden3, Hacc3, Ha, Hb, Hd.
  split; [|split; [done|split; [done|split; [done|by rewrite Hrep]]]].
  destruct (decide (Common.PartsDifference sorted
                      (Fscommon.filesBelow (os w2) (Fslocal.Dir dst)
                         ≫= Spec.partsOfFile M (os w2) dir) = [])) as [Hnil|Hne].
  - unfold o3. rewrite (Hsame Hnil). by rewrite <- Heq2.
  - apply restored_ListParts; [by rewrite Hden3 | | done | done].
    specialize (Hd Hne). by destruct (OS.nodes o3 !! Fslocal.Dir dst).
Qed.

End Restored.

Lemma wellFormed_tree : Spec.wellFormed Examples.dst Examples.tree.
Proof.
  split.
  - intros H. exfalso. vm_compute in H. discriminate H.
  - intros name _. unfold OS.sizeOf, Examples.tree. cbn [OS.nodes].
    destruct (decide (name = "/d/big")) as [->|Hbig]; [vm_compute; reflexivity|].
    rewrite lookup_insert_ne by done.
    destruct (decide (name = "/d/empty")) as [->|Hempty]; [vm_compute; reflexivity|].
    rewrite lookup_insert_ne by done.
    destruct (decide (name = "/d")) as [->|Hd]; [vm_compute; reflexivity|].
    rewrite lookup_singleton_ne by done. reflexivity.
Qed.





(** ** What a run changes, and when *)

(** X3: a run changes nothing before it has validated the backup. If [Run]
    leaves the world (the file system, the counter or the events) other
    than it found it, then the listing of the source and the listing of
    the destination succeeded, the sorted source parts passed the
    validation, and the two listings differ by identity: some part of the
    destination is not in the source, or some part of the source is not in
    the destination. *)
Theorem Run_changes_only_after_validation (M : Z) (r : Actions.Restore)
    (w : Actions.world) :
  (Actions.Run M r w).2 ≠ w →
  ∃ srcParts dstParts,
    Actions.rListParts (Actions.Src r) = Ok srcParts
    ∧ Fslocal.ListParts M (Actions.Dst r) (Actions.os w) = Ok dstParts
    ∧ Validate.validate (Common.SortParts srcParts) = Ok tt
    ∧ ((∃ p, p ∈ dstParts ∧ Common.key p ∉ Common.key <$> srcParts)
       ∨ (∃ p, p ∈ srcParts ∧ Common.key p ∉ Common.key <$> dstParts)).
Proof.
  intros Hch.
  destruct (Actions.rListParts (Actions.Src r)) as [srcParts|msg] eqn:Hsrc.
  2: { exfalso. apply Hch. unfold Actions.Run. by rewrite Hsrc. }
  destruct (Fslocal.ListParts M (Actions.Dst r) (Actions.os w))
    as [dstParts|e] eqn:Hdst.
  2: { exfalso. apply Hch. unfold Actions.Run. rewrite Hsrc.
       unfold Actions.iobind at 1. unfold Actions.lift at 1.
       unfold Actions.iobind at 1. unfold Actions.listDst at 1. by rewrite Hdst. }
  destruct (Validate.validate (Common.SortParts srcParts)) as [[]|e] eqn:Hval.
  2: { exfalso. apply Hch. unfold Actions.Run. rewrite Hsrc.
       unfold Actions.iobind at 1. unfold Actions.lift at 1.
       unfold Actions.iobind at 1. rewrite (listDst_eq _ _ _ _ _ Hdst).
       unfold Actions.iobind at 1. unfold Actions.lift at 1. by rewrite Hval. }
  exists srcParts, dstParts. split; [done|]. split; [done|]. split; [done|].
  destruct (decide (Common.PartsDifference dstParts srcParts = [])) as [Hdel|Hdel].
  - destruct (decide (Common.PartsDifference srcParts dstParts = [])) as [Hcopy|Hcopy].
    + exfalso. apply Hch.
      rewrite (Run_nothing_to_do M r w srcParts dstParts Hsrc Hdst Hval); [done| |].
      * by apply PartsDifference_nil_iff.
      * by apply PartsDifference_nil_iff.
    + right. destruct (Common.PartsDifference srcParts dstParts) as [|p l] eqn:E;
        [done|].
      exists p. apply elem_of_PartsDifference. rewrite E. left.
  - left. destruct (Common.PartsDifference dstParts srcParts) as [|p l] eqn:E;
      [done|].
    exists p. apply elem_of_PartsDifference. rewrite E. left.
Qed.

Lemma Run_changes_only_after_validation_witness :
  ∃ srcParts dstParts,
    Actions.rListParts (Actions.Src Examples.restore) = Ok srcParts
    ∧ Fslocal.ListParts (2 ^ 30) (Actions.Dst Examples.restore)
        (Actions.os Examples.fresh) = Ok dstParts
    ∧ Validate.validate (Common.SortParts srcParts) = Ok tt
    ∧ ((∃ p, p ∈ dstParts ∧ Common.key p ∉ Common.key <$> srcParts)
       ∨ (∃ p, p ∈ srcParts ∧ Common.key p ∉ Common.key <$> dstParts)).
Proof.
  apply (Run_changes_only_after_validation (2 ^ 30) Examples.restore Examples.fresh).
  intros H. apply (f_equal (λ w, length (Actions.log w))) in H.
  vm_compute in H. discriminate H.
Defined.

(** X4: a run on a destination that is up to date has nothing to do. When
    the listing of the destination holds the identities of the source
    parts and no other, and the sorted source parts pass the validation,
    [Run] returns no error, reports the size of the backup and 0 deleted
    and 0 downloaded bytes, and leaves the file system, the counter and the
    events as they are. *)
Theorem Run_up_to_date (M : Z) (r : Actions.Restore) (w : Actions.world)
    (srcParts dstParts : list Part) :
  Actions.rListParts (Actions.Src r) = Ok srcParts →
  Fslocal.ListParts M (Actions.Dst r) (Actions.os w) = Ok dstParts →
  Validate.validate (Common.SortParts srcParts) = Ok tt →
  (∀ k, k ∈ Common.key <$> dstParts ↔ k ∈ Common.key <$> srcParts) →
  Actions.Run M r w
  = (Ok (Actions.mkReport (Actions.getPartsSize srcParts) 0 0), w).
Proof.
  intros Hsrc Hdst Hval Hkeys. apply (Run_nothing_to_do M r w srcParts dstParts).
  - done.
  - done.
  - done.
  - intros p Hp. apply Hkeys. apply list_elem_of_fmap. by exists p.
  - intros p Hp. apply Hkeys. apply list_elem_of_fmap. by exists p.
Qed.

Lemma Run_up_to_date_witness :
  Actions.Run 2 Examples.restoreMirror Examples.world0
  = (Ok (Actions.mkReport 5 0 0), Examples.world0).
Proof.
  assert (Hdst : Fslocal.ListParts 2 (Actions.Dst Examples.restoreMirror)
                   (Actions.os Examples.world0) = Ok Examples.listing)
    by (vm_compute; reflexivity).
  assert (Hval : Validate.validate (Common.SortParts (reverse Examples.listing))
                 = Ok tt) by (vm_compute; reflexivity).
  apply (Run_up_to_date 2 Examples.restoreMirror Examples.world0
           (reverse Examples.listing) Examples.listing).
  - reflexivity.
  - exact Hdst.
  - exact Hval.
  - intros k. rewrite fmap_reverse, elem_of_reverse. reflexivity.
Defined.

(** ** The events of a run *)

Section LogFacts.
Import Actions.
Variable src : RemoteFS.
Variable dst : Fslocal.FS.

Lemma deletePath_log (path : string) (w : world) :
  log (deletePath dst path w).2 = log w ++ [EvDelete path].
Proof.
  unfold deletePath, iobind, emit. cbn [os bytesDownloaded log].
  by destruct (Fslocal.DeletePath dst path (os w)) as [[size o']|e].
Qed.

Lemma deletePaths_log (paths : list string) :
  ∀ (acc : Z) (w : world),
    ∃ k, log (deletePaths dst paths acc w).2 = log w ++ (EvDelete <$> take k paths).
Proof.
  induction paths as [|path paths IH]; intros acc w.
  - exists 0%nat. cbn. by rewrite app_nil_r.
  - cbn [deletePaths]. unfold iobind.
    pose proof (deletePath_log path w) as Hlog.
    destruct (deletePath dst path w) as [[size|e] w1]; cbn [snd] in *.
    + destruct (IH (U64.add acc size) w1) as [k Hk].
      exists (S k). rewrite Hk, Hlog. cbn [take fmap list_fmap].
      by rewrite <- app_assoc.
    + exists 1%nat. rewrite Hlog. cbn [take fmap list_fmap]. by rewrite take_0.
Qed.

Lemma deletePhase_log (partsToDelete : list Part) (w : world) :
  ∃ dels,
    log (deletePhase dst partsToDelete w).2 = log w ++ (EvDelete <$> dels)
    ∧ NoDup dels
    ∧ ∀ d, d ∈ dels → ∃ p, p ∈ partsToDelete ∧ Path p = d.
Proof.
  unfold deletePhase.
  destruct (decide (0 < length partsToDelete)%nat) as [Hlen|Hlen].
  - destruct (deletePaths_log (elements (pathsToDelete partsToDelete)) 0 w)
      as [k Hk].
    exists (take k (elements (pathsToDelete partsToDelete))). split; [|split].
    + unfold iobind.
      destruct (deletePaths dst (elements (pathsToDelete partsToDelete)) 0 w)
        as [[size|e] w1]; cbn [snd] in *; [|done].
      unfold removeEmptyDirs, ret.
      by destruct (Fslocal.RemoveEmptyDirs dst (os w1)) as [o'|e].
    + apply (sublist_NoDup _ (elements (pathsToDelete partsToDelete))).
      * apply NoDup_elements.
      * apply sublist_take.
    + intros d Hd. apply subseteq_take in Hd. apply elem_of_elements in Hd.
      unfold pathsToDelete in Hd. apply elem_of_list_to_set in Hd.
      apply list_elem_of_fmap in Hd as (p & -> & Hp). by exists p.
  - exists []. unfold ret. cbn. rewrite app_nil_r. split; [done|].
    split; [apply NoDup_nil_2|]. intros d Hd. by apply not_elem_of_nil in Hd.
Qed.

Lemma copyPart_log (p : Part) (w : world) :
  ∃ l, log (copyPart src dst p w).2 = log w ++ l
       ∧ l `prefix_of` [EvOpen p; EvDownload p; EvClose p].
Proof.
  unfold copyPart. unfold iobind at 1.
  pose proof (openPart_log dst p w) as Hopen.
  destruct (openPart dst p w) as [[wc|e] w1]; cbn [snd] in *.
  2: { exists [EvOpen p]. split; [done|]. by exists [EvDownload p; EvClose p]. }
  unfold iobind at 1.
  pose proof (downloadPart_log src p wc w1) as Hdown.
  destruct (downloadPart src p wc w1) as [[wc'|e] w2]; cbn [snd] in *.
  2: { exists [EvOpen p; EvDownload p]. split.
       - rewrite Hdown, Hopen. by rewrite <- app_assoc.
       - by exists [EvClose p]. }
  exists [EvOpen p; EvDownload p; EvClose p]. split; [|done].
  rewrite (closePart_log p wc' w2), Hdown, Hopen. by rewrite <- !app_assoc.
Qed.

Lemma copyParts_log (ps : list Part) :
  ∀ (w : world),
    ∃ l, log (copyParts src dst ps w).2 = log w ++ l
         ∧ ∀ e, e ∈ l → ∃ p, p ∈ ps ∧ e ∈ [EvOpen p; EvDownload p; EvClose p].
Proof.
  induction ps as [|p ps IH]; intros w.
  - exists []. cbn. rewrite app_nil_r. split; [done|].
    intros e He. by apply not_elem_of_nil in He.
  - cbn [copyParts]. unfold iobind.
    destruct (copyPart_log p w) as (l1 & Hl1 & Hpre).
    assert (Hl1in : ∀ e, e ∈ l1 → e ∈ [EvOpen p; EvDownload p; EvClose p]).
    { intros e He. destruct Hpre as [l' ->]. apply elem_of_app. by left. }
    destruct (copyPart src dst p w) as [[[]|e] w1]; cbn [snd] in *.
    + destruct (IH w1) as (l2 & Hl2 & Hin2). exists (l1 ++ l2). split.
      * rewrite Hl2, Hl1. by rewrite <- app_assoc.
      * intros e He. apply elem_of_app in He as [He|He].
        -- exists p. split; [left|by apply Hl1in].
        -- destruct (Hin2 e He) as (p' & Hp' & He'). exists p'. split; [by right|done].
    + exists l1. split; [done|]. intros e' He. exists p. split; [left|by apply Hl1in].
Qed.

Lemma runParallelPerPath_log (groups : list (string * list Part)) :
  ∀ (w : world),
    ∃ l, log (runParallelPerPath (copyGroup src dst) groups w).2 = log w ++ l
         ∧ ∀ e, e ∈ l →
                ∃ k g p, (k, g) ∈ groups ∧ p ∈ g
                         ∧ e ∈ [EvOpen p; EvDownload p; EvClose p].
Proof.
  induction groups as [|[k g] groups IH]; intros w.
  - exists []. cbn. rewrite app_nil_r. split; [done|].
    intros e He. by apply not_elem_of_nil in He.
  - cbn [runParallelPerPath]. unfold iobind, copyGroup at 1.
    destruct (copyParts_log (Common.SortParts g) w) as (l1 & Hl1 & Hin1).
    assert (Hin1' : ∀ e, e ∈ l1 →
              ∃ k' g' p, (k', g') ∈ (k, g) :: groups ∧ p ∈ g'
                         ∧ e ∈ [EvOpen p; EvDownload p; EvClose p]).
    { intros e He. destruct (Hin1 e He) as (p & Hp & He').
      exists k, g, p. split; [left|]. split; [|done].
      by rewrite <- (SortParts_Permutation g). }
    destruct (copyParts src dst (Common.SortParts g) w) as [[[]|e] w1];
      cbn [snd] in *.
    + destruct (IH w1) as (l2 & Hl2 & Hin2). exists (l1 ++ l2). split.
      * rewrite Hl2, Hl1. by rewrite <- app_assoc.
      * intros e He. apply elem_of_app in He as [He|He]; [by apply Hin1'|].
        destruct (Hin2 e He) as (k' & g' & p & Hg & Hp & He').
        exists k', g', p. split; [by right|done].
    + by exists l1.
Qed.

Lemma downloadPhase_log (partsToCopy : list Part) (w : world) :
  ∃ l, log (downloadPhase src dst partsToCopy w).2 = log w ++ l
       ∧ ∀ e, e ∈ l →
              ∃ p, p ∈ partsToCopy ∧ e ∈ [EvOpen p; EvDownload p; EvClose p].
Proof.
  unfold downloadPhase.
  destruct (decide (0 < length partsToCopy)%nat) as [Hlen|Hlen].
  - unfold iobind.
    destruct (runParallelPerPath_log (map_to_list (groupByPath partsToCopy))
                (mkWorld (os w) 0 (log w))) as (l & Hl & Hin).
    exists l. split; [done|]. intros e He.
    destruct (Hin e He) as (k & g & p & Hg & Hp & He').
    exists p. split; [|done].
    destruct (groupByPath_groups partsToCopy) as (_ & Hiff & _).
    apply Hiff in Hg as [_ ->]. by apply list_elem_of_filter in Hp as [_ ?].
  - exists []. unfold ret. cbn. rewrite app_nil_r. split; [done|].
    intros e He. by apply not_elem_of_nil in He.
Qed.

End LogFacts.

(** X5: a run deletes before it downloads, and only what the listings tell
    it to. Whatever [Run] returns, the events it adds are calls of
    [DeletePath], each for another path, followed by the calls for parts
    to copy (open the writer, download, close); no file is deleted once a
    download has begun. Every deleted path is the path of a part of the
    first listing of the destination whose identity the source does not
    have, and every part that is opened, downloaded or closed is a part of
    the source. *)
Theorem Run_deletes_before_it_downloads (M : Z) (r : Actions.Restore)
    (w : Actions.world) :
  ∃ dels copies,
    Actions.log (Actions.Run M r w).2
    = Actions.log w ++ (Actions.EvDelete <$> dels) ++ copies
    ∧ NoDup dels
    ∧ (∀ d, d ∈ dels →
            ∃ srcParts dstParts p,
              Actions.rListParts (Actions.Src r) = Ok srcParts
              ∧ Fslocal.ListParts M (Actions.Dst r) (Actions.os w) = Ok dstParts
              ∧ p ∈ dstParts ∧ Path p = d
              ∧ Common.key p ∉ Common.key <$> srcParts)
    ∧ (∀ e, e ∈ copies →
            ∃ srcParts p,
              Actions.rListParts (Actions.Src r) = Ok srcParts
              ∧ p ∈ srcParts
              ∧ e ∈ [Actions.EvOpen p; Actions.EvDownload p; Actions.EvClose p]).
Proof.
  assert (Hnone : ∀ w' : Actions.world,
            Actions.log w' = Actions.log w →
            ∃ dels copies,
              Actions.log w' = Actions.log w ++ (Actions.EvDelete <$> dels) ++ copies
              ∧ NoDup dels
              ∧ (∀ d, d ∈ dels →
                   ∃ srcParts dstParts p,
                     Actions.rListParts (Actions.Src r) = Ok srcParts
                     ∧ Fslocal.ListParts M (Actions.Dst r) (Actions.os w) = Ok dstParts
                     ∧ p ∈ dstParts ∧ Path p = d
                     ∧ Common.key p ∉ Common.key <$> srcParts)
              ∧ (∀ e, e ∈ copies →
                   ∃ srcParts p,
                     Actions.rListParts (Actions.Src r) = Ok srcParts
                     ∧ p ∈ srcParts
                     ∧ e ∈ [Actions.EvOpen p; Actions.EvDownload p;
                            Actions.EvClose p])).
  { intros w' Hw'. exists [], []. cbn. rewrite app_nil_r. split; [done|].
    split; [apply NoDup_nil_2|]. split.
    - intros d Hd. by apply not_elem_of_nil in Hd.
    - intros e He. by apply not_elem_of_nil in He. }
  unfold Actions.Run. unfold Actions.iobind at 1. unfold Actions.lift at 1.
  destruct (Actions.rListParts (Actions.Src r)) as [srcParts|msg] eqn:Hsrc;
    [|by apply Hnone].
  unfold Actions.iobind at 1. unfold Actions.listDst at 1.
  destruct (Fslocal.ListParts M (Actions.Dst r) (Actions.os w))
    as [dstParts|e1] eqn:Hdst; [|by apply Hnone].
  unfold Actions.iobind at 1. unfold Actions.lift at 1.
  destruct (Validate.validate (Common.SortParts srcParts)) as [[]|e2];
    [|by apply Hnone].
  clear Hnone. unfold Actions.iobind at 1.
  destruct (deletePhase_log (Actions.Dst r)
              (Common.PartsDifference dstParts (Common.SortParts srcParts)) w)
    as (dels & Hdels & Hnd & Hin).
  assert (Hdel : ∀ d, d ∈ dels →
            ∃ srcParts0 dstParts0 p,
              @Ok string (list Part) srcParts = Ok srcParts0
              ∧ @Ok Fslocal.Error (list Part) dstParts = Ok dstParts0
              ∧ p ∈ dstParts0 ∧ Path p = d
              ∧ Common.key p ∉ Common.key <$> srcParts0).
  { intros d Hd. destruct (Hin d Hd) as (p & Hp & Hpath).
    apply elem_of_PartsDifference in Hp as [Hp Hkey].
    exists srcParts, dstParts, p. split; [done|]. split; [done|].
    split; [done|]. split; [done|].
    by rewrite <- (SortParts_Permutation srcParts). }
  destruct (Actions.deletePhase (Actions.Dst r) _ w) as [[ds|e3] w2];
    cbn [snd] in Hdels.
  2: { exists dels, []. cbn [snd]. rewrite app_nil_r. split; [done|].
       split; [done|]. split; [done|]. intros e He. by apply not_elem_of_nil in He. }
  unfold Actions.iobind at 1. unfold Actions.listDst at 1.
  destruct (Fslocal.ListParts M (Actions.Dst r) (Actions.os w2))
    as [dstParts2|e4].
  2: { exists dels, []. cbn [snd]. rewrite app_nil_r. split; [done|].
       split; [done|]. split; [done|]. intros e He. by apply not_elem_of_nil in He. }
  unfold Actions.iobind at 1.
  destruct (downloadPhase_log (Actions.Src r) (Actions.Dst r)
              (Common.PartsDifference (Common.SortParts srcParts) dstParts2) w2)
    as (copies & Hcopies & Hcin).
  exists dels, copies.
  assert (Hlog : Actions.log
                   (Actions.downloadPhase (Actions.Src r) (Actions.Dst r)
                      (Common.PartsDifference (Common.SortParts srcParts) dstParts2)
                      w2).2
                 = Actions.log w ++ (Actions.EvDelete <$> dels) ++ copies).
  { rewrite Hcopies, Hdels. by rewrite <- app_assoc. }
  split.
  { destruct (Actions.downloadPhase (Actions.Src r) (Actions.Dst r) _ w2)
      as [[[]|e5] w3]; exact Hlog. }
  split; [done|]. split; [done|].
  intros e He. destruct (Hcin e He) as (p & Hp & He').
  exists srcParts, p. split; [done|]. split; [|done].
  apply elem_of_PartsDifference in Hp as [Hp _].
  by rewrite <- (SortParts_Permutation srcParts).
Qed.

(** ** The work on the parts of one file *)

(** The parts of a tiling, in any order, are sorted into the tiling. *)
Lemma SortParts_tiled (M : Z) (q : string) (L : Z) (ps parts : list Part) :
  Spec.tiled M q L ps → parts ≡ₚ ps → Common.SortParts parts = ps.
Proof.
  intros Ht Hperm. pose proof Ht as (_ & _ & Hall).
  apply (StronglySorted_unique_strong Common.partLe).
  - intros p p' Hp Hp' Hle Hle'.
    destruct (partLe_antisym p p' Hle Hle') as [_ Hoff].
    rewrite SortParts_Permutation, Hperm in Hp.
    apply list_elem_of_lookup in Hp as [i Hi].
    apply list_elem_of_lookup in Hp' as [j Hj].
    destruct (decide (i = j)) as [->|Hne]; [congruence|].
    destruct (decide (i < j)%nat).
    + pose proof (tiled_offsets_increase M q L ps i j p p' Ht ltac:(lia) Hi Hj). lia.
    + pose proof (tiled_offsets_increase M q L ps j i p' p Ht ltac:(lia) Hj Hi). lia.
  - apply SortParts_StronglySorted.
  - apply StronglySorted_lookup. intros i j p p' Hij Hi Hj. right.
    destruct (Hall i p Hi) as (Hq & _). destruct (Hall j p' Hj) as (Hq' & _).
    split; [congruence|].
    pose proof (tiled_offsets_increase M q L ps i j p p' Ht Hij Hi Hj). lia.
  - by rewrite SortParts_Permutation.
Qed.

(** X6: the work on the parts of one file grows the file to its size. When
    the parts given to the function that [Run] hands to
    [runParallelPerPath] are, in any order, a tiling of a file of [L]
    bytes (consecutive from offset 0), no regular file with bytes has the
    name of the file, and the function returns no error, then afterwards
    the file exists with [L] bytes; every other file and directory is as
    before, and what is new besides are directories. *)
Theorem copyGroup_grows_file (M : Z) (src : Actions.RemoteFS) (dst : Fslocal.FS)
    (q : string) (L : Z) (ps parts : list Part) (w w' : Actions.world) :
  Spec.tiled M q L ps →
  parts ≡ₚ ps →
  L < 2 ^ 63 →
  Spec.fileSize (Actions.os w) (Spec.fullName dst q) = 0 →
  Actions.copyGroup src dst parts w = (Ok tt, w') →
  (∃ data, OS.nodes (Actions.os w') !! Spec.fullName dst q = Some (OS.File data)
           ∧ Z.of_nat (length data) = L)
  ∧ Spec.extends [Spec.fullName dst q] (Actions.os w) (Actions.os w').
Proof.
  intros Ht Hperm HL Hzero Hcopy. unfold Actions.copyGroup in Hcopy.
  rewrite (SortParts_tiled M q L ps parts Ht Hperm) in Hcopy.
  destruct Ht as (Hne & Htot & Hall).
  destruct (copyParts_inv src dst q ps 0 w w' Hcopy) as [Hext Hfin].
  - intros k p Hk. destruct (Hall k p Hk) as (Hq & _ & Hoff & Hsz & _).
    split; [done|]. split; [lia|lia].
  - lia.
  - lia.
  - by rewrite Hzero.
  - split; [|done]. destruct (Hfin Hne) as (_ & (data & Hdata & Hlen) & _).
    exists data. split; [done|]. lia.
Qed.

Lemma copyGroup_grows_file_witness :
  (∃ data, OS.nodes (Actions.os (Actions.copyGroup Examples.src Examples.dst
                                   Examples.srcParts Examples.fresh).2)
             !! Spec.fullName Examples.dst "a" = Some (OS.File data)
           ∧ Z.of_nat (length data) = 3)
  ∧ Spec.extends [Spec.fullName Examples.dst "a"] (Actions.os Examples.fresh)
      (Actions.os (Actions.copyGroup Examples.src Examples.dst
                     Examples.srcParts Examples.fresh).2).
Proof.
  assert (Hrun : (Actions.copyGroup Examples.src Examples.dst Examples.srcParts
                    Examples.fresh).1 = Ok tt) by (vm_compute; reflexivity).
  apply (copyGroup_grows_file (2 ^ 30) Examples.src Examples.dst "a" 3
           [mkPart "a" 3 0 1 1; mkPart "a" 3 1 2 2] Examples.srcParts
           Examples.fresh).
  - split; [intros H; discriminate H|]. split; [reflexivity|].
    intros k p Hk. destruct k as [|[|k]]; simpl in Hk; inversion Hk; subst p.
    + split; [reflexivity|]. split; [reflexivity|]. split; [reflexivity|].
      split; [split; intros H; discriminate H|]. split; [reflexivity|].
      left. reflexivity.
    + split; [reflexivity|]. split; [reflexivity|]. split; [reflexivity|].
      split; [split; intros H; discriminate H|]. split; [reflexivity|].
      left. reflexivity.
  - apply perm_swap.
  - reflexivity.
  - vm_compute. reflexivity.
  - destruct (Actions.copyGroup Examples.src Examples.dst Examples.srcParts
                Examples.fresh) as [res w']. cbn [fst snd] in *. by rewrite Hrun.
Defined.

(** ** Reading a part of a local file *)

Section LimitedReader.
Import Fslocal.
Context {R : Type} `{!Reader R}.

(** The reader below keeps to the contract of [io.Reader]: it reads no
    more than the buffer holds. *)
Hypothesis Hcontract : ∀ (r : R) (len : Z),
  0 <= len → 0 <= (readR r len).1.1.1 <= len.

Lemma lrcRead_budget (lrc : limitedReadCloser R) (len : Z) :
  0 <= lrc_n lrc < U64.modulus →
  0 <= len →
  0 <= (lrcRead lrc len).1.1.1 <= Z.min len (lrc_n lrc)
  ∧ lrc_n (lrcRead lrc len).2 = lrc_n lrc - (lrcRead lrc len).1.1.1.
Proof.
  intros Hn Hlen. unfold lrcRead.
  destruct (decide (lrc_n lrc = 0)) as [Hz|Hz].
  - cbn [fst snd]. lia.
  - cbv zeta.
    set (len' := if decide (len > lrc_n lrc) then lrc_n lrc else len).
    assert (Hlen' : 0 <= len' ∧ len' = Z.min len (lrc_n lrc)).
    { unfold len'. destruct (decide (len > lrc_n lrc)); lia. }
    pose proof (Hcontract (lrc_r lrc) len' (proj1 Hlen')) as Hc.
    destruct (readR (lrc_r lrc) len') as [[[n err] bs] r']. cbn [fst snd] in Hc.
    rewrite decide_False by lia. cbn [fst snd lrc_n].
    split; [lia|].
    unfold U64.sub, U64.wrap.
    rewrite (Z.mod_small n) by (fold U64.modulus; lia).
    apply Z.mod_small. fold U64.modulus. lia.
Qed.

Lemma lrcReads_budget (lens : list Z) :
  ∀ (lrc : limitedReadCloser R),
    0 <= lrc_n lrc < U64.modulus →
    (∀ len, len ∈ lens → 0 <= len) →
    (∀ n, n ∈ (lrcReads lrc lens).1 → 0 <= n)
    ∧ foldr Z.add 0 (lrcReads lrc lens).1 + lrc_n (lrcReads lrc lens).2 = lrc_n lrc
    ∧ 0 <= lrc_n (lrcReads lrc lens).2.
Proof.
  induction lens as [|len lens IH]; intros lrc Hn Hlens.
  - cbn. split; [|lia]. intros n Hin. by apply not_elem_of_nil in Hin.
  - cbn [lrcReads].
    destruct (lrcRead_budget lrc len Hn) as [Hb Hrest]; [apply Hlens; left|].
    destruct (lrcRead lrc len) as [[[n err] bs] lrc1]. cbn [fst snd] in Hb, Hrest.
    destruct (IH lrc1) as (Hpos & Hsum & Hleft).
    { lia. }
    { intros l Hl. apply Hlens. by right. }
    destruct (lrcReads lrc1 lens) as [ns lrc2]. cbn [fst snd] in *.
    split; [|cbn [foldr]; lia].
    intros m Hm. apply elem_of_cons in Hm as [->|Hm]; [lia|]. by apply Hpos.
Qed.

End LimitedReader.

(** X7: a [limitedReadCloser] never delivers more than its limit. For a
    reader below that reads no more than its buffer holds, and a limit [n0]
    (the size of the part in [NewReadCloser]): whatever the buffers of
    successive calls of [Read], no call returns a negative number, the
    numbers of bytes of the calls and the limit that is left add up to
    [n0], so that the calls together deliver at most [n0] bytes, and once
    the limit is used up every further call returns 0 bytes and [io.EOF]
    without calling the reader below. *)
Theorem limitedReadCloser_never_exceeds {R : Type} `{!Fslocal.Reader R}
    (r : R) (n0 : Z) (lens : list Z) :
  (∀ (r' : R) (len : Z), 0 <= len → 0 <= (Fslocal.readR r' len).1.1.1 <= len) →
  0 <= n0 < U64.modulus →
  (∀ len, len ∈ lens → 0 <= len) →
  let run := Fslocal.lrcReads (Fslocal.mkLimitedReadCloser r n0) lens in
  (∀ n, n ∈ run.1 → 0 <= n)
  ∧ foldr Z.add 0 run.1 + Fslocal.lrc_n run.2 = n0
  ∧ 0 <= foldr Z.add 0 run.1 <= n0
  ∧ (foldr Z.add 0 run.1 = n0 →
     ∀ len, Fslocal.lrcRead run.2 len = ((0, Some Fslocal.EOF), [], run.2)).
Proof.
  intros Hcontract Hn0 Hlens run.
  destruct (lrcReads_budget Hcontract lens (Fslocal.mkLimitedReadCloser r n0))
    as (Hpos & Hsum & Hleft); [done|done|].
  fold run in Hpos, Hsum, Hleft. cbn [Fslocal.lrc_n] in Hsum.
  assert (Hnn : 0 <= foldr Z.add 0 run.1).
  { revert Hpos. generalize run.1. intros ns Hpos.
    induction ns as [|n ns IH]; [cbn; lia|]. cbn [foldr].
    pose proof (Hpos n ltac:(left)).
    assert (0 <= foldr Z.add 0 ns) by (apply IH; intros m Hm; apply Hpos; by right).
    lia. }
  split; [done|]. split; [done|]. split; [lia|].
  intros Hall len. unfold Fslocal.lrcRead. rewrite decide_True; [done|lia].
Qed.

Lemma limitedReadCloser_never_exceeds_witness :
  let run := @Fslocal.lrcReads _ Examples.listReader
               (Fslocal.mkLimitedReadCloser [x01; x02; x03; x04; x05] 3) [2; 2; 2] in
  (∀ n, n ∈ run.1 → 0 <= n)
  ∧ foldr Z.add 0 run.1 + Fslocal.lrc_n run.2 = 3
  ∧ 0 <= foldr Z.add 0 run.1 <= 3
  ∧ (foldr Z.add 0 run.1 = 3 →
     ∀ len, @Fslocal.lrcRead _ Examples.listReader run.2 len
            = ((0, Some Fslocal.EOF), [], run.2)).
Proof.
  apply (@limitedReadCloser_never_exceeds _ Examples.listReader).
  - intros r' len Hlen. unfold Fslocal.readR, Examples.listReader. cbn [fst].
    rewrite length_take. lia.
  - split; [intros H; discriminate H | reflexivity].
  - intros len Hin. apply list_elem_of_In in Hin. simpl in Hin.
    destruct Hin as [<-|[<-|[<-|[]]]]; intros H; discriminate H.
Defined.

(** ** Opening the writer of a part *)

(** X8: [NewWriteCloser] creates what is missing and truncates nothing. When
    it returns no error for a part whose offset fits [int64], the writer it
    returns writes to the file [Dir/Path] from the offset of the part on;
    the file exists afterwards, with the bytes it had before, or empty if
    it did not exist; every directory on the way to the file exists; and
    every other file and directory is as before, what is new besides being
    directories. *)
Theorem NewWriteCloser_creates_without_truncating (dst : Fslocal.FS) (p : Part)
    (o o2 : OS.state) (wc : Fslocal.writeCloser) :
  Fslocal.NewWriteCloser dst p o = Ok (wc, o2) →
  Offset p < 2 ^ 63 →
  let name := Fslocal.path dst p in
  wc = Fslocal.mkWriteCloser (Filestream.mkWriter name (Offset p)) name
  ∧ OS.nodes o2 !! name
    = Some (OS.File match OS.nodes o !! name with
                    | Some (OS.File data) => data
                    | _ => []
                    end)
  ∧ (∀ d, d ∈ OS.chain (OS.dirname name) →
          OS.isDir <$> (OS.nodes o2 !! d) = Some true)
  ∧ Spec.extends [name] o o2.
Proof.
  intros H Hoff name. unfold Fslocal.NewWriteCloser in H. cbv zeta in H.
  fold name in H.
  destruct (Fslocal.mkdirAll dst o name) as [o1|e] eqn:Hmk; [|done].
  cbn [bind] in H.
  destruct (mkdirAll_inv dst o o1 name Hmk) as [Hext Hdirs].
  assert (Hto : Filestream.toInt64 (Offset p) = Offset p).
  { unfold Filestream.toInt64. rewrite decide_True; [done|lia]. }
  rewrite Hto in H. unfold Filestream.OpenWriterAt in H.
  destruct Hext as (Hden & Hkeep & Hnew).
  destruct (decide (name ∈ OS.denied o1)) as [|Hnd]; [done|].
  destruct (decide (Offset p < 0)) as [|_]; [done|].
  destruct (OS.nodes o1 !! name) as [[data|]|] eqn:Hn1.
  - inversion H; subst wc o2. split; [done|].
    destruct (Hnew name (OS.File data) (not_elem_of_nil _) Hn1) as [H0|(_ & Hd & _)];
      [|done].
    rewrite H0. split; [done|]. split; [done|].
    apply (extends_mono []); [apply list_subseteq_nil|]. done.
  - done.
  - destruct (decide (OS.dirname name = EmptyString
                      ∨ OS.isDir <$> (OS.nodes o1 !! OS.dirname name) = Some true));
      [|done].
    inversion H; subst wc o2. split; [done|]. cbn [OS.nodes OS.denied].
    assert (Hn0 : OS.nodes o !! name = None).
    { destruct (OS.nodes o !! name) as [n|] eqn:Hn0; [|done].
      apply (Hkeep name n (not_elem_of_nil _)) in Hn0. congruence. }
    rewrite Hn0, lookup_insert_eq. split; [done|]. split.
    + intros d Hd. specialize (Hdirs d Hd).
      rewrite lookup_insert_ne; [done|]. intros ->. by rewrite Hn1 in Hdirs.
    + split; [done|]. cbn [OS.nodes]. split.
      * intros name' n Hne Hn. rewrite lookup_insert_ne.
        -- by apply Hkeep; [apply not_elem_of_nil|].
        -- intros ->. apply Hne. left.
      * intros name' n Hne Hn. rewrite lookup_insert_ne in Hn.
        -- by apply Hnew; [apply not_elem_of_nil|].
        -- intros ->. apply Hne. left.
Qed.

Lemma NewWriteCloser_creates_without_truncating_witness :
  let name := Fslocal.path Examples.dst (mkPart "big" 5 2 2 2) in
  Fslocal.mkWriteCloser (Filestream.mkWriter "/d/big" 2) "/d/big"
  = Fslocal.mkWriteCloser (Filestream.mkWriter name 2) name
  ∧ OS.nodes Examples.tree !! name
    = Some (OS.File match OS.nodes Examples.tree !! name with
                    | Some (OS.File data) => data
                    | _ => []
                    end)
  ∧ (∀ d, d ∈ OS.chain (OS.dirname name) →
          OS.isDir <$> (OS.nodes Examples.tree !! d) = Some true)
  ∧ Spec.extends [name] Examples.tree Examples.tree.
Proof.
  apply (NewWriteCloser_creates_without_truncating Examples.dst
           (mkPart "big" 5 2 2 2) Examples.tree Examples.tree).
  - vm_compute. reflexivity.
  - reflexivity.
Defined.

(** ** The file of a part *)

(** X9: the file of a part. [fs.path] gives parts of different paths
    different files and parts of one path the same file; the file lies
    below the directory, [Dir/], and is not the directory itself; and the
    relative path that [ListParts] computes for that file,
    [file[len(dir):]], is the path of the part again. *)
Theorem path_of_part (fs : Fslocal.FS) (p p' : Part) :
  (Fslocal.path fs p = Fslocal.path fs p' ↔ Path p = Path p')
  ∧ String.prefix (Fslocal.Dir fs +:+ "/") (Fslocal.path fs p) = true
  ∧ Fslocal.path fs p ≠ Fslocal.Dir fs
  ∧ Fslocal.trimPrefix (Fslocal.Dir fs +:+ "/") (Fslocal.path fs p) = Path p.
Proof.
  rewrite !path_fullName. split; [|split; [|split]].
  - split; [apply full_inj | by intros ->].
  - apply prefix_fullName.
  - apply fullName_neq_dir.
  - apply trimPrefix_fullName.
Qed.

(** ** What the validation guarantees *)

Lemma before_snoc (pre : list Part) (p : Part) (q : string) :
  Spec.before (pre ++ [p]) q
  = if decide (Path p = q) then Spec.before pre q ++ [p] else [].
Proof.
  induction pre as [|x pre IH].
  - cbn [app Spec.before].
    destruct (decide (Path p = q)) as [Hq|Hq].
    + rewrite decide_True; [done|]. by repeat constructor.
    + rewrite decide_False; [done|]. intros H. by inversion H.
  - change ((x :: pre) ++ [p]) with (x :: (pre ++ [p])). cbn [Spec.before].
    rewrite IH. destruct (decide (Path p = q)) as [Hq|Hq].
    + destruct (decide (Forall (λ y, Path y = q) (x :: pre))) as [Hall|Hall].
      * rewrite decide_True; [done|].
        change (x :: pre ++ [p]) with ((x :: pre) ++ [p]).
        apply Forall_app. split; [done|]. by repeat constructor.
      * rewrite decide_False; [done|]. intros H. apply Hall.
        change (x :: pre ++ [p]) with ((x :: pre) ++ [p]) in H.
        by apply Forall_app in H as [? _].
    + rewrite decide_False.
      * by destruct (decide (Forall (λ y, Path y = q) (x :: pre))).
      * intros H. change (x :: pre ++ [p]) with ((x :: pre) ++ [p]) in H.
        apply Forall_app in H as [_ H]. by inversion H.
Qed.

Lemma getPartsSize_snoc (l : list Part) (p : Part) :
  Actions.getPartsSize (l ++ [p]) = U64.add (Actions.getPartsSize l) (Size p).
Proof. unfold Actions.getPartsSize. by rewrite foldl_snoc. Qed.

Lemma hd_snoc (b : list Part) (l p : Part) : hd p (b ++ [l]) = hd l b.
Proof. by destruct b. Qed.

Section ValidateSound.
Import Validate.

(** The state of the walk after a part: the expected offset is the size of
    the parts of its file so far, and [pOld] is the first of them. *)
Lemma loop_snoc_inv (pre : list Part) :
  ∀ (p : Part) (st2 : state),
    (∀ x, x ∈ pre ++ [p] → Path x ≠ EmptyString) →
    loop init (pre ++ [p]) = Ok st2 →
    path st2 = Path p
    ∧ offset st2
      = U64.add (Actions.getPartsSize (Spec.before pre (Path p))) (Size p)
    ∧ pOld st2 = hd p (Spec.before pre (Path p))
    ∧ Offset p = Actions.getPartsSize (Spec.before pre (Path p))
    ∧ ActualSize p = Size p.
Proof.
  induction pre as [|l pre IH] using rev_ind; intros p st2 Hpaths Hloop.
  - cbn [app loop] in Hloop. unfold step, enterFile in Hloop.
    cbn [init path offset pOld zeroPart FileSize] in Hloop.
    rewrite decide_True in Hloop by (apply Hpaths; left).
    rewrite decide_False in Hloop by (intros H; by apply H).
    cbn [bind] in Hloop. unfold checkPart in Hloop.
    cbn [offset pOld path] in Hloop.
    destruct (decide (Offset p < 0)); [done|].
    destruct (decide (Offset p > 0)); [done|].
    destruct (decide (Size p ≠ ActualSize p)) as [|Heq]; [done|].
    apply dec_stable in Heq. cbn [bind] in Hloop. inversion Hloop; subst st2.
    cbn [path offset pOld Spec.before hd]. unfold Actions.getPartsSize. cbn [foldl].
    split; [done|]. split; [done|]. split; [done|]. split; [lia|done].
  - rewrite loop_app in Hloop.
    destruct (loop init (pre ++ [l])) as [st|e] eqn:Hpre; [|done].
    cbn [bind loop] in Hloop.
    destruct (IH l st) as (Hpath & Hoff & Hold & _ & _); [|done|].
    { intros x Hx. apply Hpaths. apply elem_of_app. by left. }
    destruct (step st p) as [st2'|e] eqn:Hstep; [|done].
    cbn [bind] in Hloop. inversion Hloop; subst st2'. clear Hloop.
    unfold step in Hstep.
    destruct (enterFile st p) as [st1|e] eqn:Henter; [|done].
    cbn [bind] in Hstep. rewrite before_snoc.
    assert (Hst1 : path st1 = Path p
              ∧ offset st1
                = Actions.getPartsSize
                    (if decide (Path l = Path p)
                     then Spec.before pre (Path p) ++ [l] else [])
              ∧ pOld st1
                = hd p (if decide (Path l = Path p)
                        then Spec.before pre (Path p) ++ [l] else [])).
    { unfold enterFile in Henter.
      destruct (decide (Path p ≠ path st)) as [Hne|Heq].
      - destruct (decide (offset st ≠ FileSize (pOld st))); [done|].
        inversion Henter; subst st1. cbn [path offset pOld].
        rewrite decide_False by congruence. done.
      - apply dec_stable in Heq. inversion Henter; subst st1.
        rewrite decide_True by congruence.
        split; [done|]. rewrite getPartsSize_snoc, hd_snoc.
        assert (Path p = Path l) as -> by congruence. done. }
    destruct Hst1 as (Hpath1 & Hoff1 & Hold1).
    unfold checkPart in Hstep.
    destruct (decide (Offset p < offset st1)); [done|].
    destruct (decide (Offset p > offset st1));
      [by destruct (decide (offset st1 = 0))|].
    destruct (decide (Size p ≠ ActualSize p)) as [|Heq]; [done|].
    apply dec_stable in Heq. inversion Hstep; subst st2.
    cbn [path offset pOld]. rewrite <- Hoff1, <- Hold1.
    split; [done|]. split; [done|]. split; [done|]. split; [lia|done].
Qed.

End ValidateSound.

(** X10: what a backup that passes the validation is like. When the
    validation of [Run] accepts the parts [ps] (none of which has the empty
    path), then every part starts where the parts of its file that come
    just before it end, the first part of a file at offset 0 (offsets and
    sizes add up in [uint64]); its actual size is its size; and when the
    next part is a part of another file, the part ends at the file size
    that the first part of its file gives. Nothing is required of the end
    of the last file. *)
Theorem validate_accepts_consecutive_parts (ps pre post : list Part) (p : Part) :
  Validate.validate ps = Ok tt →
  (∀ x, x ∈ ps → Path x ≠ EmptyString) →
  ps = pre ++ p :: post →
  Offset p = Actions.getPartsSize (Spec.before pre (Path p))
  ∧ ActualSize p = Size p
  ∧ (∀ p', head post = Some p' → Path p' ≠ Path p →
           U64.add (Offset p) (Size p)
           = FileSize (hd p (Spec.before pre (Path p)))).
Proof.
  intros Hval Hpaths ->. unfold Validate.validate in Hval.
  destruct (Validate.loop Validate.init (pre ++ p :: post)) as [st|e] eqn:Hloop;
    [|done].
  clear Hval. change (pre ++ p :: post) with (pre ++ [p] ++ post) in Hloop.
  rewrite app_assoc, loop_app in Hloop.
  destruct (Validate.loop Validate.init (pre ++ [p])) as [st2|e] eqn:Hp; [|done].
  cbn [bind] in Hloop.
  destruct (loop_snoc_inv pre p st2) as (Hpath & Hoff & Hold & Hstart & Hact);
    [|done|].
  { intros x Hx. apply Hpaths. apply elem_of_app in Hx as [Hx|Hx].
    - apply elem_of_app. by left.
    - apply elem_of_app. right. apply list_elem_of_singleton in Hx. subst x. left. }
  split; [done|]. split; [done|].
  intros p' Hhead Hne. destruct post as [|p0 post]; [done|].
  cbn [head] in Hhead. inversion Hhead; subst p0.
  cbn [Validate.loop] in Hloop.
  destruct (Validate.step st2 p') as [st3|e] eqn:Hstep; [|done].
  unfold Validate.step, Validate.enterFile in Hstep.
  rewrite decide_True in Hstep by congruence.
  destruct (decide (Validate.offset st2 ≠ FileSize (Validate.pOld st2)))
    as [|Heq]; [done|].
  apply dec_stable in Heq. rewrite Hoff, Hold in Heq. by rewrite Hstart.
Qed.

Lemma validate_accepts_consecutive_parts_witness :
  Offset (mkPart "big" 5 2 2 2)
  = Actions.getPartsSize
      (Spec.before [mkPart "empty" 0 0 0 0; mkPart "big" 5 0 2 2] "big")
  ∧ 2 = 2
  ∧ (∀ p', head [mkPart "big" 5 4 1 1] = Some p' → Path p' ≠ "big" →
           U64.add 2 2
           = FileSize (hd (mkPart "big" 5 2 2 2)
                          (Spec.before [mkPart "empty" 0 0 0 0; mkPart "big" 5 0 2 2]
                                       "big"))).
Proof.
  apply (validate_accepts_consecutive_parts Examples.listing
           [mkPart "empty" 0 0 0 0; mkPart "big" 5 0 2 2]
           [mkPart "big" 5 4 1 1] (mkPart "big" 5 2 2 2)).
  - vm_compute. reflexivity.
  - intros x Hx. apply list_elem_of_In in Hx. simpl in Hx.
    destruct Hx as [<-|[<-|[<-|[<-|[]]]]]; intros H; discriminate H.
  - reflexivity.
Defined.

(** ** The names of temporary files *)

Section RegexpFacts.
Import Regexp.

Lemma string_app_nil_inv (s1 s2 : string) :
  s1 +:+ s2 = EmptyString → s1 = EmptyString ∧ s2 = EmptyString.
Proof. destruct s1; [done|]. intros H. discriminate H. Qed.

Lemma nullable_spec (r : regexp) : nullable r = true ↔ matches r EmptyString.
Proof.
  split.
  - induction r as [| |c| |r1 IH1 r2 IH2|r1 IH1 r2 IH2|r1 IH1];
      cbn [nullable]; intros H; try discriminate H.
    + constructor.
    + apply andb_prop in H as [H1 H2].
      apply (MCat r1 r2 EmptyString EmptyString); [by apply IH1 | by apply IH2].
    + apply orb_prop in H as [H|H]; [apply MAltL | apply MAltR]; auto.
    + constructor.
  - intros H. remember EmptyString as s eqn:Hs.
    induction H as [|c|c Hc|r1 r2 s1 s2 H1 IH1 H2 IH2|r1 r2 s H IH|r1 r2 s H IH
                    |r|r s1 s2 H1 IH1 H2 IH2]; cbn [nullable]; try done.
    + apply string_app_nil_inv in Hs as [-> ->]. by rewrite IH1, IH2.
    + by rewrite IH.
    + rewrite IH by done. apply orb_true_r.
Qed.

Lemma matches_Star_cons (r : regexp) (c : ascii) (s : string) :
  matches (Star r) (String c s) →
  ∃ s1 s2, s = s1 +:+ s2 ∧ matches r (String c s1) ∧ matches (Star r) s2.
Proof.
  intros H. remember (Star r) as r' eqn:Hr. remember (String c s) as s' eqn:Hs.
  revert s Hs.
  induction H as [|c'|c' Hc|r1 r2 s1 s2 H1 IH1 H2 IH2|r1 r2 s0 H IH|r1 r2 s0 H IH
                  |r0|r0 s1 s2 H1 IH1 H2 IH2]; intros s Hs; try discriminate.
  inversion Hr; subst r0. destruct s1 as [|c1 s1].
  - apply IH2; done.
  - change (String c1 (s1 +:+ s2) = String c s) in Hs. inversion Hs; subst.
    by exists s1, s2.
Qed.

Lemma deriv_spec (c : ascii) (r : regexp) :
  ∀ s, matches (deriv c r) s ↔ matches r (String c s).
Proof.
  induction r as [| |c'| |r1 IH1 r2 IH2|r1 IH1 r2 IH2|r1 IH1]; intros s;
    cbn [deriv].
  - split; intros H; inversion H.
  - split; intros H; inversion H.
  - destruct (Ascii.eqb c c') eqn:Hc.
    + apply Ascii.eqb_eq in Hc. subst c'. split; intros H; inversion H; constructor.
    + apply Ascii.eqb_neq in Hc. split; intros H; inversion H. by subst.
  - destruct (isDigit c) eqn:Hc.
    + split; intros H; inversion H; by constructor.
    + split; intros H; inversion H. congruence.
  - assert (Hleft : matches (Cat (deriv c r1) r2) s → matches (Cat r1 r2) (String c s)).
    { intros H. inversion H as [| | |r1' r2' s1 s2 H1 H2| | | |]; subst.
      apply IH1 in H1. apply (MCat r1 r2 (String c s1) s2); done. }
    assert (Hinv : matches (Cat r1 r2) (String c s) →
                   matches (Cat (deriv c r1) r2) s
                   ∨ (nullable r1 = true ∧ matches (deriv c r2) s)).
    { intros H. inversion H as [| | |r1' r2' s1 s2 H1 H2 Hr Hs| | | |]; subst.
      destruct s1 as [|c1 s1].
      - right. split; [by apply nullable_spec|]. apply IH2.
        change (EmptyString +:+ s2) with s2 in Hs. by rewrite Hs in H2.
      - left. change (String c1 (s1 +:+ s2) = String c s) in Hs.
        inversion Hs; subst. apply MCat; [by apply IH1|done]. }
    destruct (nullable r1) eqn:Hn.
    + split.
      * intros H. inversion H; subst; [by apply Hleft|].
        apply (MCat r1 r2 EmptyString (String c s)).
        -- by apply nullable_spec.
        -- by apply IH2.
      * intros H. destruct (Hinv H) as [H'|[_ H']]; [by apply MAltL|by apply MAltR].
    + split; [done|]. intros H. by destruct (Hinv H) as [H'|[? _]].
  - split.
    + intros H. inversion H; subst; [apply MAltL; by apply IH1|apply MAltR; by apply IH2].
    + intros H. inversion H; subst; [apply MAltL; by apply IH1|apply MAltR; by apply IH2].
  - split.
    + intros H. inversion H as [| | |r1' r2' s1 s2 H1 H2| | | |]; subst.
      apply IH1 in H1. apply (MStarS r1 (String c s1) s2); done.
    + intros H. apply matches_Star_cons in H as (s1 & s2 & -> & H1 & H2).
      apply MCat; [by apply IH1|done].
Qed.

Lemma fullMatch_spec (s : string) :
  ∀ r, fullMatch r s = true ↔ matches r s.
Proof.
  induction s as [|c s IH]; intros r; cbn [fullMatch].
  - apply nullable_spec.
  - rewrite IH. apply deriv_spec.
Qed.

(** What [MatchString] computes for a pattern that ends in [$]. *)
Lemma matchAtEnd_spec (r : regexp) (s : string) :
  matchAtEnd r s = true ↔ ∃ pre w, s = pre +:+ w ∧ matches r w.
Proof.
  induction s as [|c s IH]; cbn [matchAtEnd].
  - rewrite orb_false_r, fullMatch_spec. split.
    + intros H. by exists EmptyString, EmptyString.
    + intros (pre & w & Hs & H). symmetry in Hs.
      apply string_app_nil_inv in Hs as [_ ->]. done.
  - rewrite orb_true_iff, fullMatch_spec, IH. split.
    + intros [H|(pre & w & -> & H)].
      * by exists EmptyString, (String c s).
      * by exists (String c pre), w.
    + intros (pre & w & Hs & H). destruct pre as [|c' pre].
      * left. change (EmptyString +:+ w) with w in Hs. by rewrite Hs.
      * right. change (String c' (pre +:+ w)) with (String c' pre +:+ w) in Hs.
        change (String c s = String c' (pre +:+ w)) in Hs. inversion Hs; subst.
        by exists pre, w.
Qed.

Lemma matches_Chr_Cat (c : ascii) (r : regexp) (w : string) :
  matches (Cat (Chr c) r) w ↔ ∃ w', w = String c w' ∧ matches r w'.
Proof.
  split.
  - intros H. inversion H as [| | |r1 r2 s1 s2 H1 H2| | | |]; subst.
    inversion H1; subst. by exists s2.
  - intros (w' & -> & H). apply (MCat (Chr c) r (String c EmptyString) w'); [constructor|done].
Qed.

Lemma matches_Star_Digit (s : string) :
  matches (Star Digit) s ↔ digits s = true.
Proof.
  split.
  - intros H. remember (Star Digit) as r eqn:Hr.
    induction H as [|c'|c' Hc|r1 r2 s1 s2 H1 IH1 H2 IH2|r1 r2 s0 H IH|r1 r2 s0 H IH
                    |r0|r0 s1 s2 H1 IH1 H2 IH2]; try discriminate; [done|].
    inversion Hr; subst r0. inversion H1; subst.
    change (digits (String c (EmptyString +:+ s2)) = true).
    cbn [digits]. change (EmptyString +:+ s2) with s2.
    rewrite IH2 by done. by rewrite andb_true_r.
  - induction s as [|c s IH]; cbn [digits]; intros H; [constructor|].
    apply andb_prop in H as [Hc Hs].
    apply (MStarS Digit (String c EmptyString) s); [by constructor|by apply IH].
Qed.

Lemma matches_Plus_Digit (s : string) :
  matches (Plus Digit) s ↔ s ≠ EmptyString ∧ digits s = true.
Proof.
  unfold Plus. split.
  - intros H. inversion H as [| | |r1 r2 s1 s2 H1 H2| | | |]; subst.
    inversion H1; subst. split; [done|].
    change (digits (String c s2) = true). cbn [digits].
    apply matches_Star_Digit in H2. rewrite H2. by rewrite andb_true_r.
  - intros [Hne H]. destruct s as [|c s]; [done|]. cbn [digits] in H.
    apply andb_prop in H as [Hc Hs].
    apply (MCat Digit (Star Digit) (String c EmptyString) s); [by constructor|].
    by apply matches_Star_Digit.
Qed.

End RegexpFacts.

Lemma IsTemporaryFileName_intro (pre ds : string) :
  ds ≠ EmptyString →
  Regexp.digits ds = true →
  Fs.IsTemporaryFileName (pre +:+ ".tmp." +:+ ds) = true.
Proof.
  intros Hne Hd. unfold Fs.IsTemporaryFileName, Fs.tmpFileNameRe.
  apply matchAtEnd_spec. exists pre, (".tmp." +:+ ds). split; [done|].
  change (Regexp.matches
            (Regexp.Cat (Regexp.Chr ".")
               (Regexp.Cat (Regexp.Chr "t")
                  (Regexp.Cat (Regexp.Chr "m")
                     (Regexp.Cat (Regexp.Chr "p")
                        (Regexp.Cat (Regexp.Chr ".") (Regexp.Plus Regexp.Digit))))))
            (String "." (String "t" (String "m" (String "p" (String "." ds)))))).
  apply matches_Chr_Cat. eexists. split; [done|].
  apply matches_Chr_Cat. eexists. split; [done|].
  apply matches_Chr_Cat. eexists. split; [done|].
  apply matches_Chr_Cat. eexists. split; [done|].
  apply matches_Chr_Cat. eexists. split; [done|].
  by apply matches_Plus_Digit.
Qed.

(** X11: the names that [IsTemporaryFileName] accepts. A name matches the
    pattern [\.tmp\.\d+$] exactly when it ends in [.tmp.] followed by one
    or more decimal digits: it is some string, then [.tmp.], then a string
    of digits that is not empty. *)
Theorem IsTemporaryFileName_iff (fn : string) :
  Fs.IsTemporaryFileName fn = true
  ↔ ∃ pre ds, fn = pre +:+ ".tmp." +:+ ds
              ∧ ds ≠ EmptyString ∧ Regexp.digits ds = true.
Proof.
  split.
  - unfold Fs.IsTemporaryFileName, Fs.tmpFileNameRe. rewrite matchAtEnd_spec.
    intros (pre & w & -> & H).
    apply matches_Chr_Cat in H as (w1 & -> & H).
    apply matches_Chr_Cat in H as (w2 & -> & H).
    apply matches_Chr_Cat in H as (w3 & -> & H).
    apply matches_Chr_Cat in H as (w4 & -> & H).
    apply matches_Chr_Cat in H as (w5 & -> & H).
    apply matches_Plus_Digit in H as [Hne Hd].
    by exists pre, w5.
  - intros (pre & ds & -> & Hne & Hd). by apply IsTemporaryFileName_intro.
Qed.

Lemma digits_string_of_uint (d : Decimal.uint) :
  Regexp.digits (NilEmpty.string_of_uint d) = true.
Proof. induction d; cbn [NilEmpty.string_of_uint Regexp.digits]; by rewrite ?IHd. Qed.

Lemma decimal_digits (n : Z) :
  Fs.decimal n ≠ EmptyString ∧ Regexp.digits (Fs.decimal n) = true.
Proof.
  unfold Fs.decimal, NilZero.string_of_uint.
  destruct (N.to_uint (Z.to_N n)) as [|d|d|d|d|d|d|d|d|d|d] eqn:E;
    (split; [done|]); try done;
    cbn [NilEmpty.string_of_uint Regexp.digits]; by rewrite digits_string_of_uint.
Qed.

(** X12: the temporary files of [WriteFileAtomically] are recognised. For
    every path and every value of the counter [tmpFileNum], the name
    [path.tmp.n] that [WriteFileAtomically] writes to before it renames
    the file is a temporary file name for [IsTemporaryFileName]. *)
Theorem tmpPath_IsTemporaryFileName (path : string) (n : Z) :
  Fs.IsTemporaryFileName (Fs.tmpPath path n) = true.
Proof.
  destruct (decimal_digits n) as [Hne Hd].
  by apply IsTemporaryFileName_intro.
Qed.

(** ** The counter of the downloaded bytes *)

Lemma getPartsSize_wrap (l : list Part) :
  Actions.getPartsSize l = U64.wrap (Spec.totalSize l).
Proof.
  unfold Actions.getPartsSize.
  assert (Hgen : ∀ a, foldl (λ n p, U64.add n (Size p)) (U64.wrap a) l
                      = U64.wrap (a + Spec.totalSize l)).
  { induction l as [|p l IH]; intros a.
    - cbn. by rewrite Z.add_0_r.
    - cbn [foldl]. rewrite U64_add_wrap, IH.
      change (Spec.totalSize (p :: l)) with (Size p + Spec.totalSize l).
      f_equal. lia. }
  apply (Hgen 0).
Qed.

Lemma totalSize_Permutation (l l' : list Part) :
  l ≡ₚ l' → Spec.totalSize l = Spec.totalSize l'.
Proof.
  induction 1 as [|x l l' _ IH|x y l|l l' l'' _ IH1 _ IH2].
  - done.
  - change (Size x + Spec.totalSize l = Size x + Spec.totalSize l'). lia.
  - change (Size y + (Size x + Spec.totalSize l)
            = Size x + (Size y + Spec.totalSize l)). lia.
  - lia.
Qed.

(** The sizes of the parts of the paths [ks], path by path, add up to the
    size of all parts. *)
Lemma totalSize_by_path (l : list Part) (ks : list string) :
  NoDup ks →
  (∀ p, p ∈ l → Path p ∈ ks) →
  foldr (λ k n, Spec.totalSize (filter (λ p, Path p = k) l) + n) 0 ks
  = Spec.totalSize l.
Proof.
  intros Hnd. induction l as [|p l IH]; intros Hks.
  - clear Hks Hnd. induction ks as [|k ks IHk]; [done|]. cbn [foldr].
    rewrite IHk. done.
  - assert (Hone : ∀ ks', NoDup ks' →
              foldr (λ k n, Spec.totalSize (filter (λ q, Path q = k) (p :: l)) + n) 0 ks'
              = (if decide (Path p ∈ ks') then Size p else 0)
                + foldr (λ k n, Spec.totalSize (filter (λ q, Path q = k) l) + n) 0 ks').
    { clear. intros ks' Hnd'. induction ks' as [|k ks' IHk].
      - cbn [foldr]. rewrite decide_False; [done|]. apply not_elem_of_nil.
      - apply NoDup_cons in Hnd' as [Hk Hnd']. cbn [foldr]. rewrite (IHk Hnd').
        destruct (decide (Path p = k)) as [Heq|Hne].
        + rewrite filter_cons_True by done. subst k.
          rewrite (decide_True (P := Path p ∈ Path p :: ks')) by left.
          rewrite (decide_False (P := Path p ∈ ks')) by done.
          change (Spec.totalSize (p :: filter (λ q, Path q = Path p) l))
            with (Size p + Spec.totalSize (filter (λ q, Path q = Path p) l)). lia.
        + rewrite filter_cons_False by done.
          destruct (decide (Path p ∈ ks')) as [Hin|Hnin].
          * rewrite decide_True by (by right). lia.
          * rewrite decide_False; [lia|]. intros Hin.
            apply elem_of_cons in Hin as [?|?]; done. }
    rewrite (Hone ks Hnd), IH.
    + rewrite decide_True by (apply Hks; left). done.
    + intros q Hq. apply Hks. by right.
Qed.

Section CounterFacts.
Import Actions.
Variable src : RemoteFS.
Variable dst : Fslocal.FS.

Lemma copyPart_counter (p : Part) (w w' : world) (c0 : Z) :
  copyPart src dst p w = (Ok tt, w') →
  bytesDownloaded w = U64.wrap c0 →
  bytesDownloaded w' = U64.wrap (c0 + Size p).
Proof.
  intros H Hc. unfold copyPart in H. unfold iobind at 1 in H.
  destruct (openPart dst p w) as [[wc|e] w1] eqn:Hopen; [|done].
  unfold iobind at 1 in H.
  destruct (downloadPart src p wc w1) as [[wc'|e] w2] eqn:Hdown; [|done].
  assert (Hc1 : bytesDownloaded w1 = U64.wrap c0).
  { unfold openPart, iobind, emit in Hopen. cbn [os bytesDownloaded log] in Hopen.
    destruct (Fslocal.NewWriteCloser dst p (os w)) as [[wc0 o1]|e]; [|done].
    inversion Hopen; subst. done. }
  assert (Hc2 : bytesDownloaded w2 = U64.wrap (c0 + Size p)).
  { unfold downloadPart, iobind, emit in Hdown.
    cbn [os bytesDownloaded log] in Hdown. rewrite Hc1 in Hdown.
    unfold DownloadPart in Hdown.
    destruct (rObject src p) as [chunks|msg]; [|done].
    pose proof (ioCopy_statWriter_counter chunks (mkStatWriter wc) (os w1) c0 0 0)
      as Hcount.
    rewrite Z.add_0_r in Hcount.
    destruct (ioCopy (mkStatWriter wc) chunks (os w1, U64.wrap c0) 0)
      as [[n err] [sw' [o' c']]]. cbn [fst snd] in Hcount.
    destruct err as [e|]; [done|].
    destruct (decide (n ≠ Size p)) as [|Hn]; [done|]. apply dec_stable in Hn.
    injection Hdown as Hwc Hw2. subst w2. cbn [bytesDownloaded]. rewrite Hcount.
    f_equal. lia. }
  unfold closePart, iobind, emit in H. cbn [os bytesDownloaded log] in H.
  unfold Fslocal.wcClose, Fscommon.FsyncFile in H. inversion H; subst w'. done.
Qed.

Lemma copyParts_counter (ps : list Part) :
  ∀ (w w' : world) (c0 : Z),
    copyParts src dst ps w = (Ok tt, w') →
    bytesDownloaded w = U64.wrap c0 →
    bytesDownloaded w' = U64.wrap (c0 + Spec.totalSize ps).
Proof.
  induction ps as [|p ps IH]; intros w w' c0 H Hc.
  - inversion H; subst w'. cbn. by rewrite Z.add_0_r.
  - cbn [copyParts] in H. unfold iobind in H.
    destruct (copyPart src dst p w) as [[[]|e] w1] eqn:Hcopy; [|done].
    rewrite (IH w1 w' (c0 + Size p) H (copyPart_counter p w w1 c0 Hcopy Hc)).
    change (Spec.totalSize (p :: ps)) with (Size p + Spec.totalSize ps).
    f_equal. lia.
Qed.

Lemma runParallelPerPath_counter (groups : list (string * list Part)) :
  ∀ (w w' : world) (c0 : Z),
    runParallelPerPath (copyGroup src dst) groups w = (Ok tt, w') →
    bytesDownloaded w = U64.wrap c0 →
    bytesDownloaded w'
    = U64.wrap (c0 + foldr (λ kg n, Spec.totalSize kg.2 + n) 0 groups).
Proof.
  induction groups as [|[k g] groups IH]; intros w w' c0 H Hc.
  - inversion H; subst w'. cbn. by rewrite Z.add_0_r.
  - cbn [runParallelPerPath] in H. unfold iobind in H.
    destruct (copyGroup src dst g w) as [[[]|e] w1] eqn:Hcopy; [|done].
    unfold copyGroup in Hcopy.
    pose proof (copyParts_counter _ w w1 c0 Hcopy Hc) as Hc1.
    rewrite (totalSize_Permutation _ _ (SortParts_Permutation g)) in Hc1.
    rewrite (IH w1 w' _ H Hc1). cbn [foldr snd]. f_equal. lia.
Qed.

(** After the download phase that succeeded the counter is the size of the
    parts to copy. *)
Lemma downloadPhase_counter (partsToCopy : list Part) (w w' : world) :
  downloadPhase src dst partsToCopy w = (Ok tt, w') →
  bytesDownloaded w = 0 →
  bytesDownloaded w' = getPartsSize partsToCopy.
Proof.
  intros H Hc. unfold downloadPhase in H.
  destruct (decide (0 < length partsToCopy)%nat) as [Hlen|Hlen].
  - unfold iobind in H.
    rewrite (runParallelPerPath_counter _ _ w' 0 H) by done.
    rewrite getPartsSize_wrap, Z.add_0_l. f_equal.
    destruct (groupByPath_groups partsToCopy) as (Hnd & Hiff & _).
    set (groups := map_to_list (groupByPath partsToCopy)) in *.
    rewrite <- (totalSize_by_path partsToCopy groups.*1 Hnd).
    + assert (Hall : ∀ k g, (k, g) ∈ groups →
                            g = filter (λ p, Path p = k) partsToCopy).
      { intros k g Hg. by apply Hiff in Hg as [_ ?]. }
      clear Hnd Hiff H. induction groups as [|[k g] groups IH]; [done|].
      cbn [foldr fmap list_fmap fst snd].
      rewrite (Hall k g) at 1 by left. rewrite IH; [done|].
      intros k' g' Hg'. apply Hall. by right.
    + intros p Hp. apply list_elem_of_fmap.
      exists (Path p, filter (λ q, Path q = Path p) partsToCopy). split; [done|].
      apply Hiff. split; [|done]. intros Hnil.
      assert (p ∈ filter (λ q, Path q = Path p) partsToCopy) as Hin
        by (by apply list_elem_of_filter).
      rewrite Hnil in Hin. by apply not_elem_of_nil in Hin.
  - inversion H; subst w'. rewrite Hc.
    assert (partsToCopy = []) as -> by (destruct partsToCopy; simpl in *; [done|lia]).
    done.
Qed.

Lemma deletePaths_counter (paths : list string) :
  ∀ (acc : Z) (w : world),
    bytesDownloaded (deletePaths dst paths acc w).2 = bytesDownloaded w.
Proof.
  induction paths as [|path paths IH]; intros acc w; [done|].
  cbn [deletePaths]. unfold iobind.
  assert (Hd : bytesDownloaded (deletePath dst path w).2 = bytesDownloaded w).
  { unfold deletePath, iobind, emit. cbn [os bytesDownloaded log].
    by destruct (Fslocal.DeletePath dst path (os w)) as [[size o']|e]. }
  destruct (deletePath dst path w) as [[size|e] w1]; cbn [snd] in *; [|done].
  by rewrite IH.
Qed.

Lemma deletePhase_counter (partsToDelete : list Part) (w : world) :
  bytesDownloaded (deletePhase dst partsToDelete w).2 = bytesDownloaded w.
Proof.
  unfold deletePhase. destruct (decide (0 < length partsToDelete)%nat); [|done].
  unfold iobind.
  pose proof (deletePaths_counter (elements (pathsToDelete partsToDelete)) 0 w) as Hd.
  destruct (deletePaths dst (elements (pathsToDelete partsToDelete)) 0 w)
    as [[size|e] w1]; cbn [snd] in *; [|done].
  unfold removeEmptyDirs, ret.
  by destruct (Fslocal.RemoveEmptyDirs dst (os w1)) as [o'|e].
Qed.

End CounterFacts.

(** X13: the counter of the downloaded bytes ends at the download size.
    When [Run] returns no error, starting with the counter at 0, the
    counter [bytesDownloaded], to which every [Write] of a [statWriter]
    adds, is in the end the download size that [Run] reports: the size of
    all parts to copy, in [uint64]. *)
Theorem Run_counter_is_downloadSize (M : Z) (r : Actions.Restore)
    (w : Actions.world) (report : Actions.Report) :
  (Actions.Run M r w).1 = Ok report →
  Actions.bytesDownloaded w = 0 →
  Actions.bytesDownloaded (Actions.Run M r w).2 = Actions.downloadSize report.
Proof.
  intros Hrun Hc.
  destruct (Run_inv M r w report Hrun)
    as (srcParts & dstParts1 & ds & w2 & dstParts2
        & _ & _ & _ & Hdel & _ & Hdl & ->).
  cbn [Actions.downloadSize].
  apply (downloadPhase_counter (Actions.Src r) (Actions.Dst r) _ w2); [done|].
  pose proof (deletePhase_counter (Actions.Dst r)
                (Common.PartsDifference dstParts1 (Common.SortParts srcParts)) w)
    as Hd.
  rewrite Hdel in Hd. cbn [snd] in Hd. by rewrite Hd.
Qed.

Lemma Run_counter_is_downloadSize_witness :
  Actions.bytesDownloaded (Actions.Run (2 ^ 30) Examples.restore Examples.fresh).2
  = 3.
Proof.
  assert (Hrun : (Actions.Run (2 ^ 30) Examples.restore Examples.fresh).1
                 = Ok (Actions.mkReport 3 0 3)) by (vm_compute; reflexivity).
  apply (Run_counter_is_downloadSize (2 ^ 30) Examples.restore Examples.fresh
           (Actions.mkReport 3 0 3) Hrun).
  reflexivity.
Defined.

(** ** What lies outside the directory *)

Section OutsideFacts.
Import Actions.
Variable src : RemoteFS.
Variable dst : Fslocal.FS.

Lemma keepsOutside_refl (o : OS.state) : Spec.keepsOutside dst o o.
Proof. split; [done|]. intros name _. split; [done|]. intros n Hn. by left. Qed.

Lemma keepsOutside_trans (o1 o2 o3 : OS.state) :
  Spec.keepsOutside dst o1 o2 → Spec.keepsOutside dst o2 o3 →
  Spec.keepsOutside dst o1 o3.
Proof.
  intros [Hden H12] [Hden' H23]. split; [congruence|].
  intros name Hname. destruct (H12 name Hname) as [Hk Hn].
  destruct (H23 name Hname) as [Hk' Hn']. split.
  - intros n H1. by apply Hk', Hk.
  - intros n H3. destruct (Hn' n H3) as [H2|[H2 Hd]].
    + by apply Hn.
    + right. split; [|done].
      destruct (OS.nodes o1 !! name) as [n1|] eqn:H1; [|done].
      specialize (Hk n1 eq_refl). congruence.
Qed.

Lemma extends_keepsOutside (q : string) (o o' : OS.state) :
  Spec.extends [Spec.fullName dst q] o o' → Spec.keepsOutside dst o o'.
Proof.
  intros (Hden & Hkeep & Hnew). split; [done|]. intros name Hname.
  assert (Hne : name ∉ [Spec.fullName dst q]).
  { intros Hin. apply list_elem_of_singleton in Hin. subst name.
    by rewrite prefix_fullName in Hname. }
  split.
  - intros n Hn. by apply Hkeep.
  - intros n Hn. destruct (Hnew name n Hne Hn) as [?|(? & ? & _)]; [by left|by right].
Qed.

Lemma delete_keepsOutside (q : string) (o : OS.state) :
  Spec.keepsOutside dst o
    (OS.mkState (delete (Spec.fullName dst q) (OS.nodes o)) (OS.denied o)).
Proof.
  split; [done|]. intros name Hname. cbn [OS.nodes].
  assert (Hne : Spec.fullName dst q ≠ name).
  { intros <-. by rewrite prefix_fullName in Hname. }
  rewrite lookup_delete_ne by done. split; [done|]. intros n Hn. by left.
Qed.

Lemma DeletePath_keepsOutside (q : string) (o o' : OS.state) (size : Z) :
  Fslocal.DeletePath dst q o = Ok (size, o') → Spec.keepsOutside dst o o'.
Proof.
  unfold Fslocal.DeletePath. cbv zeta.
  change (Fslocal.path dst (mkPart q 0 0 0 0)) with (Spec.fullName dst q).
  destruct (OS.Open o (Spec.fullName dst q)) as [f|e].
  - destruct (OS.FStat o f) as [fi|e]; [|done].
    unfold OS.Remove.
    destruct (decide (Spec.fullName dst q ∈ OS.denied o)); [done|].
    destruct (OS.nodes o !! Spec.fullName dst q) as [[data|]|]; [| |done].
    + intros H. inversion H; subst. apply delete_keepsOutside.
    + destruct (OS.hasChild o (Spec.fullName dst q)); [done|].
      intros H. inversion H; subst. apply delete_keepsOutside.
  - destruct (OS.IsNotExist e); [|done].
    intros H. inversion H; subst. apply keepsOutside_refl.
Qed.

Lemma deletePaths_keepsOutside (paths : list string) :
  ∀ (acc size : Z) (w w' : world),
    deletePaths dst paths acc w = (Ok size, w') →
    Spec.keepsOutside dst (os w) (os w').
Proof.
  induction paths as [|q paths IH]; intros acc size w w' H.
  - inversion H; subst. apply keepsOutside_refl.
  - cbn [deletePaths] in H. unfold iobind at 1 in H.
    destruct (deletePath dst q w) as [[sz|e] w1] eqn:Hd; [|done].
    unfold deletePath, iobind, emit in Hd. cbn [os bytesDownloaded log] in Hd.
    destruct (Fslocal.DeletePath dst q (os w)) as [[sz' o1]|e] eqn:Hdp; [|done].
    inversion Hd; subst sz' w1.
    eapply keepsOutside_trans; [by eapply DeletePath_keepsOutside|].
    apply (IH _ _ _ _ H).
Qed.

Lemma deletePhase_keepsOutside (partsToDelete : list Part) (w w' : world) (size : Z) :
  deletePhase dst partsToDelete w = (Ok size, w') →
  Spec.keepsOutside dst (os w) (os w').
Proof.
  unfold deletePhase. destruct (decide (0 < length partsToDelete)%nat).
  - unfold iobind at 1.
    destruct (deletePaths dst (elements (pathsToDelete partsToDelete)) 0 w)
      as [[sz|e] w1] eqn:Hd; [|done].
    apply deletePaths_keepsOutside in Hd.
    unfold iobind, removeEmptyDirs, Fslocal.RemoveEmptyDirs,
      Fscommon.RemoveEmptyDirs, ret.
    intros H. inversion H; subst. cbn [os].
    eapply keepsOutside_trans; [exact Hd|].
    split; [done|]. intros name Hname. cbn [OS.nodes]. split.
    + intros n Hn. apply map_lookup_filter_Some. split; [done|].
      cbn [fst snd]. unfold Fscommon.prunable. intros (_ & Hpre & _). congruence.
    + intros n Hn. apply map_lookup_filter_Some in Hn as [Hn _]. by left.
  - intros H. inversion H; subst. apply keepsOutside_refl.
Qed.

(** Writing through a [statWriter] on a [writeCloser] changes the file of
    the writer and nothing else, whatever is written and however it ends. *)
Lemma ioCopy_extends (name path : string) (chunks : list (list byte)) :
  ∀ (pos : Z) (o : OS.state) (c written : Z),
    Spec.extends [name] o
      (ioCopy (mkStatWriter (Fslocal.mkWriteCloser (Filestream.mkWriter name pos) path))
              chunks (o, c) written).2.2.1.
Proof.
  induction chunks as [|ch chunks IH]; intros pos o c written.
  - cbn. apply extends_refl.
  - rewrite ioCopy_cons.
    change (write (mkStatWriter (Fslocal.mkWriteCloser (Filestream.mkWriter name pos) path))
                  ch (o, c))
      with (statWrite (mkStatWriter (Fslocal.mkWriteCloser (Filestream.mkWriter name pos) path))
                      ch (o, c)).
    destruct (OS.nodes o !! name) as [[data|]|] eqn:Hn.
    + rewrite (statWrite_file name path pos ch data o c Hn). cbn [fst snd].
      rewrite decide_False by (intros Hne; by apply Hne).
      eapply extends_trans; [apply (extends_insert o name)|]. apply IH.
    + rewrite statWrite_eq.
      unfold write, writeCloser_Writer, Fslocal.wcWrite, Filestream.Write.
      cbn [sw_w Fslocal.wc_w Filestream.w_name]. rewrite Hn. cbn.
      apply extends_refl.
    + rewrite statWrite_eq.
      unfold write, writeCloser_Writer, Fslocal.wcWrite, Filestream.Write.
      cbn [sw_w Fslocal.wc_w Filestream.w_name]. rewrite Hn. cbn.
      apply extends_refl.
Qed.

Lemma NewWriteCloser_extends (p : Part) (o o2 : OS.state) (wc : Fslocal.writeCloser) :
  Fslocal.NewWriteCloser dst p o = Ok (wc, o2) →
  Spec.extends [Fslocal.path dst p] o o2
  ∧ ∃ pos, wc = Fslocal.mkWriteCloser (Filestream.mkWriter (Fslocal.path dst p) pos)
                                      (Fslocal.path dst p).
Proof.
  intros H. unfold Fslocal.NewWriteCloser in H. cbv zeta in H.
  set (name := Fslocal.path dst p) in *.
  destruct (Fslocal.mkdirAll dst o name) as [o1|e] eqn:Hmk; [|done].
  cbn [bind] in H. destruct (mkdirAll_inv dst o o1 name Hmk) as [Hext _].
  unfold Filestream.OpenWriterAt in H.
  destruct (decide (name ∈ OS.denied o1)); [done|].
  destruct (decide (Filestream.toInt64 (Offset p) < 0)); [done|].
  destruct (OS.nodes o1 !! name) as [[data|]|] eqn:Hn1; [|done|].
  - inversion H; subst wc o2. split; [|by eexists].
    apply (extends_mono []); [apply list_subseteq_nil|done].
  - destruct (decide (OS.dirname name = EmptyString
                      ∨ OS.isDir <$> (OS.nodes o1 !! OS.dirname name) = Some true));
      [|done].
    inversion H; subst wc o2. split; [|by eexists].
    eapply extends_trans.
    + apply (extends_mono []); [apply list_subseteq_nil|exact Hext].
    + apply extends_insert.
Qed.

Lemma copyPart_keepsOutside (p : Part) (w w' : world) :
  copyPart src dst p w = (Ok tt, w') → Spec.keepsOutside dst (os w) (os w').
Proof.
  intros H. unfold copyPart in H. unfold iobind at 1 in H.
  destruct (openPart dst p w) as [[wc|e] w1] eqn:Hopen; [|done].
  unfold iobind at 1 in H.
  destruct (downloadPart src p wc w1) as [[wc'|e] w2] eqn:Hdown; [|done].
  unfold openPart, iobind, emit in Hopen. cbn [os bytesDownloaded log] in Hopen.
  destruct (Fslocal.NewWriteCloser dst p (os w)) as [[wc0 o1]|e] eqn:Hnew; [|done].
  inversion Hopen; subst wc0 w1. clear Hopen.
  destruct (NewWriteCloser_extends p (os w) o1 wc Hnew) as (Hext & pos & ->).
  assert (Hext2 : Spec.extends [Fslocal.path dst p] o1 (os w2)).
  { unfold downloadPart, iobind, emit in Hdown.
    cbn [os bytesDownloaded log] in Hdown. unfold DownloadPart in Hdown.
    destruct (rObject src p) as [chunks|msg]; [|done].
    pose proof (ioCopy_extends (Fslocal.path dst p) (Fslocal.path dst p) chunks pos
                  o1 (bytesDownloaded w) 0) as Hio.
    destruct (ioCopy _ chunks (o1, bytesDownloaded w) 0) as [[n err] [sw' [o' c']]].
    cbn [fst snd] in Hio. destruct err as [e|]; [done|].
    destruct (decide (n ≠ Size p)); [done|].
    injection Hdown as _ Hw2. subst w2. done. }
  unfold closePart, iobind, emit in H. cbn [os bytesDownloaded log] in H.
  unfold Fslocal.wcClose, Fscommon.FsyncFile in H. inversion H; subst w'. cbn [os].
  rewrite path_fullName in Hext, Hext2.
  apply (extends_keepsOutside (Path p)). by eapply extends_trans.
Qed.

Lemma copyParts_keepsOutside (ps : list Part) :
  ∀ (w w' : world),
    copyParts src dst ps w = (Ok tt, w') → Spec.keepsOutside dst (os w) (os w').
Proof.
  induction ps as [|p ps IH]; intros w w' H.
  - inversion H; subst. apply keepsOutside_refl.
  - cbn [copyParts] in H. unfold iobind in H.
    destruct (copyPart src dst p w) as [[[]|e] w1] eqn:Hcopy; [|done].
    eapply keepsOutside_trans; [by eapply copyPart_keepsOutside|by apply IH].
Qed.

Lemma runParallelPerPath_keepsOutside (groups : list (string * list Part)) :
  ∀ (w w' : world),
    runParallelPerPath (copyGroup src dst) groups w = (Ok tt, w') →
    Spec.keepsOutside dst (os w) (os w').
Proof.
  induction groups as [|[k g] groups IH]; intros w w' H.
  - inversion H; subst. apply keepsOutside_refl.
  - cbn [runParallelPerPath] in H. unfold iobind in H.
    destruct (copyGroup src dst g w) as [[[]|e] w1] eqn:Hcopy; [|done].
    eapply keepsOutside_trans; [by eapply copyParts_keepsOutside|by apply IH].
Qed.

Lemma downloadPhase_keepsOutside (partsToCopy : list Part) (w w' : world) :
  downloadPhase src dst partsToCopy w = (Ok tt, w') →
  Spec.keepsOutside dst (os w) (os w').
Proof.
  unfold downloadPhase. destruct (decide (0 < length partsToCopy)%nat).
  - unfold iobind. intros H.
    by apply runParallelPerPath_keepsOutside in H.
  - intros H. inversion H; subst. apply keepsOutside_refl.
Qed.

End OutsideFacts.



(** ** The removal of a directory on NFS *)

Lemma removeAgain_ends (env : Fs.removal) :
  (∀ i, Fs.since env (S i) >= Fs.since env i + Fs.sleepAt i) →
  ∀ (fuel i : nat),
    (0 < fuel)%nat → (fuel + i = 64)%nat →
    Fs.since env i >= Fs.sleptBefore i →
    Fs.removeAgain env fuel i (Fs.sleepAt i) ≠ None.
Proof.
  intros Hclock fuel. induction fuel as [|fuel IH]; intros i Hpos Hsum Hsince; [lia|].
  cbn [Fs.removeAgain].
  destruct (Fs.removeAll env i) as [errStr|]; [|done].
  destruct (negb (Fs.isTemporaryNFSError errStr)); [done|].
  destruct (decide (Fs.since env i > Fs.Minute)) as [|Hnot]; [done|].
  cbv zeta. change (if decide (Fs.sleepAt i * 2 > Fs.Second) then Fs.Second
                    else Fs.sleepAt i * 2) with (Fs.sleepAt (S i)).
  destruct fuel as [|fuel'].
  - exfalso. assert (i = 63%nat) as -> by lia.
    assert (Fs.sleptBefore 63 > Fs.Minute) by (vm_compute; reflexivity). lia.
  - apply IH; [lia|lia|]. cbn [Fs.sleptBefore]. specialize (Hclock i). lia.
Qed.


